(** * The listing scraper: a shallow embedding of [chatgpt_scrape_airbnb.py]

    The development follows the source file from top to bottom: Python
    strings and the Unicode tables the [re] module consults, the five regular
    expressions of the pattern extraction engine together with a backtracking
    matcher and its declarative semantics, the two pure extractors
    ([extract_license_from_text], [parse_host_stats]), the page renderer seen
    as an oracle, the listing detail extractor, the discovery crawler and the
    orchestrator with its semaphore. *)

From Stdlib Require Import ZArith NArith List String Ascii Lia Bool DecimalString
  DecimalFacts DecimalPos.
From stdpp Require Import base option list gmap sets.

Set Default Proof Using "Type".
Open Scope list_scope.

(** ** Python strings

    A Python [str] is a sequence of Unicode code points; the regular
    expressions of the source are matched code point by code point. *)

Definition char := N.
Bind Scope N_scope with char.
Abbreviation str := (list char).

Fixpoint bytes_of (s : string) : list N :=
  match s with
  | EmptyString => []
  | String a s' => N_of_ascii a :: bytes_of s'
  end.

(** UTF-8 decoding, used only to write literals such as [utf8 "Hôte"]. *)
Fixpoint utf8_decode (l : list N) : str :=
  match l with
  | [] => []
  | b0 :: r0 =>
      if (b0 <? 128)%N then b0 :: utf8_decode r0
      else match r0 with
           | [] => []
           | b1 :: r1 =>
               if (b0 <? 224)%N
               then ((b0 - 192) * 64 + (b1 - 128))%N :: utf8_decode r1
               else match r1 with
                    | [] => []
                    | b2 :: r2 =>
                        if (b0 <? 240)%N
                        then ((b0 - 224) * 4096 + (b1 - 128) * 64 + (b2 - 128))%N
                               :: utf8_decode r2
                        else match r2 with
                             | [] => []
                             | b3 :: r3 =>
                                 ((b0 - 240) * 262144 + (b1 - 128) * 4096
                                  + (b2 - 128) * 64 + (b3 - 128))%N
                                   :: utf8_decode r3
                             end
                    end
           end
  end.

Definition utf8 (s : string) : str := utf8_decode (bytes_of s).

Definition char_eqb (a b : char) : bool := (a =? b)%N.

(** [not s] on a string: the empty string is falsy. *)
Definition is_empty (s : str) : bool :=
  match s with [] => true | _ => false end.

(** [s.replace(a, b)] for one-character [a] and [b]. *)
Definition str_replace (a b : char) (s : str) : str :=
  map (fun c => if char_eqb c a then b else c) s.

(** [s.split(sep)[0]] for a one-character separator: the part before its
    first occurrence, the whole string when there is none. *)
Fixpoint split_head (sep : char) (s : str) : str :=
  match s with
  | [] => []
  | c :: s' => if char_eqb c sep then [] else c :: split_head sep s'
  end.

(** [needle in s]. *)
Fixpoint is_prefix (p s : str) : bool :=
  match p, s with
  | [], _ => true
  | a :: p', b :: s' => char_eqb a b && is_prefix p' s'
  | _ :: _, [] => false
  end.

Fixpoint contains (needle s : str) : bool :=
  is_prefix needle s ||
  match s with
  | [] => false
  | _ :: s' => contains needle s'
  end.

(** [s[a:b]] for [0 <= a <= b]. *)
Definition substr (s : str) (a b : nat) : str := take (b - a) (drop a s).

(** [Py_UNICODE_ISSPACE]: what [\s] and [str.strip] treat as white space. *)
Definition is_space (c : char) : bool :=
  ((9 <=? c) && (c <=? 13) || (28 <=? c) && (c <=? 32)
   || (c =? 133) || (c =? 160) || (c =? 5760)
   || (8192 <=? c) && (c <=? 8202)
   || (c =? 8232) || (c =? 8233) || (c =? 8239) || (c =? 8287)
   || (c =? 12288))%N.

Fixpoint lstrip (s : str) : str :=
  match s with
  | [] => []
  | c :: s' => if is_space c then lstrip s' else s
  end.

Definition strip (s : str) : str := rev (lstrip (rev (lstrip s))).

(** [str(n)] for an integer. *)
Definition py_str (z : Z) : str :=
  bytes_of (NilZero.string_of_int (Z.to_int z)).

(** ** The Unicode tables

    [re] classifies code points with the interpreter's Unicode database,
    which is not part of the repository: it is a parameter of the model. *)

Class UnicodeDB := {
  is_decimal : char -> bool;      (* general category Nd: what [\d] accepts *)
  decimal_value : char -> Z;      (* the digit an Nd code point stands for *)
  is_alnum : char -> bool;        (* [str.isalnum] of a code point *)
  to_lower : char -> char;        (* simple lower-case mapping *)
  to_upper : char -> char;        (* simple upper-case mapping *)
}.

(** The tables restricted to Basic Latin and Latin-1 Supplement, where they
    are small enough to write out; code points from 256 on are left
    unclassified.  Used for the worked examples only. *)
Definition latin1_alpha (c : char) : bool :=
  ((65 <=? c) && (c <=? 90) || (97 <=? c) && (c <=? 122)
   || (c =? 170) || (c =? 181) || (c =? 186)
   || (192 <=? c) && (c <=? 214) || (216 <=? c) && (c <=? 246)
   || (248 <=? c) && (c <=? 255))%N.

Definition latin1_db : UnicodeDB := {|
  is_decimal c := ((48 <=? c) && (c <=? 57))%N;
  decimal_value c := (Z.of_N c - 48)%Z;
  is_alnum c :=
    (latin1_alpha c || (48 <=? c) && (c <=? 57)
     || (c =? 178) || (c =? 179) || (c =? 185)
     || (188 <=? c) && (c <=? 190))%N;
  to_lower c :=
    if ((65 <=? c) && (c <=? 90) || (192 <=? c) && (c <=? 214)
        || (216 <=? c) && (c <=? 222))%N
    then (c + 32)%N else c;
  to_upper c :=
    if ((97 <=? c) && (c <=? 122) || (224 <=? c) && (c <=? 246)
        || (248 <=? c) && (c <=? 254))%N
    then (c - 32)%N
    else if (c =? 181)%N then 924%N
    else if (c =? 255)%N then 376%N
    else c;
|}.

(** ** Exceptions *)

Inductive exn :=
| PlaywrightTimeoutError
| PlaywrightError
| AttributeError
| TypeError
| ValueError.

Inductive outcome (A : Type) :=
| Ret (a : A)
| Raise (e : exn).
Arguments Ret {A} a.
Arguments Raise {A} e.

Definition obind {A B} (m : outcome A) (f : A -> outcome B) : outcome B :=
  match m with
  | Ret a => f a
  | Raise e => Raise e
  end.

(** [try: m except Exception: h] *)
Definition otry {A} (m : outcome A) (h : outcome A) : outcome A :=
  match m with
  | Ret a => Ret a
  | Raise _ => h
  end.

Declare Scope outcome_scope.
Delimit Scope outcome_scope with outcome.
Notation "x <- m ;; k" := (obind m (fun x => k))
  (at level 100, m at next level, right associativity) : outcome_scope.

(** A method call on a value that may be [None]. *)
Definition deref {A} (o : option A) : outcome A :=
  match o with
  | Some a => Ret a
  | None => Raise AttributeError
  end.

(** ** Regular expressions

    The fragment of [re] the source uses: character classes, concatenation,
    ordered alternation (for [?] and the bounded repetitions), greedy
    repetition of one character class, numbered capture groups and the word
    boundary [\b]. *)

Inductive regex :=
| Eps
| Chr (p : char -> bool)
| Cat (r1 r2 : regex)
| Alt (r1 r2 : regex)
| Star (p : char -> bool)
| Grp (n : nat) (r : regex)
| WordB.

Definition captures := list (nat * (nat * nat)).

(** The matcher's position in the subject string: the character just before
    the cursor (for [\b]), what is left to read, the index of the cursor and
    the spans of the groups closed so far. *)
Record mstate := MState {
  m_prev : option char;
  m_rest : str;
  m_pos : nat;
  m_caps : captures;
}.

Fixpoint cap_lookup (n : nat) (c : captures) : option (nat * nat) :=
  match c with
  | [] => None
  | (k, sp) :: c' => if Nat.eqb k n then Some sp else cap_lookup n c'
  end.

Definition orelse {A} (a b : option A) : option A :=
  match a with
  | Some x => Some x
  | None => b
  end.

Section Model.
Context {U : UnicodeDB}.

(** [\w]: alphanumeric or underscore. *)
Definition is_word (c : char) : bool := is_alnum c || char_eqb c 95.

Definition is_word_opt (o : option char) : bool :=
  match o with
  | Some c => is_word c
  | None => false
  end.

(** [\b] holds where exactly one side of the cursor is a word character; the
    two ends of the string count as non-word. *)
Definition at_boundary (st : mstate) : bool :=
  xorb (is_word_opt (m_prev st)) (is_word_opt (head (m_rest st))).

(** Greedy repetition: as many characters as possible, giving them back one
    at a time when the rest of the pattern fails. *)
Fixpoint star_loop {A} (p : char -> bool) (k : mstate -> option A)
    (prev : option char) (rest : str) (pos : nat) (caps : captures) : option A :=
  match rest with
  | c :: rest' =>
      if p c
      then orelse (star_loop p k (Some c) rest' (S pos) caps)
                  (k (MState prev rest pos caps))
      else k (MState prev rest pos caps)
  | [] => k (MState prev rest pos caps)
  end.

(** The backtracking matcher, in continuation-passing style: [k] is the rest
    of the pattern, and the first alternative that lets [k] succeed wins. *)
Fixpoint mre {A} (r : regex) (st : mstate) (k : mstate -> option A) : option A :=
  match r with
  | Eps => k st
  | Chr p =>
      match m_rest st with
      | c :: rest' =>
          if p c then k (MState (Some c) rest' (S (m_pos st)) (m_caps st)) else None
      | [] => None
      end
  | Cat r1 r2 => mre r1 st (fun st1 => mre r2 st1 k)
  | Alt r1 r2 => orelse (mre r1 st k) (mre r2 st k)
  | Star p => star_loop p k (m_prev st) (m_rest st) (m_pos st) (m_caps st)
  | Grp n r =>
      mre r st (fun st1 =>
        k (MState (m_prev st1) (m_rest st1) (m_pos st1)
                  ((n, (m_pos st, m_pos st1)) :: m_caps st1)))
  | WordB => if at_boundary st then k st else None
  end.

(** [re.search]: the match at the leftmost position where one exists. *)
Fixpoint search_from (r : regex) (prev : option char) (rest : str) (pos : nat)
    : option (nat * mstate) :=
  match mre r (MState prev rest pos []) Some with
  | Some st' => Some (pos, st')
  | None =>
      match rest with
      | [] => None
      | c :: rest' => search_from r (Some c) rest' (S pos)
      end
  end.

(** A match object. *)
Record Match := {
  mo_string : str;
  mo_start : nat;
  mo_end : nat;
  mo_caps : captures;
}.

Definition re_search (r : regex) (text : str) : option Match :=
  match search_from r None text 0 with
  | Some (i, st') =>
      Some {| mo_string := text; mo_start := i; mo_end := m_pos st';
              mo_caps := m_caps st' |}
  | None => None
  end.

(** [m.group(n)]; [None] for a group that took no part in the match. *)
Definition group (m : Match) (n : nat) : option str :=
  match n with
  | 0 => Some (substr (mo_string m) (mo_start m) (mo_end m))
  | _ =>
      match cap_lookup n (mo_caps m) with
      | Some (a, b) => Some (substr (mo_string m) a b)
      | None => None
      end
  end.

(** *** Pattern syntax *)

Definition lit (c : char) : regex := Chr (char_eqb c).

(** A literal under [re.IGNORECASE]: a cased character is compared after
    lower-casing the subject, an uncased one as it is; [i] and [s] also
    accept the dotless i and the long s, as the pattern compiler arranges. *)
Definition case_fix (lo : char) : list char :=
  if char_eqb lo 105 then [305%N]
  else if char_eqb lo 115 then [383%N]
  else [].

Definition in_chars (l : list char) (c : char) : bool :=
  existsb (char_eqb c) l.

Definition is_cased (c : char) : bool :=
  negb (char_eqb c (to_lower c)) || negb (char_eqb c (to_upper c)).

Definition ci_match (c x : char) : bool :=
  if is_cased c
  then in_chars (to_lower c :: case_fix (to_lower c)) (to_lower x)
  else char_eqb c x.

Definition lit_i (c : char) : regex := Chr (ci_match c).

Fixpoint seq_of (f : char -> regex) (s : str) : regex :=
  match s with
  | [] => Eps
  | c :: s' => Cat (f c) (seq_of f s')
  end.

Definition opt (r : regex) : regex := Alt r Eps.
Definition plus (p : char -> bool) : regex := Cat (Chr p) (Star p).

Fixpoint rep (n : nat) (r : regex) : regex :=
  match n with
  | 0 => Eps
  | S n' => Cat r (rep n' r)
  end.

(** [r{0,n}], greedy. *)
Fixpoint upto (n : nat) (r : regex) : regex :=
  match n with
  | 0 => Eps
  | S n' => opt (Cat r (upto n' r))
  end.

Definition rep_range (lo hi : nat) (r : regex) : regex :=
  Cat (rep lo r) (upto (hi - lo) r).

Definition upper (c : char) : bool := ((65 <=? c) && (c <=? 90))%N.
Definition upper_or_digit (c : char) : bool :=
  upper c || ((48 <=? c) && (c <=? 57))%N.
Definition dot_or_comma (c : char) : bool := char_eqb c 46 || char_eqb c 44.

(** The pattern "\b[A-Z]{3}-[A-Z]{3}-[A-Z0-9]{4,6}\b". *)
Definition re_license_code : regex :=
  Cat WordB (Cat (rep 3 (Chr upper)) (Cat (lit 45) (Cat (rep 3 (Chr upper))
    (Cat (lit 45) (Cat (rep_range 4 6 (Chr upper_or_digit)) WordB))))).

(** The pattern "\b\d{6,8}\b". *)
Definition re_license_digits : regex :=
  Cat WordB (Cat (rep_range 6 8 (Chr is_decimal)) WordB).

(** The sub-pattern "\d+(?:[.,]\d+)?". *)
Definition re_number : regex :=
  Cat (plus is_decimal) (opt (Cat (Chr dot_or_comma) (plus is_decimal))).

(** The pattern "(\d+(?:[.,]\d+)?)\s*sur\s*5". *)
Definition re_rating : regex :=
  Cat (Grp 1 re_number)
    (Cat (Star is_space) (Cat (seq_of lit (utf8 "sur"))
      (Cat (Star is_space) (lit 53)))).

(** The sub-pattern "\d[\d\s ]*". *)
Definition digit_or_space (c : char) : bool :=
  is_decimal c || is_space c || char_eqb c 32.

Definition re_spaced_number : regex := Cat (Chr is_decimal) (Star digit_or_space).

(** The reviews pattern under [re.IGNORECASE]: group 1 is "\d[\d\s ]*" and
    "\s+commentaire" follows it. *)
Definition re_reviews : regex :=
  Cat (Grp 1 re_spaced_number)
    (Cat (plus is_space) (seq_of lit_i (utf8 "commentaire"))).

(** The class "[oô]" under [re.IGNORECASE]. *)
Definition o_or_o_circumflex (x : char) : bool :=
  in_chars [111; 244]%N (to_lower x).

(** The pattern "H[oô]te depuis\s+(\d{4})" under [re.IGNORECASE]. *)
Definition re_tenure : regex :=
  Cat (lit_i 72)
    (Cat (Chr o_or_o_circumflex)
      (Cat (seq_of lit_i (utf8 "te depuis"))
        (Cat (plus is_space) (Grp 1 (rep 4 (Chr is_decimal)))))).

(** ** Pattern extraction engine *)

(** [extract_license_from_text] *)
Definition extract_license_from_text (text : str) : outcome str :=
  match re_search re_license_code text with
  | Some m => deref (group m 0)
  | None =>
      match re_search re_license_digits text with
      | Some m => deref (group m 0)
      | None => Ret []
      end
  end.

(** What [parse_host_stats] returns: a dictionary with these three keys. *)
Record HostStats := {
  stats_host_rating : str;
  stats_host_reviews_count : str;
  stats_host_years : str;
}.

(** A [str] argument that may be [None]. *)
Definition str_arg (o : option str) : outcome str :=
  match o with
  | Some s => Ret s
  | None => Raise TypeError
  end.

(** [int(s)] on a string of decimal digits; anything else is reported as a
    [ValueError] (the signs, blanks and underscores [int] also accepts cannot
    occur in what the source passes). *)
Definition py_int (s : str) : outcome Z :=
  if negb (is_empty s) && forallb is_decimal s
  then Ret (fold_left (fun acc c => acc * 10 + decimal_value c)%Z s 0%Z)
  else Raise ValueError.

(** [parse_host_stats]; [utcnow_year] is [dt.datetime.utcnow().year]. *)
Definition parse_host_stats (text : str) (utcnow_year : Z) : outcome HostStats :=
  (rating <-
     match re_search re_rating text with
     | Some m => g <- deref (group m 1) ;; Ret (str_replace 44 46 g)
     | None => Ret []
     end ;;
   reviews <-
     match re_search re_reviews text with
     | Some m => g <- str_arg (group m 1) ;; Ret (List.filter is_decimal g)
     | None => Ret []
     end ;;
   years <-
     match re_search re_tenure text with
     | Some m =>
         otry (g <- str_arg (group m 1) ;;
               start_year <- py_int g ;;
               let current_year := utcnow_year in
               let years_val := Z.max 0 (current_year - start_year) in
               Ret (py_str years_val))
              (Ret [])
     | None => Ret []
     end ;;
   Ret {| stats_host_rating := rating;
          stats_host_reviews_count := reviews;
          stats_host_years := years |})%outcome.


(** ** What a pattern denotes

    [matches r st st'] says that [r] can consume the characters between the
    cursors [st] and [st'], whatever the order in which a matcher tries the
    alternatives.  It is the yardstick for the backtracking matcher. *)

Inductive matches : regex -> mstate -> mstate -> Prop :=
| M_Eps st : matches Eps st st
| M_Chr p prev c rest pos caps :
    p c = true ->
    matches (Chr p) (MState prev (c :: rest) pos caps)
                    (MState (Some c) rest (S pos) caps)
| M_Cat r1 r2 st st1 st2 :
    matches r1 st st1 -> matches r2 st1 st2 -> matches (Cat r1 r2) st st2
| M_AltL r1 r2 st st' : matches r1 st st' -> matches (Alt r1 r2) st st'
| M_AltR r1 r2 st st' : matches r2 st st' -> matches (Alt r1 r2) st st'
| M_Star0 p st : matches (Star p) st st
| M_StarS p prev c rest pos caps st' :
    p c = true ->
    matches (Star p) (MState (Some c) rest (S pos) caps) st' ->
    matches (Star p) (MState prev (c :: rest) pos caps) st'
| M_Grp n r st st1 :
    matches r st st1 ->
    matches (Grp n r) st
      (MState (m_prev st1) (m_rest st1) (m_pos st1)
              ((n, (m_pos st, m_pos st1)) :: m_caps st1))
| M_WordB st : at_boundary st = true -> matches WordB st st.

(** The cursor at index [i] of [text], before any group is closed. *)
Definition prev_at (text : str) (i : nat) : option char :=
  match i with
  | 0 => None
  | S j => text !! j
  end.

Definition cur (text : str) (i : nat) (c : captures) : mstate :=
  MState (prev_at text i) (drop i text) i c.

Definition state_at (text : str) (i : nat) : mstate := cur text i [].

Definition cursor_of (text : str) (st : mstate) : Prop :=
  m_pos st <= length text
  /\ m_rest st = drop (m_pos st) text
  /\ m_prev st = prev_at text (m_pos st).

(** The pattern occurs in [text] from index [i], ending in state [m]. *)
Definition occurs_at (r : regex) (text : str) (i : nat) (m : mstate) : Prop :=
  i <= length text /\ matches r (state_at text i) m.

(** ... and nowhere to the left of [i]. *)
Definition first_occurrence (r : regex) (text : str) (i : nat) (m : mstate) : Prop :=
  occurs_at r text i m /\ forall j m', j < i -> ~ occurs_at r text j m'.

Definition absent (r : regex) (text : str) : Prop :=
  forall j m', ~ occurs_at r text j m'.

(** ** The patterns in words

    The same five patterns, written as conditions on the indices of the
    subject string, without reference to the pattern syntax. *)

(** Every index from [i] up to [j] (excluded) holds a character of class [p]. *)
Definition all_in (p : char -> bool) (text : str) (i j : nat) : Prop :=
  forall k, i <= k < j -> exists ch, text !! k = Some ch /\ p ch = true.

(** The characters of [s] stand in [text] from index [i], each compared
    with [q]. *)
Definition spelled (q : char -> char -> bool) (s text : str) (i : nat) : Prop :=
  forall k pc, s !! k = Some pc ->
    exists ch, text !! (i + k) = Some ch /\ q pc ch = true.

(** A word boundary sits at index [i]. *)
Definition boundary_at (text : str) (i : nat) : Prop :=
  xorb (is_word_opt (prev_at text i)) (is_word_opt (text !! i)) = true.

(** Three upper-case letters, a hyphen, three upper-case letters, a hyphen
    and four to six upper-case letters or digits, between word boundaries. *)
Definition license_code_at (text : str) (i j : nat) : Prop :=
  boundary_at text i
  /\ all_in upper text i (i + 3)
  /\ text !! (i + 3) = Some 45%N
  /\ all_in upper text (i + 4) (i + 7)
  /\ text !! (i + 7) = Some 45%N
  /\ i + 12 <= j <= i + 14
  /\ all_in upper_or_digit text (i + 8) j
  /\ boundary_at text j.

(** Six to eight digits between word boundaries. *)
Definition license_digits_at (text : str) (i j : nat) : Prop :=
  boundary_at text i
  /\ i + 6 <= j <= i + 8
  /\ all_in is_decimal text i j
  /\ boundary_at text j.

(** Digits, optionally followed by a point or a comma and more digits. *)
Definition number_at (text : str) (i j : nat) : Prop :=
  exists a, i < a /\ all_in is_decimal text i a
    /\ (j = a
        \/ (exists sep, text !! a = Some sep /\ dot_or_comma sep = true)
           /\ a + 1 < j /\ all_in is_decimal text (a + 1) j).

(** A number from [i] to [g], then optional blanks, "sur", optional blanks
    and "5", ending at [e]. *)
Definition rating_at (text : str) (i g e : nat) : Prop :=
  number_at text i g
  /\ exists a b, g <= a /\ all_in is_space text g a
       /\ spelled char_eqb (utf8 "sur") text a
       /\ a + 3 <= b /\ all_in is_space text (a + 3) b
       /\ text !! b = Some 53%N /\ e = b + 1.

(** A digit followed by digits and blanks up to [g], then at least one blank
    and "commentaire" in any case, ending at [e]. *)
Definition reviews_at (text : str) (i g e : nat) : Prop :=
  all_in is_decimal text i (i + 1)
  /\ i + 1 <= g /\ all_in digit_or_space text (i + 1) g
  /\ exists a, g < a /\ all_in is_space text g a
       /\ spelled ci_match (utf8 "commentaire") text a
       /\ e = a + 11.

(** "Hôte depuis" or "Hote depuis" in any case, at least one blank, then four
    digits from [g] to [e]. *)
Definition tenure_at (text : str) (i g e : nat) : Prop :=
  spelled ci_match [72%N] text i
  /\ all_in o_or_o_circumflex text (i + 1) (i + 2)
  /\ spelled ci_match (utf8 "te depuis") text (i + 2)
  /\ i + 11 < g /\ all_in is_space text (i + 11) g
  /\ all_in is_decimal text g (g + 4) /\ e = g + 4.

(** What the three statistics are, in words: the value of the groups of the
    leftmost occurrence of the field's own pattern, or the empty string. *)

(** [int] of a string of digits. *)
Definition digits_value (s : str) : Z :=
  fold_left (fun acc c => acc * 10 + decimal_value c)%Z s 0%Z.

Definition rating_field (text : str) (v : str) : Prop :=
  (exists i g e, rating_at text i g e
     /\ (forall i' g' e', rating_at text i' g' e' -> i <= i')
     /\ v = str_replace 44 46 (substr text i g))
  \/ ((forall i g e, ~ rating_at text i g e) /\ v = []).

Definition reviews_field (text : str) (v : str) : Prop :=
  (exists i g e, reviews_at text i g e
     /\ (forall i' g' e', reviews_at text i' g' e' -> i <= i')
     /\ v = List.filter is_decimal (substr text i g))
  \/ ((forall i g e, ~ reviews_at text i g e) /\ v = []).

Definition years_field (text : str) (year_now : Z) (v : str) : Prop :=
  (exists i g e, tenure_at text i g e
     /\ (forall i' g' e', tenure_at text i' g' e' -> i <= i')
     /\ v = py_str (Z.max 0 (year_now - digits_value (substr text g e))))
  \/ ((forall i g e, ~ tenure_at text i g e) /\ v = []).

End Model.

(** ** The clock *)

Record datetime := {
  dt_year : Z;
  dt_month : Z;
  dt_day : Z;
  dt_hour : Z;
  dt_minute : Z;
  dt_second : Z;
  dt_microsecond : Z;
}.

Definition zero_pad (width : nat) (z : Z) : str :=
  let s := py_str z in
  repeat 48%N (width - length s) ++ s.

(** [d.isoformat()] for a naive [datetime]: YYYY-MM-DDTHH:MM:SS, followed by
    the microseconds when they are not zero. *)
Definition isoformat (d : datetime) : str :=
  zero_pad 4 (dt_year d) ++ utf8 "-" ++ zero_pad 2 (dt_month d) ++ utf8 "-"
  ++ zero_pad 2 (dt_day d) ++ utf8 "T" ++ zero_pad 2 (dt_hour d) ++ utf8 ":"
  ++ zero_pad 2 (dt_minute d) ++ utf8 ":" ++ zero_pad 2 (dt_second d)
  ++ (if (dt_microsecond d =? 0)%Z then []
      else utf8 "." ++ zero_pad 6 (dt_microsecond d)).

(** ** The page renderer

    Playwright is outside the repository.  A page is known to the scraper
    only through the answers to its calls, so it is modelled by those
    answers: every call either returns a value or raises. *)

(** The selectors the source uses. *)
Inductive selector :=
| Tag (names : string)              (* h1, body, "h2, h3, span" *)
| HrefContains (part : string)      (* a[href*=...] *)
| ButtonHasText (label : string)    (* button:has-text(...) *)
| SectionHasText (label : string).  (* section:has-text(...) *)

Inductive locator :=
| Css (sel : selector)                  (* page.locator(sel) *)
| First (l : locator)                   (* l.first *)
| Nth (l : locator) (i : nat)           (* l.nth(i) *)
| Within (l : locator) (sel : selector). (* l.locator(sel) *)

(** A listing page, once navigation has settled: what each query answers. *)
Record Page := {
  pg_goto : str -> outcome unit;
  pg_count : locator -> outcome nat;
  pg_inner_text : locator -> outcome str;
  pg_get_attribute : locator -> string -> outcome (option str);
  pg_click : locator -> outcome unit;
  pg_title : outcome str;
  pg_wait_for_timeout : nat -> outcome unit;
  pg_close : outcome unit;
}.

(** A search page changes as it is scrolled: its answers are indexed by the
    number of scrolls made so far. *)
Record SearchPage := {
  sp_goto : str -> outcome unit;
  sp_anchor_hrefs : nat -> outcome (list str);  (* href of each matching anchor *)
  sp_wheel : nat -> outcome unit;
  sp_wait_for_timeout : nat -> outcome unit;
  sp_scroll_height : nat -> outcome N;          (* read after the scroll *)
  sp_close : outcome unit;
}.

(** The calls made on the renderer, in the order they are made. *)
Inductive event :=
| EvNewPage
| EvClose
| EvGoto (url : str)
| EvCount (l : locator)
| EvInnerText (l : locator)
| EvGetAttribute (l : locator) (name : string)
| EvClick (l : locator)
| EvTitle
| EvWaitForTimeout (ms : nat)
| EvEvaluateAll (l : locator)
| EvWheel (dx dy : Z)
| EvScrollHeight.

(** One row of the output. *)
Record ListingRecord := {
  listing_url : str;
  listing_title : str;
  license_code : str;
  host_url : str;
  host_name : str;
  host_rating : str;
  host_years : str;
  host_reviews_count : str;
  scraped_at : str;
}.

(** What a run has done so far: the calls made and the shared [results]
    list. *)
Record world := {
  w_events : list event;
  w_results : list ListingRecord;
}.

(** Computations that make calls, may raise, and keep what they did when
    they raise. *)
Definition M (A : Type) : Type := world -> outcome A * world.

Definition mret {A} (a : A) : M A := fun w => (Ret a, w).

Definition mbind_M {A B} (m : M A) (f : A -> M B) : M B :=
  fun w =>
    match m w with
    | (Ret a, w') => f a w'
    | (Raise e, w') => (Raise e, w')
    end.

Declare Scope prog_scope.
Delimit Scope prog_scope with prog.
Notation "x <- m ;; k" := (mbind_M m (fun x => k))
  (at level 100, m at next level, right associativity) : prog_scope.
Notation "m ;; k" := (mbind_M m (fun _ => k))
  (at level 100, right associativity) : prog_scope.

(** A call on the renderer: it is recorded, then answers. *)
Definition call {A} (ev : event) (answer : outcome A) : M A :=
  fun w => (answer, {| w_events := w_events w ++ [ev]; w_results := w_results w |}).

Definition lift {A} (o : outcome A) : M A := fun w => (o, w).

(** [try: m except <those for which handles holds>: h] *)
Definition catch {A} (m : M A) (handles : exn -> bool) (h : M A) : M A :=
  fun w =>
    match m w with
    | (Ret a, w') => (Ret a, w')
    | (Raise e, w') => if handles e then h w' else (Raise e, w')
    end.

(** [try: m finally: f] *)
Definition finally {A} (m : M A) (f : M unit) : M A :=
  fun w =>
    match m w with
    | (Ret a, w') =>
        match f w' with
        | (Ret _, w'') => (Ret a, w'')
        | (Raise e, w'') => (Raise e, w'')
        end
    | (Raise e, w') =>
        match f w' with
        | (Ret _, w'') => (Raise e, w'')
        | (Raise e', w'') => (Raise e', w'')
        end
    end.

Definition is_timeout (e : exn) : bool :=
  match e with
  | PlaywrightTimeoutError => true
  | _ => false
  end.

(** [except Exception] *)
Definition any_exception (e : exn) : bool := true.

Fixpoint for_each {A} (l : list A) (body : A -> M unit) : M unit :=
  match l with
  | [] => mret tt
  | x :: l' => (body x ;; for_each l' body)%prog
  end.

(** [results.append(row)] *)
Definition append_result (row : ListingRecord) : M unit :=
  fun w => (Ret tt, {| w_events := w_events w; w_results := w_results w ++ [row] |}).

(** The defaults of the two settings read from the environment. *)
Definition MAX_CONCURRENT_PAGES_default : Z := 8.
Definition MAX_LISTINGS_PER_SEARCH_default : Z := 200.

(** ** The scraper *)

Section Scraper.
Context {U : UnicodeDB}.

(** [dt.datetime.utcnow()]: the clock, read after a given number of calls. *)
Variable clock : nat -> datetime.

Definition utcnow : M datetime :=
  fun w => (Ret (clock (length (w_events w))), w).

(** *** Calls on a listing page *)

Definition page_goto (pg : Page) (url : str) : M unit :=
  call (EvGoto url) (pg_goto pg url).
Definition loc_count (pg : Page) (l : locator) : M nat :=
  call (EvCount l) (pg_count pg l).
Definition loc_inner_text (pg : Page) (l : locator) : M str :=
  call (EvInnerText l) (pg_inner_text pg l).
Definition loc_get_attribute (pg : Page) (l : locator) (name : string)
    : M (option str) :=
  call (EvGetAttribute l name) (pg_get_attribute pg l name).
Definition loc_click (pg : Page) (l : locator) : M unit :=
  call (EvClick l) (pg_click pg l).
Definition page_title (pg : Page) : M str := call EvTitle (pg_title pg).
Definition page_wait_for_timeout (pg : Page) (ms : nat) : M unit :=
  call (EvWaitForTimeout ms) (pg_wait_for_timeout pg ms).
Definition page_close (pg : Page) : M unit := call EvClose (pg_close pg).

(** [click_more_buttons] *)
Definition more_labels : list string :=
  ["Lire la suite"; "Afficher plus"; "En savoir plus"]%string.

Definition click_more_buttons (pg : Page) : M unit :=
  (for_each more_labels (fun label =>
     let buttons := Css (ButtonHasText label) in
     count <- loc_count pg buttons ;;
     for_each (seq 0 count) (fun i =>
       catch (loc_click pg (Nth buttons i)) any_exception (mret tt))) ;;
   page_wait_for_timeout pg 500)%prog.

(** [safe_inner_text]; [root] is the page ([None]) or a locator. *)
Definition locate (root : option locator) (sel : selector) : locator :=
  match root with
  | None => Css sel
  | Some l => Within l sel
  end.

Definition safe_inner_text (pg : Page) (root : option locator) (sel : selector)
    : M str :=
  catch
    (let loc := locate root sel in
     n <- loc_count pg loc ;;
     if Nat.eqb n 0 then mret []
     else (t <- loc_inner_text pg (First loc) ;; mret (strip t)))%prog
    any_exception
    (mret []).

(** Assignments to the keys of [data]. *)
Definition set_listing_title (v : str) (d : ListingRecord) : ListingRecord :=
  {| listing_url := listing_url d; listing_title := v;
     license_code := license_code d; host_url := host_url d;
     host_name := host_name d; host_rating := host_rating d;
     host_years := host_years d; host_reviews_count := host_reviews_count d;
     scraped_at := scraped_at d |}.
Definition set_license_code (v : str) (d : ListingRecord) : ListingRecord :=
  {| listing_url := listing_url d; listing_title := listing_title d;
     license_code := v; host_url := host_url d;
     host_name := host_name d; host_rating := host_rating d;
     host_years := host_years d; host_reviews_count := host_reviews_count d;
     scraped_at := scraped_at d |}.
Definition set_host_url (v : str) (d : ListingRecord) : ListingRecord :=
  {| listing_url := listing_url d; listing_title := listing_title d;
     license_code := license_code d; host_url := v;
     host_name := host_name d; host_rating := host_rating d;
     host_years := host_years d; host_reviews_count := host_reviews_count d;
     scraped_at := scraped_at d |}.
Definition set_host_name (v : str) (d : ListingRecord) : ListingRecord :=
  {| listing_url := listing_url d; listing_title := listing_title d;
     license_code := license_code d; host_url := host_url d;
     host_name := v; host_rating := host_rating d;
     host_years := host_years d; host_reviews_count := host_reviews_count d;
     scraped_at := scraped_at d |}.
Definition set_host_rating (v : str) (d : ListingRecord) : ListingRecord :=
  {| listing_url := listing_url d; listing_title := listing_title d;
     license_code := license_code d; host_url := host_url d;
     host_name := host_name d; host_rating := v;
     host_years := host_years d; host_reviews_count := host_reviews_count d;
     scraped_at := scraped_at d |}.
Definition set_host_years (v : str) (d : ListingRecord) : ListingRecord :=
  {| listing_url := listing_url d; listing_title := listing_title d;
     license_code := license_code d; host_url := host_url d;
     host_name := host_name d; host_rating := host_rating d;
     host_years := v; host_reviews_count := host_reviews_count d;
     scraped_at := scraped_at d |}.
Definition set_host_reviews_count (v : str) (d : ListingRecord) : ListingRecord :=
  {| listing_url := listing_url d; listing_title := listing_title d;
     license_code := license_code d; host_url := host_url d;
     host_name := host_name d; host_rating := host_rating d;
     host_years := host_years d; host_reviews_count := v;
     scraped_at := scraped_at d |}.

(** The loop over [stats.items()], in the order the keys were inserted:
    a value is copied when it is not empty and the field still is. *)
Definition merge_stats (stats : HostStats) (d : ListingRecord) : ListingRecord :=
  let d :=
    if negb (is_empty (stats_host_rating stats)) && is_empty (host_rating d)
    then set_host_rating (stats_host_rating stats) d else d in
  let d :=
    if negb (is_empty (stats_host_reviews_count stats))
       && is_empty (host_reviews_count d)
    then set_host_reviews_count (stats_host_reviews_count stats) d else d in
  if negb (is_empty (stats_host_years stats)) && is_empty (host_years d)
  then set_host_years (stats_host_years stats) d else d.

Definition users_link : selector := HrefContains "/users/".
Definition host_section_primary : locator := Css (SectionHasText "Hôte").
Definition host_section_secondary : locator := Css (SectionHasText "Votre hôte").

(** The part of [extract_listing] run when a host section was found: its
    text, and [data] with the name and the profile link found inside it. *)
Definition read_host_section (pg : Page) (host_section : locator)
    (data : ListingRecord) : M (str * ListingRecord) :=
  (host_text <- catch (loc_inner_text pg (First host_section))
                      any_exception (mret []) ;;
   name_candidate <- safe_inner_text pg (Some (First host_section))
                                     (Tag "h2, h3, span") ;;
   let data := if negb (is_empty name_candidate)
               then set_host_name name_candidate data else data in
   data <- catch
     (let host_link := Within (First host_section) users_link in
      n <- loc_count pg host_link ;;
      if Nat.ltb 0 n
      then (href <- loc_get_attribute pg (First host_link) "href" ;;
            match href with
            | Some h => if negb (is_empty h)
                        then mret (set_host_url (split_head 63 h) data)
                        else mret data
            | None => mret data
            end)
      else mret data)
     any_exception
     (mret data) ;;
   mret (host_text, data))%prog.

(** The whole-page fallback for the host's name and profile link. *)
Definition host_fallback (pg : Page) (data : ListingRecord) : M ListingRecord :=
  if is_empty (host_name data) || is_empty (host_url data)
  then catch
    (let link := First (Css users_link) in
     href <- loc_get_attribute pg link "href" ;;
     text <- loc_inner_text pg link ;;
     let data := match href with
                 | Some h => if negb (is_empty h)
                             then set_host_url (split_head 63 h) data else data
                 | None => data
                 end in
     let data := if negb (is_empty text)
                 then set_host_name (strip text) data else data in
     mret data)%prog
    any_exception
    (mret data)
  else mret data.

(** Lines 182 to 210: look for the host section under its two labels and
    read it when it is there. *)
Definition find_host_section (pg : Page) (data : ListingRecord)
    : M (str * ListingRecord) :=
  (n <- loc_count pg host_section_primary ;;
   let host_section := if Nat.eqb n 0 then host_section_secondary
                       else host_section_primary in
   n <- loc_count pg host_section ;;
   if Nat.ltb 0 n then read_host_section pg host_section data
   else mret ([], data))%prog.

(** The dictionary [data] as [extract_listing] first builds it. *)
Definition initial_data (url : str) (now : datetime) : ListingRecord :=
  {| listing_url := url; listing_title := []; license_code := [];
     host_url := []; host_name := []; host_rating := [];
     host_years := []; host_reviews_count := [];
     scraped_at := isoformat now |}.

(** [extract_listing] from [click_more_buttons] on. *)
Definition extract_loaded (pg : Page) (data : ListingRecord) : M ListingRecord :=
  (click_more_buttons pg ;;
   title <- safe_inner_text pg None (Tag "h1") ;;
   title <- (if is_empty title then page_title pg else mret title) ;;
   let data := set_listing_title title data in
   body_text <- catch (loc_inner_text pg (Css (Tag "body")))
                      any_exception (mret []) ;;
   code <- lift (extract_license_from_text body_text) ;;
   let data := set_license_code code data in
   found <- find_host_section pg data ;;
   let host_text := fst found in
   data <- host_fallback pg (snd found) ;;
   today <- utcnow ;;
   stats <- lift (parse_host_stats
                    (if negb (is_empty host_text) then host_text else body_text)
                    (dt_year today)) ;;
   mret (merge_stats stats data))%prog.

(** [extract_listing] *)
Definition extract_listing (pg : Page) (url : str) : M ListingRecord :=
  (now <- utcnow ;;
   let data := initial_data url now in
   loaded <- catch (page_goto pg url ;; mret true) is_timeout (mret false) ;;
   if negb loaded then mret data else extract_loaded pg data)%prog.

(** *** Reading the model

    [yields m Q]: whenever [m] returns, its value satisfies [Q]; and [m]
    leaves [results] alone whether it returns or raises.
    [surely m Q]: [m] returns, with a value satisfying [Q]. *)
Definition yields {A} (m : M A) (Q : A -> Prop) : Prop :=
  forall w,
    w_results (snd (m w)) = w_results w
    /\ match fst (m w) with
       | Ret a => Q a
       | Raise _ => True
       end.

Definition surely {A} (m : M A) (Q : A -> Prop) : Prop :=
  forall w, exists a w',
    m w = (Ret a, w') /\ w_results w' = w_results w /\ Q a.

(** The calls of [extract_listing] that no [try] protects answer. *)
Definition unguarded_calls_answer (pg : Page) : Prop :=
  (forall label, In label more_labels ->
     exists n, pg_count pg (Css (ButtonHasText label)) = Ret n)
  /\ pg_wait_for_timeout pg 500 = Ret tt
  /\ (exists t, pg_title pg = Ret t)
  /\ (exists n, pg_count pg host_section_primary = Ret n)
  /\ (exists n, pg_count pg host_section_secondary = Ret n).

(** The host section [extract_listing] settles on, if any. *)
Definition located_host_section (pg : Page) : option locator :=
  match pg_count pg host_section_primary with
  | Ret 0 =>
      match pg_count pg host_section_secondary with
      | Ret (S _) => Some host_section_secondary
      | _ => None
      end
  | Ret (S _) => Some host_section_primary
  | Raise _ => None
  end.

(** The whole-page text as [extract_listing] captures it. *)
Definition captured_body_text (pg : Page) : str :=
  match pg_inner_text pg (Css (Tag "body")) with
  | Ret t => t
  | Raise _ => []
  end.

(** The host-section text as [extract_listing] captures it. *)
Definition captured_host_text (pg : Page) : str :=
  match located_host_section pg with
  | Some sec =>
      match pg_inner_text pg (First sec) with
      | Ret t => t
      | Raise _ => []
      end
  | None => []
  end.

(** The fields that only the first and the last step of [extract_listing]
    write. *)
Definition same_core (d0 d : ListingRecord) : Prop :=
  listing_url d = listing_url d0 /\ scraped_at d = scraped_at d0
  /\ host_rating d = host_rating d0 /\ host_years d = host_years d0
  /\ host_reviews_count d = host_reviews_count d0.

(** The three statistics of a row, as a [HostStats]. *)
Definition stats_of (d : ListingRecord) : HostStats :=
  {| stats_host_rating := host_rating d;
     stats_host_reviews_count := host_reviews_count d;
     stats_host_years := host_years d |}.

(** *** Discovery *)

(** Keys in insertion order, each once: what both [list(dict.fromkeys(l))]
    and the in-page [Array.from(new Set(l))] compute. *)
Definition keep_first_seen (l : list str) : list str :=
  foldl (fun acc k => if decide (k ∈ acc) then acc else acc ++ [k]) [] l.

Definition dict_fromkeys_list (l : list str) : list str := keep_first_seen l.
Definition js_array_from_set (l : list str) : list str := keep_first_seen l.

(** [l[:n]], for any integer [n]. *)
Definition py_slice_until (n : Z) (l : list str) : list str :=
  if (0 <=? n)%Z then take (Z.to_nat n) l
  else take (length l - Z.to_nat (- n)) l.

(** [int(os.getenv("MAX_LISTINGS_PER_SEARCH", "200"))] *)
Variable MAX_LISTINGS_PER_SEARCH : Z.

(** [h.split("?")[0]] *)
Definition normalize (h : str) : str := split_head 63 h.

Definition rooms_marker : str := utf8 "/rooms/".

(** The [for h in hrefs] loop. *)
Definition harvest (seen : gset str) (hrefs : list str) : gset str :=
  foldl (fun seen h =>
           if contains rooms_marker h then seen ∪ {[ normalize h ]} else seen)
        seen hrefs.

Inductive loop_ctl :=
| Break (seen : gset str)
| Continue (seen : gset str) (last_height : Z).

(** One turn of the [while True] loop, after [k] scrolls. *)
Definition scroll_pass (sp : SearchPage) (k : nat) (seen : gset str)
    (last_height : Z) : M loop_ctl :=
  (anchors <- call (EvEvaluateAll (Css (HrefContains "/rooms/")))
                   (sp_anchor_hrefs sp k) ;;
   let hrefs := js_array_from_set anchors in
   let seen := harvest seen hrefs in
   if (MAX_LISTINGS_PER_SEARCH <=? Z.of_nat (size seen))%Z then mret (Break seen)
   else
     (call (EvWheel 0 1500) (sp_wheel sp k) ;;
      call (EvWaitForTimeout 1000) (sp_wait_for_timeout sp k) ;;
      new_height <- call EvScrollHeight (sp_scroll_height sp k) ;;
      if (Z.of_N new_height =? last_height)%Z then mret (Break seen)
      else mret (Continue seen (Z.of_N new_height))))%prog.

(** The loop; [None] when [fuel] turns were not enough to leave it. *)
Fixpoint scroll_loop (fuel : nat) (sp : SearchPage) (k : nat) (seen : gset str)
    (last_height : Z) : M (option (gset str)) :=
  match fuel with
  | 0 => mret None
  | S fuel' =>
      (ctl <- scroll_pass sp k seen last_height ;;
       match ctl with
       | Break seen' => mret (Some seen')
       | Continue seen' last' => scroll_loop fuel' sp (S k) seen' last'
       end)%prog
  end.

(** [collect_listing_urls] *)
Definition collect_listing_urls (fuel : nat) (sp : SearchPage) (search_url : str)
    : M (option (list str)) :=
  (call (EvGoto search_url) (sp_goto sp search_url) ;;
   found <- scroll_loop fuel sp 0 ∅ (-1)%Z ;;
   mret (option_map (fun seen => py_slice_until MAX_LISTINGS_PER_SEARCH (elements seen))
                    found))%prog.

(** *** The orchestrator *)

(** [worker], as one coroutine runs it from start to end; the semaphore it
    runs under is the subject of the scheduling model below. *)
Definition worker (new_page : outcome Page) (listing_url : str) : M unit :=
  (page <- call EvNewPage new_page ;;
   finally (row <- extract_listing page listing_url ;; append_result row)
           (page_close page))%prog.

(** *** Discovery, in words *)

(** [u] is the normalized href of a listing anchor the page showed at some
    point. *)
Definition discovered (sp : SearchPage) (u : str) : Prop :=
  exists k anchors h,
    sp_anchor_hrefs sp k = Ret anchors /\ h ∈ anchors
    /\ contains rooms_marker h = true /\ u = normalize h.

(** [result] lists its elements in the order of their first occurrence in
    [l]. *)
Definition first_seen_order (l result : list str) : Prop :=
  forall i j x y,
    result !! i = Some x -> result !! j = Some y -> i < j ->
    exists i', l !! i' = Some x /\ forall j', l !! j' = Some y -> i' < j'.

(** A page all of whose calls answer: after [k] scrolls it shows the anchors
    [anchors k], and its scroll height is [height k] ([height 0] before the
    first scroll). *)
Definition page_answers (sp : SearchPage) (search_url : str)
    (anchors : nat -> list str) (height : nat -> N) : Prop :=
  sp_goto sp search_url = Ret tt
  /\ forall k,
       sp_anchor_hrefs sp k = Ret (anchors k)
       /\ sp_wheel sp k = Ret tt
       /\ sp_wait_for_timeout sp k = Ret tt
       /\ sp_scroll_height sp k = Ret (height (S k)).

(** The height changes with each of the first [n] scrolls and with none
    after them. *)
Definition stops_changing_after (height : nat -> N) (n : nat) : Prop :=
  (forall k, k < n -> height (S k) <> height k)
  /\ (forall k, n <= k -> height (S k) = height k).

(** What has been found once the page shown after [k] scrolls has been
    harvested. *)
Fixpoint seen_after (anchors : nat -> list str) (k : nat) : gset str :=
  harvest (match k with
           | 0 => ∅
           | S k' => seen_after anchors k'
           end)
          (js_array_from_set (anchors k)).

Definition is_height_check (e : event) : bool :=
  match e with
  | EvScrollHeight => true
  | _ => false
  end.

Definition is_scroll (e : event) : bool :=
  match e with
  | EvWheel _ _ => true
  | _ => false
  end.

Definition height_checks (l : list event) : nat :=
  length (List.filter is_height_check l).

Definition scrolls (l : list event) : nat :=
  length (List.filter is_scroll l).

(** What the fold of [keep_first_seen] maintains: [acc] holds the keys of
    the prefix [pre] read so far, once each, in first-seen order. *)
Definition first_seen_inv (pre acc : list str) : Prop :=
  NoDup acc /\ (forall x, x ∈ acc <-> x ∈ pre) /\ first_seen_order pre acc.

(** The world after further calls. *)
Definition after (w : world) (evs : list event) : world :=
  {| w_events := w_events w ++ evs; w_results := w_results w |}.

(** The call that harvests the listing anchors. *)
Definition ev_harvest : event := EvEvaluateAll (Css (HrefContains "/rooms/")).

End Scraper.

(** ** Scheduling under the semaphore

    The workers started by [asyncio.gather] are interleaved at their
    [await]s.  Each is at one of five points of [worker]; a step moves one
    worker to its next point.  [asyncio.Semaphore] lets a worker through
    only while its counter is positive. *)

Inductive task :=
| Waiting      (* at [async with sem], no slot yet *)
| Acquired     (* slot held, [context.new_page()] not yet returned *)
| Open         (* page open: [extract_listing], [results.append] *)
| Closed       (* [page.close()] done in [finally], slot still held *)
| Done.        (* left the [async with] block: slot given back *)

Record pool := {
  sem_value : nat;
  tasks : list task;
}.

Definition holds_slot (t : task) : bool :=
  match t with
  | Acquired | Open | Closed => true
  | _ => false
  end.

Definition has_page (t : task) : bool :=
  match t with
  | Open => true
  | _ => false
  end.

Definition count_if (f : task -> bool) (l : list task) : nat :=
  length (List.filter f l).

Definition open_sessions (st : pool) : nat := count_if has_page (tasks st).
Definition slots_held (st : pool) : nat := count_if holds_slot (tasks st).

Inductive step : pool -> pool -> Prop :=
| step_acquire st i :
    tasks st !! i = Some Waiting -> 0 < sem_value st ->
    step st {| sem_value := sem_value st - 1;
               tasks := <[i := Acquired]> (tasks st) |}
| step_new_page st i :
    tasks st !! i = Some Acquired ->
    step st {| sem_value := sem_value st; tasks := <[i := Open]> (tasks st) |}
| step_new_page_raises st i :
    tasks st !! i = Some Acquired ->
    step st {| sem_value := sem_value st + 1; tasks := <[i := Done]> (tasks st) |}
| step_close st i :
    tasks st !! i = Some Open ->
    step st {| sem_value := sem_value st; tasks := <[i := Closed]> (tasks st) |}
| step_release st i :
    tasks st !! i = Some Closed ->
    step st {| sem_value := sem_value st + 1; tasks := <[i := Done]> (tasks st) |}.

Inductive reachable_from (st0 : pool) : pool -> Prop :=
| reach_start : reachable_from st0 st0
| reach_step st st' : reachable_from st0 st -> step st st' -> reachable_from st0 st'.

(** [sem = asyncio.Semaphore(cap)] and one worker per listing URL. *)
Definition start_pool (cap workers : nat) : pool :=
  {| sem_value := cap; tasks := repeat Waiting workers |}.

(** ** Scripted pages

    Stubs of the renderer for worked examples: a page is given by the
    elements it has, their texts and their href attributes.  Reading an
    element that is not there waits and then times out, as Playwright does. *)

Definition selector_eqb (a b : selector) : bool :=
  match a, b with
  | Tag x, Tag y => String.eqb x y
  | HrefContains x, HrefContains y => String.eqb x y
  | ButtonHasText x, ButtonHasText y => String.eqb x y
  | SectionHasText x, SectionHasText y => String.eqb x y
  | _, _ => false
  end.

Fixpoint locator_eqb (a b : locator) : bool :=
  match a, b with
  | Css x, Css y => selector_eqb x y
  | First x, First y => locator_eqb x y
  | Nth x i, Nth y j => locator_eqb x y && Nat.eqb i j
  | Within x s, Within y t => locator_eqb x y && selector_eqb s t
  | _, _ => false
  end.

Fixpoint assoc {A} (l : locator) (tbl : list (locator * A)) : option A :=
  match tbl with
  | [] => None
  | (k, v) :: tbl' => if locator_eqb l k then Some v else assoc l tbl'
  end.

Definition scripted_page (goto : outcome unit) (counts : list (locator * nat))
    (texts hrefs : list (locator * str)) (title : str) : Page :=
  {| pg_goto := fun _ => goto;
     pg_count := fun l =>
       match assoc l counts with
       | Some n => Ret n
       | None => Ret 0
       end;
     pg_inner_text := fun l =>
       match assoc l texts with
       | Some t => Ret t
       | None => Raise PlaywrightTimeoutError
       end;
     pg_get_attribute := fun l _ =>
       match assoc l hrefs with
       | Some h => Ret (Some h)
       | None => Raise PlaywrightTimeoutError
       end;
     pg_click := fun _ => Ret tt;
     pg_title := Ret title;
     pg_wait_for_timeout := fun _ => Ret tt;
     pg_close := Ret tt |}.

Definition host_first : locator := First host_section_primary.
Definition host_heading : locator := Within host_first (Tag "h2, h3, span").
Definition host_link : locator := Within host_first users_link.
Definition page_link : locator := First (Css users_link).

(** A listing whose host section names the host but holds no profile link,
    while the profile link of a guest who left a comment stands elsewhere on
    the page. *)
Definition page_name_in_section : Page :=
  scripted_page (Ret tt)
    [(Css (Tag "h1"), 1); (host_section_primary, 1); (host_heading, 1);
     (Css users_link, 1)]
    [(First (Css (Tag "h1")), utf8 "Loft lumineux");
     (Css (Tag "body"),
      utf8 "Loft lumineux Jean 4,2 sur 5 Hôte : Marie 4,95 sur 5 permis 1333701");
     (host_first, utf8 "Hôte : Marie 4,95 sur 5");
     (First host_heading, utf8 "Marie");
     (page_link, utf8 "Jean")]
    [(page_link, utf8 "/users/show/99?from=review")]
    (utf8 "Loft lumineux - Airbnb").

(** A listing whose host section holds the host's profile link but an empty
    heading, with the same guest's link elsewhere. *)
Definition page_link_in_section : Page :=
  scripted_page (Ret tt)
    [(Css (Tag "h1"), 1); (host_section_primary, 1); (host_heading, 1);
     (host_link, 1); (Css users_link, 2)]
    [(First (Css (Tag "h1")), utf8 "Loft lumineux");
     (Css (Tag "body"), utf8 "Loft lumineux Jean Hôte");
     (host_first, utf8 "Hôte");
     (First host_heading, []);
     (page_link, utf8 "Jean")]
    [(First host_link, utf8 "/users/show/1?s=1");
     (page_link, utf8 "/users/show/99?from=review")]
    (utf8 "Loft lumineux - Airbnb").

(** A listing whose navigation does not settle within the 60 seconds. *)
Definition page_timing_out : Page :=
  scripted_page (Raise PlaywrightTimeoutError) [] [] [] [].

(** A listing whose navigation fails at once (the connection is refused):
    Playwright raises an error that is not a timeout. *)
Definition page_unreachable : Page :=
  scripted_page (Raise PlaywrightError) [] [] [] [].

Definition sample_clock (n : nat) : datetime :=
  {| dt_year := 2025; dt_month := 11; dt_day := 13; dt_hour := 9;
     dt_minute := 5; dt_second := 7; dt_microsecond := 0 |}.

Definition sample_url : str := utf8 "https://www.airbnb.ca/rooms/123".

Definition fresh_world : world := {| w_events := []; w_results := [] |}.

(** ** Scripted search pages *)

Definition scripted_search (anchors : nat -> list str) (height : nat -> N)
    : SearchPage :=
  {| sp_goto := fun _ => Ret tt;
     sp_anchor_hrefs := fun k => Ret (anchors k);
     sp_wheel := fun _ => Ret tt;
     sp_wait_for_timeout := fun _ => Ret tt;
     sp_scroll_height := fun k => Ret (height (S k));
     sp_close := Ret tt |}.

Definition sample_search_url : str := utf8 "https://www.airbnb.ca/s/Montreal/homes".

Definition sample_listing_base : str := utf8 "https://www.airbnb.ca/rooms/123".

(** Two hundred anchors to one listing, each with a query string of its own
    ("?p=x", "?p=xx", ...), on a static page. *)
Definition listing_anchor (n : nat) : str :=
  sample_listing_base ++ 63%N :: utf8 "p=" ++ repeat 120%N (S n).

Definition one_listing_anchors : list str := listing_anchor <$> seq 0 200.

Definition page_one_listing : SearchPage :=
  scripted_search (fun _ => one_listing_anchors) (fun _ => 1000%N).

(** A static page with two listings: its height never changes. *)
Definition two_listing_anchors : list str :=
  [utf8 "https://www.airbnb.ca/rooms/123?adults=2";
   utf8 "https://www.airbnb.ca/rooms/456"].

Definition page_static : SearchPage :=
  scripted_search (fun _ => two_listing_anchors) (fun _ => 1000%N).

(** A page that grows with the first two scrolls and shows three listing
    anchors from the start. *)
Definition growing_height (k : nat) : N :=
  match k with
  | O => 1000%N
  | S O => 1800%N
  | _ => 2600%N
  end.

Definition three_listing_anchors : list str :=
  [utf8 "https://www.airbnb.ca/rooms/123?adults=2";
   utf8 "https://www.airbnb.ca/rooms/456";
   utf8 "https://www.airbnb.ca/rooms/789?adults=2"].

Definition page_growing : SearchPage :=
  scripted_search (fun _ => three_listing_anchors) growing_height.

(** ** A schedule

    Nine workers under the default semaphore of eight: the first has taken a
    slot and opened its page. *)
Definition default_slots : nat := Z.to_nat MAX_CONCURRENT_PAGES_default.

Definition pool_one_acquired : pool :=
  {| sem_value := 7; tasks := Acquired :: repeat Waiting 8 |}.

Definition pool_one_open : pool :=
  {| sem_value := 7; tasks := Open :: repeat Waiting 8 |}.

(** ** The list of search URLs *)

(** What reading a text file with universal newlines does to the line ends:
    "\r\n" and "\r" become "\n". *)
Fixpoint universal_newlines (s : str) : str :=
  match s with
  | [] => []
  | c :: s' =>
      if char_eqb c 13
      then 10%N :: match s' with
                   | [] => []
                   | d :: s'' => if char_eqb d 10 then universal_newlines s''
                                 else universal_newlines s'
                   end
      else c :: universal_newlines s'
  end.

(** [for line in f]: the lines of the text, each with its "\n"; [cur] is
    the line being read, last character first. *)
Fixpoint file_lines_from (cur : str) (s : str) : list str :=
  match s with
  | [] => if is_empty cur then [] else [rev cur]
  | c :: s' =>
      if char_eqb c 10 then rev (c :: cur) :: file_lines_from [] s'
      else file_lines_from (c :: cur) s'
  end.

Definition file_lines (text : str) : list str :=
  file_lines_from [] (universal_newlines text).

(** [read_search_urls]; the file is absent ([None]), or reading it raises,
    or it holds a text. *)
Definition read_search_urls (file : option (outcome str)) : outcome (list str) :=
  match file with
  | None => Ret []
  | Some content =>
      (text <- content ;;
       Ret (List.filter (fun line => negb (is_empty line))
                        (map strip (file_lines text))))%outcome
  end.

(** No white space at either end. *)
Definition trimmed (s : str) : Prop :=
  (forall c, head s = Some c -> is_space c = false)
  /\ (forall c, last s = Some c -> is_space c = false).

(** ** Outcomes and traces of the page calls *)

(** [outcomes m Q P]: from any world, what [m] returns satisfies [Q] and
    what it raises satisfies [P]. *)
Definition outcomes {A} (m : M A) (Q : A -> Prop) (P : exn -> Prop) : Prop :=
  forall w,
    match fst (m w) with
    | Ret a => Q a
    | Raise e => P e
    end.

(** What [safe_inner_text] gives for a locator: the stripped text of its
    first element when there is one and it can be read. *)
Definition safe_text (pg : Page) (loc : locator) : str :=
  match pg_count pg loc with
  | Ret (S _) =>
      match pg_inner_text pg (First loc) with
      | Ret t => strip t
      | Raise _ => []
      end
  | _ => []
  end.

(** The calls [click_more_buttons] makes before its settle wait, when the
    button counts are [counts]: for each label its count, then one click
    on each button. *)
Definition click_attempts (counts : string -> nat) (labels : list string)
    : list event :=
  flat_map (fun label =>
              EvCount (Css (ButtonHasText label))
              :: map (fun i => EvClick (Nth (Css (ButtonHasText label)) i))
                     (seq 0 (counts label)))
           labels.

(** [e] is raised by one of the calls of [extract_listing] that no [try]
    protects, or by the navigation without being a timeout. *)
Definition unguarded_raise (pg : Page) (url : str) (e : exn) : Prop :=
  (pg_goto pg url = Raise e /\ is_timeout e = false)
  \/ (exists label, In label more_labels
        /\ pg_count pg (Css (ButtonHasText label)) = Raise e)
  \/ pg_wait_for_timeout pg 500 = Raise e
  \/ pg_title pg = Raise e
  \/ pg_count pg host_section_primary = Raise e
  \/ pg_count pg host_section_secondary = Raise e.

(** The fields that only the host steps of [extract_listing] write are
    [host_name] and [host_url]; [same_rest d0 d]: all the others agree. *)
Definition same_rest (d0 d : ListingRecord) : Prop :=
  listing_url d = listing_url d0 /\ listing_title d = listing_title d0
  /\ license_code d = license_code d0 /\ host_rating d = host_rating d0
  /\ host_years d = host_years d0
  /\ host_reviews_count d = host_reviews_count d0
  /\ scraped_at d = scraped_at d0.

(** What the host steps establish for the two fields they write. *)
Definition host_fields_clean (d : ListingRecord) : Prop :=
  (63%N ∉ host_url d) /\ trimmed (host_name d).

Definition is_close (e : event) : bool :=
  match e with
  | EvClose => true
  | _ => false
  end.

Definition is_new_page (e : event) : bool :=
  match e with
  | EvNewPage => true
  | _ => false
  end.

(** Where [extract_listing] takes the title from: the stripped text of the
    first h1 when that is not empty, the page title otherwise. *)
Definition title_source (pg : Page) (title : str) : Prop :=
  if is_empty (safe_text pg (Css (Tag "h1")))
  then pg_title pg = Ret title
  else title = safe_text pg (Css (Tag "h1")).

(** [m] only makes calls on pages that are open: it opens none, closes none
    and leaves [results] alone. *)
Definition quiet_event (ev : event) : Prop :=
  is_close ev = false /\ is_new_page ev = false.

Definition page_calls_only {A} (m : M A) : Prop :=
  forall w, exists evs, snd (m w) = after w evs /\ Forall quiet_event evs.

Definition closes (evs : list event) : nat := length (List.filter is_close evs).
Definition opens (evs : list event) : nat := length (List.filter is_new_page evs).

(** ** The first stage of [scrape_all] *)

(** [e] is raised by one of the calls [collect_listing_urls] makes. *)
Definition search_page_raise (sp : SearchPage) (url : str) (e : exn) : Prop :=
  sp_goto sp url = Raise e
  \/ exists k, sp_anchor_hrefs sp k = Raise e \/ sp_wheel sp k = Raise e
               \/ sp_wait_for_timeout sp k = Raise e
               \/ sp_scroll_height sp k = Raise e.

(** [try: m finally: f] around a loop that may still be running ([None]):
    [f] runs once [m] has ended, by returning or by raising. *)
Definition finally_ended {A} (m : M (option A)) (f : M unit) : M (option A) :=
  fun w =>
    match m w with
    | (Ret None, w') => (Ret None, w')
    | _ => finally m f w
    end.

(** One turn of the loop over [search_urls]; [new_page] is what
    [context.new_page()] answers for this search, [all] is
    [all_listing_urls] so far. *)
Definition discover_one (cap : Z) (fuel : nat) (new_page : outcome SearchPage)
    (search_url : str) (all : list str) : M (option (list str)) :=
  (page <- call EvNewPage new_page ;;
   finally_ended
     (found <- collect_listing_urls cap fuel page search_url ;;
      mret (option_map (fun listing_urls => all ++ listing_urls) found))
     (call EvClose (sp_close page)))%prog.

Fixpoint discover_loop (cap : Z) (fuel : nat)
    (searches : list (str * outcome SearchPage)) (all : list str)
    : M (option (list str)) :=
  match searches with
  | [] => mret (Some all)
  | (search_url, new_page) :: rest =>
      (r <- discover_one cap fuel new_page search_url all ;;
       match r with
       | Some all' => discover_loop cap fuel rest all'
       | None => mret None
       end)%prog
  end.

(** Lines 247 to 259: the loop, then [list(dict.fromkeys(...))]. *)
Definition discover (cap : Z) (fuel : nat)
    (searches : list (str * outcome SearchPage)) : M (option (list str)) :=
  (found <- discover_loop cap fuel searches [] ;;
   mret (option_map dict_fromkeys_list found))%prog.

(** ** The words of the claims

    What the claims say of the values the extractors return, written over
    the indices and the characters of the text, without the functions of
    the model. *)

(** [v] is the piece of [text] from index [i] up to [j] (excluded). *)
Definition piece_of (text : str) (i j : nat) (v : str) : Prop :=
  i <= j <= length text
  /\ length v = j - i
  /\ forall k, k < j - i -> v !! k = text !! (i + k).

(** [v] is [s] with a point in the place of each comma. *)
Definition commas_as_points (s v : str) : Prop :=
  length v = length s
  /\ forall k c, s !! k = Some c ->
       v !! k = Some (if (c =? 44)%N then 46%N else c).

Definition ascii_digit (c : char) : Prop := (48 <= c <= 57)%N.

(** The number a string of ASCII digits writes. *)
Definition digit_step (acc : Z) (c : char) : Z := (acc * 10 + (Z.of_N c - 48))%Z.

Definition ascii_value (v : str) : Z := fold_left digit_step v 0%Z.

(** [v] is the decimal numeral of [z]: ASCII digits only, so no sign, and
    no leading zero. *)
Definition numeral_of (z : Z) (v : str) : Prop :=
  v <> [] /\ Forall ascii_digit v
  /\ (1 < length v -> head v <> Some 48%N)
  /\ ascii_value v = z.

(** [v] writes [z] in exactly [width] ASCII digits, zeros in front. *)
Definition padded_numeral (width : nat) (z : Z) (v : str) : Prop :=
  length v = width /\ Forall ascii_digit v /\ ascii_value v = z.

(** What [datetime] guarantees of its fields. *)
Definition valid_datetime (d : datetime) : Prop :=
  (1 <= dt_year d <= 9999 /\ 1 <= dt_month d <= 12 /\ 1 <= dt_day d <= 31
   /\ 0 <= dt_hour d <= 23 /\ 0 <= dt_minute d <= 59 /\ 0 <= dt_second d <= 59
   /\ 0 <= dt_microsecond d <= 999999)%Z.

(** [v] is the ISO 8601 form of [d]: YYYY-MM-DDTHH:MM:SS, followed by a
    point and the six digits of the microseconds when they are not zero. *)
Definition iso_8601 (d : datetime) (v : str) : Prop :=
  exists Y M D h m s f,
    v = Y ++ [45%N] ++ M ++ [45%N] ++ D ++ [84%N] ++ h ++ [58%N] ++ m
        ++ [58%N] ++ s ++ f
    /\ padded_numeral 4 (dt_year d) Y /\ padded_numeral 2 (dt_month d) M
    /\ padded_numeral 2 (dt_day d) D /\ padded_numeral 2 (dt_hour d) h
    /\ padded_numeral 2 (dt_minute d) m /\ padded_numeral 2 (dt_second d) s
    /\ ((dt_microsecond d = 0%Z /\ f = [])
        \/ (dt_microsecond d <> 0%Z
            /\ exists u, f = 46%N :: u /\ padded_numeral 6 (dt_microsecond d) u)).

Section Words.
Context {U : UnicodeDB}.

(** The four digits at [g] write the year [y]. *)
Definition year_at (text : str) (g : nat) (y : Z) : Prop :=
  exists d3 d2 d1 d0,
    text !! g = Some d3 /\ text !! (g + 1) = Some d2
    /\ text !! (g + 2) = Some d1 /\ text !! (g + 3) = Some d0
    /\ y = (1000 * decimal_value d3 + 100 * decimal_value d2
            + 10 * decimal_value d1 + decimal_value d0)%Z.

(** The rating: the number of the leftmost occurrence of the rating
    pattern, a point in the place of a comma; empty when there is none. *)
Definition rating_words (text : str) (v : str) : Prop :=
  (exists i g e s, rating_at text i g e
     /\ (forall i' g' e', rating_at text i' g' e' -> i <= i')
     /\ piece_of text i g s /\ commas_as_points s v)
  \/ ((forall i g e, ~ rating_at text i g e) /\ v = []).

(** The review count: the decimal digits, in order, of the spaced number of
    the leftmost occurrence of the reviews pattern; empty when there is
    none. *)
Definition reviews_words (text : str) (v : str) : Prop :=
  (exists i g e s, reviews_at text i g e
     /\ (forall i' g' e', reviews_at text i' g' e' -> i <= i')
     /\ piece_of text i g s /\ v = List.filter is_decimal s)
  \/ ((forall i g e, ~ reviews_at text i g e) /\ v = []).

(** The tenure: the numeral of max(0, current year - start year) for the
    four digits of the leftmost occurrence of the tenure pattern; empty when
    there is none. *)
Definition years_words (text : str) (year_now : Z) (v : str) : Prop :=
  (exists i g e y, tenure_at text i g e
     /\ (forall i' g' e', tenure_at text i' g' e' -> i <= i')
     /\ year_at text g y
     /\ numeral_of (Z.max 0 (year_now - y)) v)
  \/ ((forall i g e, ~ tenure_at text i g e) /\ v = []).

(** The structured code as the claim words it: three upper-case letters, a
    hyphen, three upper-case letters, a hyphen and four to six upper-case
    letters or digits, from [i] up to [j], whatever stands around them. *)
Definition structured_shape_at (text : str) (i j : nat) : Prop :=
  all_in upper text i (i + 3)
  /\ text !! (i + 3) = Some 45%N
  /\ all_in upper text (i + 4) (i + 7)
  /\ text !! (i + 7) = Some 45%N
  /\ i + 12 <= j <= i + 14
  /\ all_in upper_or_digit text (i + 8) j.

(** The licence code: the piece of the text at the leftmost structured code
    between word boundaries; failing that, at the leftmost run of six to
    eight digits between word boundaries; failing that, the empty string. *)
Definition license_words (text : str) (code : str) : Prop :=
  (exists i j, license_code_at text i j
     /\ (forall i' j', license_code_at text i' j' -> i <= i')
     /\ piece_of text i j code)
  \/ ((forall i j, ~ license_code_at text i j)
      /\ exists i j, license_digits_at text i j
           /\ (forall i' j', license_digits_at text i' j' -> i <= i')
           /\ piece_of text i j code)
  \/ ((forall i j, ~ license_code_at text i j)
      /\ (forall i j, ~ license_digits_at text i j)
      /\ code = []).

End Words.

(** ** The host fields, read off the page

    What lines 182 to 223 of [extract_listing] leave in [host_name] and
    [host_url], as a function of what the page answers. *)

(** The heading of a host section. *)
Definition section_name (pg : Page) (sec : locator) : str :=
  safe_text pg (Within (First sec) (Tag "h2, h3, span")).

(** The profile link of a host section, up to its question mark; empty when
    the section has none or when it cannot be read. *)
Definition section_link (pg : Page) (sec : locator) : str :=
  match pg_count pg (Within (First sec) users_link) with
  | Ret (S _) =>
      match pg_get_attribute pg (First (Within (First sec) users_link)) "href" with
      | Ret (Some h) => split_head 63 h
      | _ => []
      end
  | _ => []
  end.

(** The name and the URL after the host-section step. *)
Definition section_host (pg : Page) : str * str :=
  match located_host_section pg with
  | Some sec => (section_name pg sec, section_link pg sec)
  | None => ([], [])
  end.

Definition fallback_link : locator := First (Css users_link).

(** The name and the URL after the whole-page fallback, from those the
    host-section step left. *)
Definition host_after_fallback (pg : Page) (name url : str) : str * str :=
  if is_empty name || is_empty url
  then match pg_get_attribute pg fallback_link "href",
             pg_inner_text pg fallback_link with
       | Ret href, Ret text =>
           (if is_empty text then name else strip text,
            match href with
            | Some h => if is_empty h then url else split_head 63 h
            | None => url
            end)
       | _, _ => (name, url)
       end
  else (name, url).

(** The two fields the host steps write, and the others kept. *)
Definition host_is (name url : str) (d0 d : ListingRecord) : Prop :=
  host_name d = name /\ host_url d = url /\ same_rest d0 d.

Definition expected_host (pg : Page) : str * str :=
  host_after_fallback pg (fst (section_host pg)) (snd (section_host pg)).

(** The same page with other answers to its clicks. *)
Definition with_clicks (pg : Page) (click : locator -> outcome unit) : Page :=
  {| pg_goto := pg_goto pg; pg_count := pg_count pg;
     pg_inner_text := pg_inner_text pg; pg_get_attribute := pg_get_attribute pg;
     pg_click := click; pg_title := pg_title pg;
     pg_wait_for_timeout := pg_wait_for_timeout pg; pg_close := pg_close pg |}.

(** The record of a listing of which only the URL and the time are known. *)
Definition blank_record (url stamp : str) : ListingRecord :=
  {| listing_url := url; listing_title := []; license_code := [];
     host_url := []; host_name := []; host_rating := [];
     host_years := []; host_reviews_count := [];
     scraped_at := stamp |}.

(** ** The rows written out

    [scrape_all] from line 264 on, when there is one listing URL: [results]
    starts empty, [asyncio.gather] over the one worker raises what the
    worker raises, [browser.close()] follows, and only then are the rows of
    [results] handed to the CSV writer. *)
Definition written_rows {U : UnicodeDB} (clock : nat -> datetime)
    (new_page : outcome Page) (browser_close : outcome unit) (listing_url : str)
    : M (list ListingRecord) :=
  ((fun w => (Ret tt, {| w_events := w_events w; w_results := [] |})) ;;
   worker clock new_page listing_url ;;
   lift browser_close ;;
   fun w => (Ret (w_results w), w))%prog.

(** ** Pages that fail

    A listing that loads, with two buttons to expand, on which every
    guarded call fails: the clicks time out, no text can be read, the
    queries inside the host section and the profile link raise. *)
Definition page_failing : Page :=
  {| pg_goto := fun _ => Ret tt;
     pg_count := fun l =>
       if locator_eqb l (Css (ButtonHasText "Lire la suite")) then Ret 2
       else if locator_eqb l (Css (Tag "h1")) then Ret 1
       else if locator_eqb l host_section_primary then Ret 1
       else if locator_eqb l host_heading then Raise PlaywrightError
       else if locator_eqb l host_link then Raise PlaywrightError
       else Ret 0;
     pg_inner_text := fun _ => Raise PlaywrightTimeoutError;
     pg_get_attribute := fun _ _ => Raise PlaywrightTimeoutError;
     pg_click := fun _ => Raise PlaywrightTimeoutError;
     pg_title := Ret (utf8 "Loft lumineux - Airbnb");
     pg_wait_for_timeout := fun _ => Ret tt;
     pg_close := Ret tt |}.

(** A listing whose navigation times out and whose page then fails to
    close. *)
Definition page_timing_out_unclosable : Page :=
  {| pg_goto := fun _ => Raise PlaywrightTimeoutError;
     pg_count := fun _ => Ret 0;
     pg_inner_text := fun _ => Raise PlaywrightTimeoutError;
     pg_get_attribute := fun _ _ => Raise PlaywrightTimeoutError;
     pg_click := fun _ => Ret tt;
     pg_title := Ret [];
     pg_wait_for_timeout := fun _ => Ret tt;
     pg_close := Raise PlaywrightError |}.

(** * Properties *)

(** ** The matcher against the denotation of patterns *)

Section EngineFacts.
Context {U : UnicodeDB}.

Lemma star_loop_sound {A} p (k : mstate -> option A) rest :
  forall prev pos caps a,
    star_loop p k prev rest pos caps = Some a ->
    exists st', matches (Star p) (MState prev rest pos caps) st' /\ k st' = Some a.
Proof.
  induction rest as [|c rest IH]; intros prev pos caps a H; simpl in H.
  - eexists; split; [apply M_Star0 | exact H].
  - destruct (p c) eqn:Hp.
    + destruct (star_loop p k (Some c) rest (S pos) caps) eqn:E; simpl in H.
      * inversion H; subst.
        destruct (IH _ _ _ _ E) as (st' & Hm & Hk).
        exists st'. split; [eapply M_StarS; eauto | exact Hk].
      * eexists; split; [apply M_Star0 | exact H].
    + eexists; split; [apply M_Star0 | exact H].
Qed.

(** Whatever the matcher returns comes from a match of the pattern. *)
Lemma mre_sound {A} r :
  forall st (k : mstate -> option A) a,
    mre r st k = Some a ->
    exists st', matches r st st' /\ k st' = Some a.
Proof.
  induction r as [|p|r1 IH1 r2 IH2|r1 IH1 r2 IH2|p|n r IH|];
    intros st k a H; simpl in H.
  - exists st. split; [constructor | exact H].
  - destruct st as [prev rest pos caps]; simpl in H.
    destruct rest as [|c rest']; [discriminate|].
    destruct (p c) eqn:Hp; [|discriminate].
    eexists; split; [apply M_Chr; exact Hp | exact H].
  - apply IH1 in H as (st1 & H1 & H).
    apply IH2 in H as (st2 & H2 & H).
    exists st2. split; [econstructor; eauto | exact H].
  - destruct (mre r1 st k) eqn:E; simpl in H.
    + inversion H; subst. apply IH1 in E as (st' & ? & ?).
      exists st'. split; [apply M_AltL|]; assumption.
    + apply IH2 in H as (st' & ? & ?).
      exists st'. split; [apply M_AltR|]; assumption.
  - destruct st as [prev rest pos caps]; simpl in H.
    apply star_loop_sound in H. exact H.
  - apply IH in H as (st1 & H1 & H).
    eexists; split; [apply M_Grp; exact H1 | exact H].
  - destruct (at_boundary st) eqn:E; [|discriminate].
    exists st. split; [apply M_WordB|]; assumption.
Qed.

(** Backtracking is exhaustive: when the pattern has a match that the
    continuation accepts, the matcher finds one. *)
Lemma mre_complete r st st' :
  matches r st st' ->
  forall A (k : mstate -> option A), is_Some (k st') -> is_Some (mre r st k).
Proof.
  induction 1 as [st|p prev c rest pos caps Hp|r1 r2 st st1 st2 _ IH1 _ IH2
                 |r1 r2 st st' _ IH|r1 r2 st st' _ IH|p st
                 |p prev c rest pos caps st' Hp _ IH|n r st st1 _ IH|st Hb];
    intros A k Hk; simpl.
  - exact Hk.
  - rewrite Hp. exact Hk.
  - apply IH1, IH2, Hk.
  - destruct (IH _ k Hk) as [a Ha]. rewrite Ha. simpl. eauto.
  - destruct (mre r1 st k); simpl; eauto.
  - destruct st as [prev rest pos caps]; simpl.
    destruct rest as [|c rest]; simpl; [exact Hk|].
    destruct (p c); [|exact Hk].
    destruct (star_loop p k (Some c) rest (S pos) caps); simpl; eauto.
  - rewrite Hp. destruct (IH _ k Hk) as [a Ha]. simpl in Ha.
    rewrite Ha. simpl. eauto.
  - apply IH. exact Hk.
  - rewrite Hb. exact Hk.
Qed.

(** *** Cursors stay inside the subject string *)

Lemma cursor_step text prev c rest pos caps :
  cursor_of text (MState prev (c :: rest) pos caps) ->
  cursor_of text (MState (Some c) rest (S pos) caps).
Proof.
  intros (Hle & Hrest & Hprev); simpl in *.
  assert (Hc : text !! pos = Some c).
  { pose proof (lookup_drop text pos 0) as Hd.
    rewrite Nat.add_0_r, <- Hrest in Hd. symmetry. exact Hd. }
  repeat split; simpl.
  - apply lookup_lt_Some in Hc. lia.
  - rewrite (drop_S _ _ _ Hc) in Hrest. congruence.
  - symmetry. exact Hc.
Qed.

Lemma matches_cursor text r st st' :
  matches r st st' -> cursor_of text st ->
  cursor_of text st' /\ m_pos st <= m_pos st'.
Proof.
  induction 1 as [st|p prev c rest pos caps Hp|r1 r2 st st1 st2 _ IH1 _ IH2
                 |r1 r2 st st' _ IH|r1 r2 st st' _ IH|p st
                 |p prev c rest pos caps st' Hp _ IH|n r st st1 _ IH|st Hb];
    intros Hc; auto.
  - split; [eapply cursor_step; eauto | simpl; lia].
  - destruct (IH1 Hc) as [Hc1 ?]. destruct (IH2 Hc1) as [Hc2 ?]. split; [auto | lia].
  - apply cursor_step in Hc. destruct (IH Hc) as [Hc' ?]. split; [auto | simpl in *; lia].
Qed.

(** *** [re.search] *)

Lemma search_from_eq r prev rest pos :
  search_from r prev rest pos =
  match mre r (MState prev rest pos []) Some with
  | Some st' => Some (pos, st')
  | None =>
      match rest with
      | [] => None
      | c :: rest' => search_from r (Some c) rest' (S pos)
      end
  end.
Proof. destruct rest; reflexivity. Qed.

Lemma search_from_spec r text n :
  forall i, n = length text - i -> i <= length text ->
  match search_from r (prev_at text i) (drop i text) i with
  | Some (j, st') =>
      i <= j /\ occurs_at r text j st'
      /\ forall j' m', i <= j' < j -> ~ occurs_at r text j' m'
  | None => forall j' m', i <= j' -> ~ occurs_at r text j' m'
  end.
Proof.
  induction n as [|n IH]; intros i Hn Hi; rewrite search_from_eq;
    destruct (mre r (MState (prev_at text i) (drop i text) i []) Some) as [st'|] eqn:E.
  1,3: apply mre_sound in E as (st'' & Hm & Heq); inversion Heq; subst st'';
       split; [lia|]; split; [split; [exact Hi | exact Hm] | intros; lia].
  - assert (Hnil : drop i text = []) by (apply drop_ge; lia).
    rewrite Hnil. intros j' m' Hj' [Hle Hm].
    assert (j' = i) by lia. subst j'.
    destruct (mre_complete _ _ _ Hm _ Some) as [x Hx]; [eauto|].
    unfold state_at, cur in Hx. congruence.
  - assert (Hnone : forall m', ~ occurs_at r text i m').
    { intros m' [_ Hm]. destruct (mre_complete _ _ _ Hm _ Some) as [x Hx]; [eauto|].
      unfold state_at, cur in Hx. congruence. }
    destruct (text !! i) as [c|] eqn:Hc; [|apply lookup_ge_None in Hc; lia].
    rewrite (drop_S _ _ _ Hc).
    specialize (IH (S i)). change (prev_at text (S i)) with (text !! i) in IH.
    rewrite Hc in IH.
    apply lookup_lt_Some in Hc.
    specialize (IH ltac:(lia) ltac:(lia)).
    destruct (search_from r (Some c) (drop (S i) text) (S i)) as [[j st']|].
    + destruct IH as (Hj & Hocc & Hleft). split; [lia|]. split; [exact Hocc|].
      intros j' m' Hj'. destruct (Nat.eq_dec j' i) as [->|]; [apply Hnone|].
      apply Hleft. lia.
    + intros j' m' Hj'. destruct (Nat.eq_dec j' i) as [->|]; [apply Hnone|].
      apply IH. lia.
Qed.

(** [re.search] returns a first occurrence of the pattern ... *)
Lemma re_search_some r text m :
  re_search r text = Some m ->
  exists st', mo_string m = text /\ first_occurrence r text (mo_start m) st'
              /\ mo_end m = m_pos st' /\ mo_caps m = m_caps st'.
Proof.
  unfold re_search. intros H.
  pose proof (search_from_spec r text _ 0 eq_refl ltac:(lia)) as Hs.
  simpl in Hs. rewrite drop_0 in Hs.
  destruct (search_from r None text 0) as [[i st']|]; [|discriminate].
  inversion H; subst; simpl. destruct Hs as (_ & Hocc & Hleft).
  exists st'. repeat split; auto; try apply Hocc.
  intros j m' Hj. apply Hleft. lia.
Qed.

(** ... and [None] only when the pattern occurs nowhere. *)
Lemma re_search_none r text : re_search r text = None -> absent r text.
Proof.
  unfold re_search. intros H.
  pose proof (search_from_spec r text _ 0 eq_refl ltac:(lia)) as Hs.
  simpl in Hs. rewrite drop_0 in Hs.
  destruct (search_from r None text 0) as [[i st']|]; [discriminate|].
  intros j m'. apply Hs. lia.
Qed.

End EngineFacts.


(** ** From pattern syntax to conditions on indices *)

Section PatternShapes.
Context {U : UnicodeDB}.
Variable text : str.

Lemma drop_cons_inv i (ch : char) rest :
  drop i text = ch :: rest -> text !! i = Some ch /\ rest = drop (S i) text.
Proof.
  intros H.
  assert (Hc : text !! i = Some ch).
  { pose proof (lookup_drop text i 0) as Hd.
    rewrite Nat.add_0_r, H in Hd. symmetry. exact Hd. }
  split; [exact Hc|]. rewrite (drop_S _ _ _ Hc) in H. congruence.
Qed.

Lemma cur_unfold i c ch :
  text !! i = Some ch ->
  cur text i c = MState (prev_at text i) (ch :: drop (S i) text) i c.
Proof. intros H. unfold cur. rewrite (drop_S _ _ _ H). reflexivity. Qed.

Lemma cur_succ i c ch :
  text !! i = Some ch ->
  cur text (S i) c = MState (Some ch) (drop (S i) text) (S i) c.
Proof. intros H. unfold cur. simpl. rewrite H. reflexivity. Qed.

Lemma cur_inj i j c c' : cur text i c = cur text j c' -> i = j /\ c = c'.
Proof. unfold cur. intros H. inversion H. auto. Qed.

Lemma matches_cur r i c st' :
  i <= length text -> matches r (cur text i c) st' ->
  exists j c', st' = cur text j c' /\ i <= j <= length text.
Proof.
  intros Hi H.
  destruct (matches_cursor text _ _ _ H) as [(Hle & Hrest & Hprev) Hpos].
  { repeat split. exact Hi. }
  destruct st' as [p r' j c']; simpl in *. subst.
  exists j, c'. split; [reflexivity | lia].
Qed.

Lemma all_in_empty p i j : j <= i -> all_in p text i j.
Proof. intros H k Hk. lia. Qed.

Lemma all_in_cons p i j ch :
  text !! i = Some ch -> p ch = true -> all_in p text (S i) j -> all_in p text i j.
Proof.
  intros Hc Hp H k Hk. destruct (Nat.eq_dec k i) as [->|]; [eauto|].
  apply H. lia.
Qed.

Lemma all_in_head p i j :
  all_in p text i j -> i < j ->
  exists ch, text !! i = Some ch /\ p ch = true /\ all_in p text (S i) j.
Proof.
  intros H Hij. destruct (H i) as (ch & Hc & Hp); [lia|].
  exists ch. repeat split; auto. intros k Hk. apply H. lia.
Qed.

Lemma all_in_app p i a j :
  all_in p text i a -> all_in p text a j -> all_in p text i j.
Proof.
  intros H1 H2 k Hk. destruct (Nat.lt_ge_cases k a); [apply H1 | apply H2]; lia.
Qed.

Lemma all_in_sub p i j i' j' :
  all_in p text i j -> i <= i' -> j' <= j -> all_in p text i' j'.
Proof. intros H ? ? k Hk. apply H. lia. Qed.

Lemma all_in_bound p i j : all_in p text i j -> i < j -> j <= length text.
Proof.
  intros H Hij. destruct (H (j - 1)) as (ch & Hc & _); [lia|].
  apply lookup_lt_Some in Hc. lia.
Qed.

Lemma all_in_one p i ch :
  text !! i = Some ch -> p ch = true -> all_in p text i (S i).
Proof.
  intros Hc Hp. eapply all_in_cons; eauto. apply all_in_empty. lia.
Qed.

Lemma spelled_nil q i : spelled q [] text i.
Proof. intros k pc H. discriminate. Qed.

Lemma spelled_cons q pc s i :
  spelled q (pc :: s) text i <->
  (exists ch, text !! i = Some ch /\ q pc ch = true) /\ spelled q s text (S i).
Proof.
  split.
  - intros H. split.
    + destruct (H 0 pc eq_refl) as (ch & Hc & Hq). rewrite Nat.add_0_r in Hc. eauto.
    + intros k pc' Hk. destruct (H (S k) pc' Hk) as (ch & Hc & Hq).
      replace (i + S k) with (S i + k) in Hc by lia. eauto.
  - intros [(ch & Hc & Hq) H] k pc' Hk. destruct k as [|k]; simpl in Hk.
    + inversion Hk; subst. rewrite Nat.add_0_r. eauto.
    + destruct (H k pc' Hk) as (ch' & Hc' & Hq').
      replace (i + S k) with (S i + k) by lia. eauto.
Qed.

(** *** One lemma per pattern constructor *)

Lemma eps_iff st st' : matches Eps st st' <-> st' = st.
Proof. split; [inversion 1; reflexivity | intros ->; constructor]. Qed.

Lemma cat_iff r1 r2 st st' :
  matches (Cat r1 r2) st st' <-> exists st1, matches r1 st st1 /\ matches r2 st1 st'.
Proof.
  split; [inversion 1; subst; eauto | intros (st1 & ? & ?); econstructor; eauto].
Qed.

Lemma alt_iff r1 r2 st st' :
  matches (Alt r1 r2) st st' <-> matches r1 st st' \/ matches r2 st st'.
Proof.
  split; [inversion 1; subst; auto | intros [?|?]; [apply M_AltL | apply M_AltR]; auto].
Qed.

Lemma chr_iff p i c st' :
  matches (Chr p) (cur text i c) st' <->
  exists ch, text !! i = Some ch /\ p ch = true /\ st' = cur text (S i) c.
Proof.
  split.
  - intros H.
    assert (Hinv : exists ch rest, m_rest (cur text i c) = ch :: rest /\ p ch = true
                     /\ st' = MState (Some ch) rest (S i) c).
    { inversion H; subst; simpl; eauto. }
    destruct Hinv as (ch & rest & Hrest & Hp & ->). simpl in Hrest.
    apply drop_cons_inv in Hrest as [Hc ->].
    exists ch. repeat split; auto. rewrite (cur_succ _ _ _ Hc). reflexivity.
  - intros (ch & Hc & Hp & ->).
    rewrite (cur_unfold _ _ _ Hc), (cur_succ _ _ _ Hc). apply M_Chr. exact Hp.
Qed.

Lemma wordb_iff i c st' :
  matches WordB (cur text i c) st' <-> boundary_at text i /\ st' = cur text i c.
Proof.
  assert (Hb : at_boundary (cur text i c)
               = xorb (is_word_opt (prev_at text i)) (is_word_opt (text !! i))).
  { unfold at_boundary, cur; simpl. rewrite head_lookup, lookup_drop, Nat.add_0_r.
    reflexivity. }
  split.
  - inversion 1; subst. split; [|reflexivity]. unfold boundary_at. congruence.
  - intros [H ->]. apply M_WordB. unfold boundary_at in H. congruence.
Qed.

Lemma grp_iff n r i c st' :
  i <= length text ->
  matches (Grp n r) (cur text i c) st' <->
  exists j c1, matches r (cur text i c) (cur text j c1)
               /\ st' = cur text j ((n, (i, j)) :: c1).
Proof.
  intros Hi. split.
  - inversion 1 as [| | | | | | |n' r' st0 st1 Hm|]; subst.
    destruct (matches_cur _ _ _ _ Hi Hm) as (j & c1 & -> & _).
    exists j, c1. split; [exact Hm | reflexivity].
  - intros (j & c1 & Hm & ->). apply (M_Grp n) in Hm. exact Hm.
Qed.

Lemma rep_chr_iff p n : forall i c st',
  matches (rep n (Chr p)) (cur text i c) st' <->
  all_in p text i (i + n) /\ st' = cur text (i + n) c.
Proof.
  induction n as [|n IH]; intros i c st'; simpl.
  - rewrite eps_iff, Nat.add_0_r. split; [intros ->; split; [apply all_in_empty; lia|]|intros [_ ->]]; reflexivity.
  - rewrite cat_iff. split.
    + intros (st1 & H1 & H2). apply chr_iff in H1 as (ch & Hc & Hp & ->).
      apply IH in H2 as [Ha ->].
      replace (S i + n) with (i + S n) in * by lia.
      split; [|reflexivity]. eapply all_in_cons; eauto.
    + intros [Ha ->]. destruct (all_in_head _ _ _ Ha) as (ch & Hc & Hp & Ha'); [lia|].
      exists (cur text (S i) c). split; [apply chr_iff; eauto|].
      apply IH. replace (S i + n) with (i + S n) by lia. auto.
Qed.

Lemma star_fwd p st st' :
  matches (Star p) st st' ->
  forall i c, st = cur text i c ->
  exists j, i <= j /\ all_in p text i j /\ st' = cur text j c.
Proof.
  intros H. remember (Star p) as r eqn:Er.
  induction H as [| | | | |p' st|p' prev ch rest pos caps st' Hp _ IH| |];
    try discriminate; inversion Er; subst; intros i c E.
  - exists i. split; [lia|]. split; [apply all_in_empty; lia | exact E].
  - unfold cur in E. inversion E; subst.
    symmetry in H1. apply drop_cons_inv in H1 as [Hc ->].
    destruct (IH eq_refl (S i) c) as (j & Hj & Ha & ->).
    { rewrite (cur_succ _ _ _ Hc). reflexivity. }
    exists j. split; [lia|]. split; [eapply all_in_cons; eauto | reflexivity].
Qed.

Lemma star_bwd p c n : forall i j,
  n = j - i -> i <= j -> all_in p text i j ->
  matches (Star p) (cur text i c) (cur text j c).
Proof.
  induction n as [|n IH]; intros i j Hn Hij Ha.
  - assert (j = i) by lia. subst. apply M_Star0.
  - destruct (all_in_head _ _ _ Ha) as (ch & Hc & Hp & Ha'); [lia|].
    rewrite (cur_unfold _ _ _ Hc). apply M_StarS; [exact Hp|].
    rewrite <- (cur_succ _ _ _ Hc). apply IH; auto; lia.
Qed.

Lemma star_iff p i c st' :
  matches (Star p) (cur text i c) st' <->
  exists j, i <= j /\ all_in p text i j /\ st' = cur text j c.
Proof.
  split.
  - intros H. eapply star_fwd; eauto.
  - intros (j & Hj & Ha & ->). eapply star_bwd; eauto.
Qed.

Lemma plus_iff p i c st' :
  matches (plus p) (cur text i c) st' <->
  exists j, i < j /\ all_in p text i j /\ st' = cur text j c.
Proof.
  unfold plus. rewrite cat_iff. split.
  - intros (st1 & H1 & H2). apply chr_iff in H1 as (ch & Hc & Hp & ->).
    apply star_iff in H2 as (j & Hj & Ha & ->).
    exists j. split; [lia|]. split; [eapply all_in_cons; eauto | reflexivity].
  - intros (j & Hj & Ha & ->).
    destruct (all_in_head _ _ _ Ha Hj) as (ch & Hc & Hp & Ha').
    exists (cur text (S i) c). split; [apply chr_iff; eauto|].
    apply star_iff. exists j. split; [lia|]. auto.
Qed.

Lemma upto_chr_iff p n : forall i c st',
  matches (upto n (Chr p)) (cur text i c) st' <->
  exists j, i <= j <= i + n /\ all_in p text i j /\ st' = cur text j c.
Proof.
  induction n as [|n IH]; intros i c st'; simpl.
  - rewrite eps_iff. split.
    + intros ->. exists i. split; [lia|]. split; [apply all_in_empty; lia | reflexivity].
    + intros (j & Hj & _ & ->). replace j with i by lia. reflexivity.
  - unfold opt. rewrite alt_iff, cat_iff, eps_iff. split.
    + intros [(st1 & H1 & H2)| ->].
      * apply chr_iff in H1 as (ch & Hc & Hp & ->).
        apply IH in H2 as (j & Hj & Ha & ->).
        exists j. split; [lia|]. split; [eapply all_in_cons; eauto | reflexivity].
      * exists i. split; [lia|]. split; [apply all_in_empty; lia | reflexivity].
    + intros (j & Hj & Ha & ->).
      destruct (Nat.eq_dec j i) as [->|Hne]; [right; reflexivity|left].
      destruct (all_in_head _ _ _ Ha) as (ch & Hc & Hp & Ha'); [lia|].
      exists (cur text (S i) c). split; [apply chr_iff; eauto|].
      apply IH. exists j. split; [lia|]. auto.
Qed.

Lemma rep_range_chr_iff p lo hi i c st' :
  lo <= hi ->
  matches (rep_range lo hi (Chr p)) (cur text i c) st' <->
  exists j, i + lo <= j <= i + hi /\ all_in p text i j /\ st' = cur text j c.
Proof.
  intros Hlh. unfold rep_range. rewrite cat_iff. split.
  - intros (st1 & H1 & H2). apply rep_chr_iff in H1 as [Ha ->].
    apply upto_chr_iff in H2 as (j & Hj & Ha' & ->).
    exists j. split; [lia|]. split; [eapply all_in_app; eauto | reflexivity].
  - intros (j & Hj & Ha & ->). exists (cur text (i + lo) c). split.
    + apply rep_chr_iff. split; [|reflexivity]. eapply all_in_sub; eauto; lia.
    + apply upto_chr_iff. exists j. split; [lia|].
      split; [eapply all_in_sub; eauto; lia | reflexivity].
Qed.

Lemma seq_of_iff q s : forall i c st',
  matches (seq_of (fun x => Chr (q x)) s) (cur text i c) st' <->
  spelled q s text i /\ st' = cur text (i + length s) c.
Proof.
  induction s as [|pc s IH]; intros i c st'; simpl.
  - rewrite eps_iff, Nat.add_0_r. split; [intros ->; split; [apply spelled_nil|]|intros [_ ->]]; reflexivity.
  - rewrite cat_iff, spelled_cons. split.
    + intros (st1 & H1 & H2). apply chr_iff in H1 as (ch & Hc & Hq & ->).
      apply IH in H2 as [Hs ->].
      replace (S i + length s) with (i + S (length s)) by lia. eauto.
    + intros [[(ch & Hc & Hq) Hs] ->].
      exists (cur text (S i) c). split; [apply chr_iff; eauto|].
      apply IH. replace (S i + length s) with (i + S (length s)) by lia. auto.
Qed.

Lemma lit_iff (a : char) i c st' :
  matches (lit a) (cur text i c) st' <->
  text !! i = Some a /\ st' = cur text (S i) c.
Proof.
  unfold lit. rewrite chr_iff. split.
  - intros (ch & Hc & Hq & ->). apply N.eqb_eq in Hq. subst. auto.
  - intros [Hc ->]. exists a. repeat split; auto. apply N.eqb_refl.
Qed.

Lemma all_in_eq p i j i' j' :
  all_in p text i j -> i = i' -> j = j' -> all_in p text i' j'.
Proof. intros H -> ->. exact H. Qed.

Lemma lookup_eq (i i' : nat) (o : option char) :
  text !! i = o -> i = i' -> text !! i' = o.
Proof. intros H ->. exact H. Qed.

Lemma cur_eq i i' c : i = i' -> cur text i c = cur text i' c.
Proof. intros ->. reflexivity. Qed.

(** *** The five patterns *)

Lemma license_code_iff i c st' :
  matches re_license_code (cur text i c) st' <->
  exists j, license_code_at text i j /\ st' = cur text j c.
Proof.
  unfold re_license_code. split.
  - intros H.
    apply cat_iff in H as (s1 & H1 & H). apply wordb_iff in H1 as [Hb1 ->].
    apply cat_iff in H as (s1 & H1 & H). apply rep_chr_iff in H1 as [Ha1 ->].
    apply cat_iff in H as (s1 & H1 & H). apply lit_iff in H1 as [Hh1 ->].
    apply cat_iff in H as (s1 & H1 & H). apply rep_chr_iff in H1 as [Ha2 ->].
    apply cat_iff in H as (s1 & H1 & H). apply lit_iff in H1 as [Hh2 ->].
    apply cat_iff in H as (s1 & H1 & H).
    apply rep_range_chr_iff in H1 as (j & Hj & Ha3 & ->); [|lia].
    apply wordb_iff in H as [Hb2 ->].
    exists j. split; [|reflexivity].
    repeat split; auto; try lia.
    + eapply all_in_eq; [exact Ha2 | lia | lia].
    + eapply lookup_eq; [exact Hh2 | lia].
    + eapply all_in_eq; [exact Ha3 | lia | lia].
  - intros (j & (Hb1 & Ha1 & Hh1 & Ha2 & Hh2 & Hj & Ha3 & Hb2) & ->).
    apply cat_iff. exists (cur text i c). split; [apply wordb_iff; auto|].
    apply cat_iff. exists (cur text (i + 3) c). split; [apply rep_chr_iff; auto|].
    apply cat_iff. exists (cur text (i + 4) c). split.
    { apply lit_iff. split; [exact Hh1 | apply cur_eq; lia]. }
    apply cat_iff. exists (cur text (i + 7) c). split.
    { apply rep_chr_iff. split; [eapply all_in_eq; eauto; lia | apply cur_eq; lia]. }
    apply cat_iff. exists (cur text (i + 8) c). split.
    { apply lit_iff. split; [exact Hh2 | apply cur_eq; lia]. }
    apply cat_iff. exists (cur text j c). split; [|apply wordb_iff; auto].
    apply rep_range_chr_iff; [lia|]. exists j. split; [lia|]. auto.
Qed.

Lemma license_digits_iff i c st' :
  matches re_license_digits (cur text i c) st' <->
  exists j, license_digits_at text i j /\ st' = cur text j c.
Proof.
  unfold re_license_digits. split.
  - intros H.
    apply cat_iff in H as (s1 & H1 & H). apply wordb_iff in H1 as [Hb1 ->].
    apply cat_iff in H as (s1 & H1 & H).
    apply rep_range_chr_iff in H1 as (j & Hj & Ha & ->); [|lia].
    apply wordb_iff in H as [Hb2 ->].
    exists j. split; [|reflexivity]. repeat split; auto; lia.
  - intros (j & (Hb1 & Hj & Ha & Hb2) & ->).
    apply cat_iff. exists (cur text i c). split; [apply wordb_iff; auto|].
    apply cat_iff. exists (cur text j c). split; [|apply wordb_iff; auto].
    apply rep_range_chr_iff; [lia|]. exists j. auto.
Qed.

Lemma number_iff i c st' :
  matches re_number (cur text i c) st' <->
  exists j, number_at text i j /\ st' = cur text j c.
Proof.
  unfold re_number, opt. rewrite cat_iff. split.
  - intros (s1 & H1 & H). apply plus_iff in H1 as (a & Hia & Ha & ->).
    apply alt_iff in H as [H|H].
    + apply cat_iff in H as (s1 & H1 & H).
      apply chr_iff in H1 as (sep & Hsep & Hdc & ->).
      apply plus_iff in H as (j & Hj & Ha' & ->).
      exists j. split; [|reflexivity]. exists a. repeat split; auto.
      right. repeat split; eauto; try lia.
      eapply all_in_eq; [exact Ha' | lia | lia].
    + apply eps_iff in H as ->. exists a. split; [|reflexivity].
      exists a. repeat split; auto.
  - intros (j & (a & Hia & Ha & Hj) & ->).
    exists (cur text a c). split; [apply plus_iff; eauto|].
    apply alt_iff. destruct Hj as [->|((sep & Hsep & Hdc) & Hj & Ha')].
    + right. apply eps_iff. reflexivity.
    + left. apply cat_iff. exists (cur text (S a) c). split; [apply chr_iff; eauto|].
      apply plus_iff. exists j. split; [lia|]. split; [|reflexivity].
      eapply all_in_eq; [exact Ha' | lia | lia].
Qed.

Lemma rating_iff i c st' :
  i <= length text ->
  matches re_rating (cur text i c) st' <->
  exists g e, rating_at text i g e /\ st' = cur text e ((1, (i, g)) :: c).
Proof.
  intros Hi. unfold re_rating. split.
  - intros H.
    apply cat_iff in H as (s1 & H1 & H).
    apply grp_iff in H1 as (g & c1 & Hn & ->); [|exact Hi].
    apply number_iff in Hn as (g' & Hn & Heq). apply cur_inj in Heq as [<- ->].
    apply cat_iff in H as (s1 & H1 & H). apply star_iff in H1 as (a & Hga & Hs1 & ->).
    apply cat_iff in H as (s1 & H1 & H).
    apply (seq_of_iff char_eqb) in H1 as [Hsur ->].
    change (length (utf8 "sur")) with 3 in H.
    apply cat_iff in H as (s1 & H1 & H). apply star_iff in H1 as (b & Hab & Hs2 & ->).
    apply lit_iff in H as [H5 ->].
    exists g, (S b). split; [|reflexivity].
    split; [exact Hn|]. exists a, b. repeat split; auto. lia.
  - intros (g & e & (Hn & a & b & Hga & Hs1 & Hsur & Hab & Hs2 & H5 & ->) & ->).
    apply cat_iff. exists (cur text g ((1, (i, g)) :: c)). split.
    { apply grp_iff; [exact Hi|]. exists g, c. split; [|reflexivity].
      apply number_iff. eauto. }
    apply cat_iff. exists (cur text a ((1, (i, g)) :: c)).
    split; [apply star_iff; eauto|].
    apply cat_iff. exists (cur text (a + 3) ((1, (i, g)) :: c)).
    split; [apply (seq_of_iff char_eqb); auto|].
    apply cat_iff. exists (cur text b ((1, (i, g)) :: c)).
    split; [apply star_iff; eauto|].
    apply lit_iff. split; [exact H5 | apply cur_eq; lia].
Qed.

Lemma spaced_number_iff i c st' :
  matches re_spaced_number (cur text i c) st' <->
  exists g, all_in is_decimal text i (i + 1) /\ i + 1 <= g
            /\ all_in digit_or_space text (i + 1) g /\ st' = cur text g c.
Proof.
  unfold re_spaced_number. rewrite cat_iff. split.
  - intros (s1 & H1 & H). apply chr_iff in H1 as (ch & Hc & Hd & ->).
    apply star_iff in H as (g & Hg & Ha & ->).
    exists g. repeat split; auto; try lia.
    + eapply all_in_eq; [eapply all_in_one; eauto | lia | lia].
    + eapply all_in_eq; [exact Ha | lia | lia].
  - intros (g & Hd & Hg & Ha & ->).
    destruct (all_in_head _ _ _ Hd) as (ch & Hc & Hp & _); [lia|].
    exists (cur text (S i) c). split; [apply chr_iff; eauto|].
    apply star_iff. exists g. split; [lia|]. split; [|reflexivity].
    eapply all_in_eq; [exact Ha | lia | lia].
Qed.

Lemma reviews_iff i c st' :
  i <= length text ->
  matches re_reviews (cur text i c) st' <->
  exists g e, reviews_at text i g e /\ st' = cur text e ((1, (i, g)) :: c).
Proof.
  intros Hi. unfold re_reviews. split.
  - intros H.
    apply cat_iff in H as (s1 & H1 & H).
    apply grp_iff in H1 as (g & c1 & Hn & ->); [|exact Hi].
    apply spaced_number_iff in Hn as (g' & Hd & Hg & Ha & Heq).
    apply cur_inj in Heq as [<- ->].
    apply cat_iff in H as (s1 & H1 & H). apply plus_iff in H1 as (a & Hga & Hs & ->).
    apply (seq_of_iff ci_match) in H as [Hw ->].
    change (length (utf8 "commentaire")) with 11.
    exists g, (a + 11). split; [|reflexivity].
    repeat split; auto. exists a. repeat split; auto.
  - intros (g & e & (Hd & Hg & Ha & a & Hga & Hs & Hw & ->) & ->).
    apply cat_iff. exists (cur text g ((1, (i, g)) :: c)). split.
    { apply grp_iff; [exact Hi|]. exists g, c. split; [|reflexivity].
      apply spaced_number_iff. exists g. auto. }
    apply cat_iff. exists (cur text a ((1, (i, g)) :: c)).
    split; [apply plus_iff; eauto|].
    apply (seq_of_iff ci_match). auto.
Qed.

Lemma tenure_iff i c st' :
  matches re_tenure (cur text i c) st' <->
  exists g e, tenure_at text i g e /\ st' = cur text e ((1, (g, e)) :: c).
Proof.
  unfold re_tenure. split.
  - intros H.
    apply cat_iff in H as (s1 & H1 & H). apply chr_iff in H1 as (h & Hh & Hhq & ->).
    apply cat_iff in H as (s1 & H1 & H). apply chr_iff in H1 as (o & Ho & Hoq & ->).
    apply cat_iff in H as (s1 & H1 & H).
    apply (seq_of_iff ci_match) in H1 as [Hw ->].
    change (length (utf8 "te depuis")) with 9 in H.
    apply cat_iff in H as (s1 & H1 & H). apply plus_iff in H1 as (g & Hg & Hs & ->).
    apply grp_iff in H as (e & c1 & Hy & ->).
    2:{ eapply all_in_bound; eauto. }
    apply rep_chr_iff in Hy as [Hy Heq]. apply cur_inj in Heq as [-> ->].
    exists g, (g + 4). split; [|reflexivity].
    repeat split; try lia.
    + apply spelled_cons. split; [eauto | apply spelled_nil].
    + eapply all_in_eq; [eapply all_in_one; eauto | lia | lia].
    + intros k pc Hk. destruct (Hw k pc Hk) as (ch & Hc & Hq).
      exists ch. split; [|exact Hq]. eapply lookup_eq; [exact Hc | lia].
    + eapply all_in_eq; [exact Hs | lia | lia].
    + exact Hy.
  - intros (g & e & (Hh & Ho & Hw & Hg & Hs & Hy & ->) & ->).
    apply spelled_cons in Hh as [(h & Hh & Hhq) _].
    destruct (all_in_head _ _ _ Ho) as (o & Hoc & Hoq & _); [lia|].
    apply cat_iff. exists (cur text (S i) c). split; [apply chr_iff; eauto|].
    apply cat_iff. exists (cur text (S (S i)) c). split.
    { apply chr_iff. exists o. repeat split; auto.
      eapply lookup_eq; [exact Hoc | lia]. }
    apply cat_iff. exists (cur text (i + 11) c). split.
    { apply (seq_of_iff ci_match). split; [|apply cur_eq; simpl; lia].
      intros k pc Hk. destruct (Hw k pc Hk) as (ch & Hc & Hq).
      exists ch. split; [|exact Hq]. eapply lookup_eq; [exact Hc | lia]. }
    apply cat_iff. exists (cur text g c). split; [apply plus_iff; eauto|].
    apply grp_iff; [eapply all_in_bound; eauto|].
    exists (g + 4), c. split; [|reflexivity]. apply rep_chr_iff. auto.
Qed.

End PatternShapes.

(** ** The two extractors *)

Section Extractors.
Context {U : UnicodeDB}.
Variable text : str.

Lemma re_search_shape r (P : nat -> mstate -> Prop) :
  (forall i st', i <= length text -> matches r (cur text i []) st' <-> P i st') ->
  (forall i st', P i st' -> i <= length text) ->
  match re_search r text with
  | Some m =>
      exists i st', P i st'
        /\ (forall i' st'', P i' st'' -> i <= i')
        /\ m = {| mo_string := text; mo_start := i;
                  mo_end := m_pos st'; mo_caps := m_caps st' |}
  | None => forall i st', ~ P i st'
  end.
Proof.
  intros Hiff Hlen. destruct (re_search r text) as [m|] eqn:E.
  - apply re_search_some in E as (st' & Hs & [[Hle Hm] Hleft] & He & Hc).
    exists (mo_start m), st'. split; [apply Hiff; auto|]. split.
    + intros i' st'' HP. destruct (Nat.le_gt_cases (mo_start m) i'); auto.
      exfalso. apply (Hleft i' st''); auto.
      split; [eapply Hlen; eauto | apply Hiff; eauto].
    + destruct m; simpl in *; subst; reflexivity.
  - apply re_search_none in E. intros i st' HP. apply (E i st').
    split; [eapply Hlen; eauto | apply Hiff; eauto].
Qed.

Lemma length_substr a b : b <= length text -> length (substr text a b) = b - a.
Proof. intros H. unfold substr. rewrite length_take, length_drop. lia. Qed.

Lemma substr_lookup a b k :
  k < b - a -> substr text a b !! k = text !! (a + k).
Proof. intros H. unfold substr. rewrite lookup_take_lt, lookup_drop; auto. Qed.

Lemma all_in_forallb p a b :
  all_in p text a b -> forallb p (substr text a b) = true.
Proof.
  intros H. apply forallb_forall. intros x Hx.
  apply list_elem_of_In, list_elem_of_lookup in Hx as [k Hk].
  assert (Hlt : k < b - a).
  { apply lookup_lt_Some in Hk. unfold substr in Hk. rewrite length_take in Hk. lia. }
  rewrite substr_lookup in Hk by exact Hlt.
  destruct (H (a + k)) as (ch & Hc & Hp); [lia|]. congruence.
Qed.

Lemma py_int_digits a b :
  a < b -> all_in is_decimal text a b ->
  py_int (substr text a b) = Ret (digits_value (substr text a b)).
Proof.
  intros Hab Ha. unfold py_int. rewrite (all_in_forallb _ _ _ Ha).
  pose proof (all_in_bound _ _ _ _ Ha Hab) as Hb.
  pose proof (length_substr a b Hb) as Hl.
  destruct (substr text a b); [simpl in Hl; lia | reflexivity].
Qed.

Lemma search_license_code :
  match re_search re_license_code text with
  | Some m =>
      exists i j, license_code_at text i j
        /\ (forall i' j', license_code_at text i' j' -> i <= i')
        /\ group m 0 = Some (substr text i j)
  | None => forall i j, ~ license_code_at text i j
  end.
Proof.
  pose proof (re_search_shape re_license_code
    (fun i st' => exists j, license_code_at text i j /\ st' = cur text j [])
    (fun i st' _ => license_code_iff text i [] st')) as H.
  destruct (re_search re_license_code text) as [m|].
  - destruct H as (i & st' & (j & Hc & ->) & Hleft & ->).
    { intros i st' (j & (_ & Ha & _) & _).
      pose proof (all_in_bound _ _ _ _ Ha ltac:(lia)). lia. }
    exists i, j. split; [exact Hc|]. split; [|reflexivity].
    intros i' j' Hc'. apply (Hleft i' (cur text j' [])). eauto.
  - intros i j Hc. apply (H ltac:(intros i0 st0 (j0 & (_ & Ha & _) & _);
      pose proof (all_in_bound _ _ _ _ Ha ltac:(lia)); lia) i (cur text j [])). eauto.
Qed.

Lemma search_license_digits :
  match re_search re_license_digits text with
  | Some m =>
      exists i j, license_digits_at text i j
        /\ (forall i' j', license_digits_at text i' j' -> i <= i')
        /\ group m 0 = Some (substr text i j)
  | None => forall i j, ~ license_digits_at text i j
  end.
Proof.
  assert (Hlen : forall i st',
    (exists j, license_digits_at text i j /\ st' = cur text j []) -> i <= length text).
  { intros i st' (j & (_ & Hj & Ha & _) & _).
    pose proof (all_in_bound _ _ _ _ Ha ltac:(lia)). lia. }
  pose proof (re_search_shape re_license_digits _
    (fun i st' _ => license_digits_iff text i [] st') Hlen) as H.
  destruct (re_search re_license_digits text) as [m|].
  - destruct H as (i & st' & (j & Hc & ->) & Hleft & ->).
    exists i, j. split; [exact Hc|]. split; [|reflexivity].
    intros i' j' Hc'. apply (Hleft i' (cur text j' [])). eauto.
  - intros i j Hc. apply (H i (cur text j [])). eauto.
Qed.

Lemma search_rating :
  match re_search re_rating text with
  | Some m =>
      exists i g e, rating_at text i g e
        /\ (forall i' g' e', rating_at text i' g' e' -> i <= i')
        /\ group m 1 = Some (substr text i g)
  | None => forall i g e, ~ rating_at text i g e
  end.
Proof.
  assert (Hlen : forall i st',
    (exists g e, rating_at text i g e /\ st' = cur text e [(1, (i, g))]) ->
    i <= length text).
  { intros i st' (g & e & ((a & Hia & Ha & _) & _) & _).
    pose proof (all_in_bound _ _ _ _ Ha Hia). lia. }
  pose proof (re_search_shape re_rating _
    (fun i st' Hi => rating_iff text i [] st' Hi) Hlen) as H.
  destruct (re_search re_rating text) as [m|].
  - destruct H as (i & st' & (g & e & Hc & ->) & Hleft & ->).
    exists i, g, e. split; [exact Hc|]. split; [|reflexivity].
    intros i' g' e' Hc'. apply (Hleft i' (cur text e' [(1, (i', g'))])). eauto.
  - intros i g e Hc. apply (H i (cur text e [(1, (i, g))])). eauto.
Qed.

Lemma search_reviews :
  match re_search re_reviews text with
  | Some m =>
      exists i g e, reviews_at text i g e
        /\ (forall i' g' e', reviews_at text i' g' e' -> i <= i')
        /\ group m 1 = Some (substr text i g)
  | None => forall i g e, ~ reviews_at text i g e
  end.
Proof.
  assert (Hlen : forall i st',
    (exists g e, reviews_at text i g e /\ st' = cur text e [(1, (i, g))]) ->
    i <= length text).
  { intros i st' (g & e & (Ha & _) & _).
    pose proof (all_in_bound _ _ _ _ Ha ltac:(lia)). lia. }
  pose proof (re_search_shape re_reviews _
    (fun i st' Hi => reviews_iff text i [] st' Hi) Hlen) as H.
  destruct (re_search re_reviews text) as [m|].
  - destruct H as (i & st' & (g & e & Hc & ->) & Hleft & ->).
    exists i, g, e. split; [exact Hc|]. split; [|reflexivity].
    intros i' g' e' Hc'. apply (Hleft i' (cur text e' [(1, (i', g'))])). eauto.
  - intros i g e Hc. apply (H i (cur text e [(1, (i, g))])). eauto.
Qed.

Lemma search_tenure :
  match re_search re_tenure text with
  | Some m =>
      exists i g e, tenure_at text i g e
        /\ (forall i' g' e', tenure_at text i' g' e' -> i <= i')
        /\ group m 1 = Some (substr text g e)
  | None => forall i g e, ~ tenure_at text i g e
  end.
Proof.
  assert (Hlen : forall i st',
    (exists g e, tenure_at text i g e /\ st' = cur text e [(1, (g, e))]) ->
    i <= length text).
  { intros i st' (g & e & (_ & _ & _ & Hg & Ha & _) & _).
    pose proof (all_in_bound _ _ _ _ Ha Hg). lia. }
  pose proof (re_search_shape re_tenure _
    (fun i st' _ => tenure_iff text i [] st') Hlen) as H.
  destruct (re_search re_tenure text) as [m|].
  - destruct H as (i & st' & (g & e & Hc & ->) & Hleft & ->).
    exists i, g, e. split; [exact Hc|]. split; [|reflexivity].
    intros i' g' e' Hc'. apply (Hleft i' (cur text e' [(1, (g', e'))])). eauto.
  - intros i g e Hc. apply (H i (cur text e [(1, (g, e))])). eauto.
Qed.

(** [extract_license_from_text] never raises. *)
Lemma extract_license_returns :
  exists code, extract_license_from_text text = Ret code.
Proof.
  unfold extract_license_from_text, group.
  destruct (re_search re_license_code text); [eexists; reflexivity|].
  destruct (re_search re_license_digits text); eexists; reflexivity.
Qed.

(** [parse_host_stats] returns, and what it returns. *)
Lemma parse_host_stats_spec (year_now : Z) :
  exists hs, parse_host_stats text year_now = Ret hs
    /\ rating_field text (stats_host_rating hs)
    /\ reviews_field text (stats_host_reviews_count hs)
    /\ years_field text year_now (stats_host_years hs).
Proof.
  unfold parse_host_stats, rating_field, reviews_field, years_field.
  pose proof search_rating as H1.
  pose proof search_reviews as H2.
  pose proof search_tenure as H3.
  destruct (re_search re_rating text) as [m1|];
    [destruct H1 as (i1 & g1 & e1 & Hat1 & Hl1 & ->)|];
  (destruct (re_search re_reviews text) as [m2|];
    [destruct H2 as (i2 & g2 & e2 & Hat2 & Hl2 & ->)|]);
  (destruct (re_search re_tenure text) as [m3|];
    [destruct H3 as (i3 & g3 & e3 & Hat3 & Hl3 & ->);
     assert (Hint : py_int (substr text g3 e3) = Ret (digits_value (substr text g3 e3)))
       by (destruct Hat3 as (_ & _ & _ & _ & _ & Hy & ->);
           apply py_int_digits; [lia | exact Hy]);
     simpl; rewrite Hint|]);
  simpl; eexists; (split; [reflexivity|]); simpl;
  repeat split; eauto 10.
Qed.

End Extractors.

(** ** Reasoning about computations *)

Section MonadFacts.

Lemma yields_mret {A} (a : A) (Q : A -> Prop) : Q a -> yields (mret a) Q.
Proof. intros H w. split; [reflexivity | exact H]. Qed.

Lemma yields_call {A} ev (o : outcome A) (Q : A -> Prop) :
  (forall a, o = Ret a -> Q a) -> yields (call ev o) Q.
Proof. intros H w. split; [reflexivity|]. simpl. destruct o; auto. Qed.

Lemma yields_bind {A B} (m : M A) (f : A -> M B) Q R :
  yields m Q -> (forall a, Q a -> yields (f a) R) -> yields (mbind_M m f) R.
Proof.
  intros Hm Hf w. unfold mbind_M. destruct (Hm w) as [Hr Hq].
  destruct (m w) as [[a|e] w']; simpl in *.
  - destruct (Hf a Hq w') as [Hr' Hq']. split; [congruence | exact Hq'].
  - split; [exact Hr | exact I].
Qed.

Lemma surely_mret {A} (a : A) (Q : A -> Prop) : Q a -> surely (mret a) Q.
Proof. intros H w. exists a, w. auto. Qed.

Lemma surely_call {A} ev (o : outcome A) (a : A) (Q : A -> Prop) :
  o = Ret a -> Q a -> surely (call ev o) Q.
Proof. intros -> H w. eexists a, _. split; [reflexivity|]. auto. Qed.

Lemma surely_lift {A} (o : outcome A) (a : A) (Q : A -> Prop) :
  o = Ret a -> Q a -> surely (lift o) Q.
Proof. intros -> H w. exists a, w. auto. Qed.

Lemma surely_bind {A B} (m : M A) (f : A -> M B) Q R :
  surely m Q -> (forall a, Q a -> surely (f a) R) -> surely (mbind_M m f) R.
Proof.
  intros Hm Hf w. unfold mbind_M.
  destruct (Hm w) as (a & w' & -> & Hr & Hq).
  destruct (Hf a Hq w') as (b & w'' & -> & Hr' & Hq').
  exists b, w''. split; [reflexivity|]. split; [congruence | exact Hq'].
Qed.

(** A block under [except Exception] with a handler that returns always
    returns. *)
Lemma surely_catch_any {A} (m h : M A) Q :
  yields m Q -> surely h Q -> surely (catch m any_exception h) Q.
Proof.
  intros Hm Hh w. unfold catch. destruct (Hm w) as [Hr Hq].
  destruct (m w) as [[a|e] w']; simpl in *.
  - exists a, w'. auto.
  - destruct (Hh w') as (b & w'' & -> & Hr' & Hq').
    exists b, w''. split; [reflexivity|]. split; [congruence | exact Hq'].
Qed.

Lemma surely_weaken {A} (m : M A) (Q R : A -> Prop) :
  surely m Q -> (forall a, Q a -> R a) -> surely m R.
Proof.
  intros Hm HQR w. destruct (Hm w) as (a & w' & E & Hr & Hq).
  exists a, w'. auto.
Qed.

Lemma surely_for_each {A} (l : list A) (body : A -> M unit) :
  (forall x, In x l -> surely (body x) (fun _ => True)) ->
  surely (for_each l body) (fun _ => True).
Proof.
  induction l as [|x l IH]; intros Hb; simpl.
  - apply surely_mret. exact I.
  - eapply surely_bind; [apply Hb; left; reflexivity|].
    intros _ _. apply IH. intros y Hy. apply Hb. right. exact Hy.
Qed.

End MonadFacts.

(** ** The listing detail extractor *)

Section ListingFacts.
Context {U : UnicodeDB}.
Variable clock : nat -> datetime.

Lemma surely_utcnow : surely (utcnow clock) (fun _ => True).
Proof. intros w. eexists _, w. split; [reflexivity|]. auto. Qed.

(** A guarded call: its answer, or the default. *)
Lemma surely_catch_call {A} ev (o : outcome A) (d : A) :
  surely (catch (call ev o) any_exception (mret d))
         (fun a => a = match o with Ret x => x | Raise _ => d end).
Proof.
  intros w. unfold catch, call, mret. destruct o as [x|e]; simpl;
    eexists _, _; (split; [reflexivity|]); auto.
Qed.

Lemma safe_inner_text_surely pg root sel :
  surely (safe_inner_text pg root sel) (fun _ => True).
Proof.
  unfold safe_inner_text. apply surely_catch_any; [|apply surely_mret; exact I].
  apply (yields_bind _ _ (fun _ => True)); [apply yields_call; auto|].
  intros n _. destruct (Nat.eqb n 0); [apply yields_mret; exact I|].
  apply (yields_bind _ _ (fun _ => True)); [apply yields_call; auto|].
  intros t _. apply yields_mret. exact I.
Qed.

Lemma click_more_buttons_surely pg :
  (forall label, In label more_labels ->
     exists n, pg_count pg (Css (ButtonHasText label)) = Ret n) ->
  pg_wait_for_timeout pg 500 = Ret tt ->
  surely (click_more_buttons pg) (fun _ => True).
Proof.
  intros Hcount Hwait. unfold click_more_buttons.
  apply (surely_bind _ _ (fun _ => True)).
  - apply surely_for_each. intros label Hl. destruct (Hcount label Hl) as [n Hn].
    apply (surely_bind _ _ (fun _ => True)).
    + eapply surely_call; [exact Hn | exact I].
    + intros c _. apply surely_for_each. intros i _.
      apply surely_catch_any; [apply yields_call; auto | apply surely_mret; exact I].
  - intros _ _. eapply surely_call; [exact Hwait | exact I].
Qed.

Lemma same_core_refl d : same_core d d.
Proof. repeat split. Qed.

Lemma read_host_section_surely pg sec data :
  surely (read_host_section pg sec data)
    (fun r => fst r = match pg_inner_text pg (First sec) with
                      | Ret t => t
                      | Raise _ => []
                      end
              /\ same_core data (snd r)).
Proof.
  unfold read_host_section.
  eapply surely_bind; [apply surely_catch_call|]. intros host_text ->.
  eapply surely_bind; [apply safe_inner_text_surely|]. intros name _.
  set (data1 := if negb (is_empty name) then set_host_name name data else data).
  assert (H1 : same_core data data1).
  { unfold data1. destruct (negb (is_empty name)); repeat split. }
  apply (surely_bind _ _ (same_core data)).
  - apply surely_catch_any; [|apply surely_mret; exact H1].
    apply (yields_bind _ _ (fun _ => True)); [apply yields_call; auto|].
    intros n _. destruct (Nat.ltb 0 n); [|apply yields_mret; exact H1].
    apply (yields_bind _ _ (fun _ => True)); [apply yields_call; auto|].
    intros [h|] _; [destruct (negb (is_empty h))|]; apply yields_mret; exact H1.
  - intros data2 H2. apply surely_mret. simpl. auto.
Qed.

Lemma find_host_section_surely pg data :
  (exists n, pg_count pg host_section_primary = Ret n) ->
  (exists n, pg_count pg host_section_secondary = Ret n) ->
  surely (find_host_section pg data)
    (fun r => fst r = captured_host_text pg /\ same_core data (snd r)).
Proof.
  intros [n1 H1] [n2 H2].
  unfold find_host_section, captured_host_text, located_host_section.
  rewrite H1, H2.
  apply (surely_bind _ _ (fun n => n = n1)).
  { eapply surely_call; [exact H1 | reflexivity]. }
  intros n ->. destruct n1 as [|n1]; simpl.
  - apply (surely_bind _ _ (fun n => n = n2)).
    { eapply surely_call; [exact H2 | reflexivity]. }
    intros n ->. destruct n2 as [|n2]; simpl.
    + apply surely_mret. simpl. split; [reflexivity | apply same_core_refl].
    + apply read_host_section_surely.
  - apply (surely_bind _ _ (fun n => n = S n1)).
    { eapply surely_call; [exact H1 | reflexivity]. }
    intros n ->. simpl. apply read_host_section_surely.
Qed.

Lemma host_fallback_surely pg data :
  surely (host_fallback pg data) (same_core data).
Proof.
  unfold host_fallback.
  destruct (is_empty (host_name data) || is_empty (host_url data));
    [|apply surely_mret; apply same_core_refl].
  apply surely_catch_any; [|apply surely_mret; apply same_core_refl].
  apply (yields_bind _ _ (fun _ => True)); [apply yields_call; auto|].
  intros href _.
  apply (yields_bind _ _ (fun _ => True)); [apply yields_call; auto|].
  intros text _. apply yields_mret.
  destruct href as [h|]; [destruct (negb (is_empty h))|];
    destruct (negb (is_empty text)); repeat split.
Qed.

Lemma merge_stats_blank stats d :
  host_rating d = [] -> host_reviews_count d = [] -> host_years d = [] ->
  stats_of (merge_stats stats d) = stats
  /\ listing_url (merge_stats stats d) = listing_url d
  /\ scraped_at (merge_stats stats d) = scraped_at d.
Proof.
  destruct d; simpl. intros -> -> ->.
  destruct stats as [[|a r] [|b v] [|c y]]; repeat split.
Qed.

(** Once the page has loaded and its unguarded calls answer,
    [extract_listing] completes the row, taking the statistics from the
    host-section text when it has any and from the page text otherwise. *)
Lemma extract_loaded_surely pg data :
  unguarded_calls_answer pg ->
  host_rating data = [] -> host_reviews_count data = [] -> host_years data = [] ->
  surely (extract_loaded clock pg data)
    (fun row =>
       listing_url row = listing_url data
       /\ scraped_at row = scraped_at data
       /\ exists today,
            parse_host_stats
              (if negb (is_empty (captured_host_text pg))
               then captured_host_text pg else captured_body_text pg)
              (dt_year today) = Ret (stats_of row)).
Proof.
  intros (Hbtn & Hwait & [t Ht] & Hp & Hs) Hr Hv Hy. unfold extract_loaded.
  eapply surely_bind; [apply click_more_buttons_surely; assumption|]. intros _ _.
  eapply surely_bind; [apply safe_inner_text_surely|]. intros title _.
  apply (surely_bind _ _ (fun _ => True)).
  { destruct (is_empty title); [eapply surely_call; [exact Ht | exact I]
                                | apply surely_mret; exact I]. }
  intros title' _.
  eapply surely_bind; [apply surely_catch_call|]. intros body ->.
  fold (captured_body_text pg).
  destruct (extract_license_returns (captured_body_text pg)) as (code & Hcode).
  eapply surely_bind; [eapply surely_lift; [exact Hcode | exact I]|]. intros code' _.
  eapply surely_bind; [apply find_host_section_surely; assumption|].
  intros [host_text data1] [Htext Hcore1]. simpl in Htext, Hcore1. subst host_text.
  eapply surely_bind; [apply host_fallback_surely|]. simpl.
  intros data2 Hcore2.
  intros w. destruct (surely_utcnow w) as (today & w1 & E1 & Hw1 & _).
  unfold mbind_M at 1. rewrite E1.
  destruct (parse_host_stats_spec
              (if negb (is_empty (captured_host_text pg))
               then captured_host_text pg else captured_body_text pg)
              (dt_year today)) as (stats & Hstats & _).
  unfold mbind_M, lift, mret. rewrite Hstats.
  destruct Hcore1 as (Hu1 & Hs1 & Hr1 & Hy1 & Hv1).
  destruct Hcore2 as (Hu2 & Hs2 & Hr2 & Hy2 & Hv2). simpl in *.
  destruct (merge_stats_blank stats data2) as (Hst & Hu & Hsc); try congruence.
  eexists _, w1. split; [reflexivity|]. split; [exact Hw1|].
  split; [congruence|]. split; [congruence|].
  exists today. rewrite Hst. exact Hstats.
Qed.

Lemma extract_listing_timeout pg url w :
  pg_goto pg url = Raise PlaywrightTimeoutError ->
  extract_listing clock pg url w
  = (Ret (initial_data url (clock (length (w_events w)))),
     {| w_events := w_events w ++ [EvGoto url]; w_results := w_results w |}).
Proof.
  intros H. unfold extract_listing, mbind_M, utcnow, catch, page_goto, call.
  simpl. rewrite H. reflexivity.
Qed.

Lemma extract_listing_loaded pg url :
  pg_goto pg url = Ret tt -> unguarded_calls_answer pg ->
  surely (extract_listing clock pg url)
    (fun row =>
       listing_url row = url
       /\ exists today,
            parse_host_stats
              (if negb (is_empty (captured_host_text pg))
               then captured_host_text pg else captured_body_text pg)
              (dt_year today) = Ret (stats_of row)).
Proof.
  intros Hgo Hun. unfold extract_listing.
  eapply surely_bind; [apply surely_utcnow|]. intros now _.
  apply (surely_bind _ _ (fun b => b = true)).
  { intros w. unfold catch, mbind_M, page_goto, call, mret. rewrite Hgo. simpl.
    eexists _, _. split; [reflexivity|]. auto. }
  intros b ->. simpl.
  eapply surely_weaken; [apply extract_loaded_surely; auto|].
  intros row (Hu & _ & Ht). split; [exact Hu | exact Ht].
Qed.

End ListingFacts.

(** ** The listing detail extractor: the claims *)

Section ListingClaims.
Context {U : UnicodeDB}.
Variable clock : nat -> datetime.

(** C10. Once the page has loaded, the three host statistics of the row are
    those [parse_host_stats] finds in the host-section text alone whenever a
    host section is located and its text is read and not empty (so a pattern
    absent from that text leaves its field empty, whatever the rest of the
    page says), and those it finds in the whole-page text when no host
    section is located or its text cannot be read or is empty. *)
Theorem host_stats_text_source pg url w :
  pg_goto pg url = Ret tt -> unguarded_calls_answer pg ->
  exists row w' today,
    extract_listing clock pg url w = (Ret row, w')
    /\ (forall sec t,
          located_host_section pg = Some sec ->
          pg_inner_text pg (First sec) = Ret t -> t <> [] ->
          parse_host_stats t (dt_year today) = Ret (stats_of row)
          /\ ((forall i g e, ~ rating_at t i g e) -> host_rating row = [])
          /\ ((forall i g e, ~ reviews_at t i g e) -> host_reviews_count row = [])
          /\ ((forall i g e, ~ tenure_at t i g e) -> host_years row = []))
    /\ (located_host_section pg = None
        \/ (exists sec, located_host_section pg = Some sec
              /\ (pg_inner_text pg (First sec) = Ret []
                  \/ exists e, pg_inner_text pg (First sec) = Raise e)) ->
        parse_host_stats (captured_body_text pg) (dt_year today)
        = Ret (stats_of row)).
Proof.
  intros Hgo Hun.
  destruct (extract_listing_loaded clock pg url Hgo Hun w)
    as (row & w' & E & _ & _ & today & Hp).
  exists row, w', today. split; [exact E|]. split.
  - intros sec t Hloc Ht Hne.
    unfold captured_host_text in Hp. rewrite Hloc, Ht in Hp.
    destruct t as [|c t]; [congruence|]. simpl in Hp.
    split; [exact Hp|].
    destruct (parse_host_stats_spec (c :: t) (dt_year today))
      as (hs & Hhs & Hr & Hv & Hy).
    rewrite Hhs in Hp. inversion Hp; subst hs; simpl in *.
    repeat split; intros Habs.
    + destruct Hr as [(i & g & e & Hat & _)|[_ ->]]; [destruct (Habs _ _ _ Hat)|reflexivity].
    + destruct Hv as [(i & g & e & Hat & _)|[_ ->]]; [destruct (Habs _ _ _ Hat)|reflexivity].
    + destruct Hy as [(i & g & e & Hat & _)|[_ ->]]; [destruct (Habs _ _ _ Hat)|reflexivity].
  - intros Hcase. unfold captured_host_text in Hp.
    destruct Hcase as [Hloc|(sec & Hloc & [Ht|[e Ht]])];
      rewrite Hloc in Hp; try rewrite Ht in Hp; exact Hp.
Qed.

End ListingClaims.

Section ListingCounterexamples.
Local Existing Instance latin1_db.



End ListingCounterexamples.

Section ListingExamples.
Local Existing Instance latin1_db.

Example extract_listing_sample :
  fst (extract_listing sample_clock page_name_in_section sample_url fresh_world)
  = Ret {| listing_url := sample_url;
           listing_title := utf8 "Loft lumineux";
           license_code := utf8 "1333701";
           host_url := utf8 "/users/show/99";
           host_name := utf8 "Jean";
           host_rating := utf8 "4.95";
           host_years := [];
           host_reviews_count := [];
           scraped_at := utf8 "2025-11-13T09:05:07" |}.
Proof. vm_compute. reflexivity. Qed.

End ListingExamples.

(** ** Discovery and deduplication *)

Section CrawlFacts.

Lemma split_head_app sep base q :
  sep ∉ base -> split_head sep (base ++ sep :: q) = base.
Proof.
  induction base as [|c base IH]; intros Hn; simpl.
  - unfold char_eqb. rewrite N.eqb_refl. reflexivity.
  - apply not_elem_of_cons in Hn as [Hne Hn].
    unfold char_eqb. destruct (N.eqb_spec c sep) as [->|_]; [congruence|].
    rewrite IH; auto.
Qed.

Lemma split_head_id sep base : sep ∉ base -> split_head sep base = base.
Proof.
  induction base as [|c base IH]; intros Hn; simpl; [reflexivity|].
  apply not_elem_of_cons in Hn as [Hne Hn].
  unfold char_eqb. destruct (N.eqb_spec c sep) as [->|_]; [congruence|].
  rewrite IH; auto.
Qed.

Lemma split_head_free sep h : sep ∉ split_head sep h.
Proof.
  induction h as [|c h IH]; simpl; [apply not_elem_of_nil|].
  unfold char_eqb. destruct (N.eqb_spec c sep) as [->|Hne]; [apply not_elem_of_nil|].
  apply not_elem_of_cons. split; [congruence | exact IH].
Qed.

(** Nothing in front of the first separator is lost. *)
Lemma split_head_cut sep h :
  h = split_head sep h \/ exists q, h = split_head sep h ++ sep :: q.
Proof.
  induction h as [|c h IH]; simpl; [left; reflexivity|].
  unfold char_eqb. destruct (N.eqb_spec c sep) as [->|Hne].
  - right. exists h. reflexivity.
  - destruct IH as [IH|[q IH]]; [left | right; exists q]; simpl; congruence.
Qed.

Lemma is_prefix_app p s t : is_prefix p s = true -> is_prefix p (s ++ t) = true.
Proof.
  revert s. induction p as [|a p IH]; intros [|b s] H; simpl in *;
    try reflexivity; try discriminate.
  apply andb_true_iff in H as [H1 H2]. rewrite H1. simpl. apply IH, H2.
Qed.

Lemma contains_app needle s t :
  contains needle s = true -> contains needle (s ++ t) = true.
Proof.
  induction s as [|c s IH]; simpl; intros H.
  - rewrite orb_false_r in H. destruct needle; [|discriminate].
    destruct t; reflexivity.
  - apply orb_true_iff in H as [H|H].
    + pose proof (is_prefix_app needle (c :: s) t H) as Hp. simpl in Hp.
      rewrite Hp. reflexivity.
    + rewrite (IH H). apply orb_true_r.
Qed.

(** *** Keeping the first occurrence of each key *)

Lemma first_seen_inv_step pre acc k :
  first_seen_inv pre acc ->
  first_seen_inv (pre ++ [k]) (if decide (k ∈ acc) then acc else acc ++ [k]).
Proof.
  intros (Hnd & Hel & Hord).
  assert (Hold : forall i j x y, acc !! i = Some x -> acc !! j = Some y -> i < j ->
            exists i', (pre ++ [k]) !! i' = Some x
                       /\ forall j', (pre ++ [k]) !! j' = Some y -> i' < j').
  { intros i j x y Hi Hj Hij. destruct (Hord i j x y Hi Hj Hij) as (i' & Hx & Hlt).
    exists i'. split; [apply lookup_app_l_Some; exact Hx|].
    intros j' Hj'. pose proof (lookup_lt_Some _ _ _ Hx) as Hb.
    destruct (Nat.lt_ge_cases j' (length pre)) as [Hl|Hl].
    - rewrite lookup_app_l in Hj' by exact Hl. auto.
    - lia. }
  destruct (decide (k ∈ acc)) as [Hin|Hnin].
  - split; [exact Hnd|]. split; [|exact Hold].
    intros x. rewrite elem_of_app, list_elem_of_singleton, <- Hel.
    split; [auto | intros [?| ->]; auto].
  - split; [|split].
    + apply NoDup_app. split; [exact Hnd|]. split; [|apply NoDup_singleton].
      intros x Hx Hx'. apply list_elem_of_singleton in Hx' as ->. auto.
    + intros x. rewrite !elem_of_app, Hel. reflexivity.
    + intros i j x y Hi Hj Hij.
      destruct (Nat.lt_ge_cases j (length acc)) as [Hl|Hl].
      * rewrite lookup_app_l in Hj by exact Hl.
        rewrite lookup_app_l in Hi by lia. eauto.
      * pose proof (lookup_lt_Some _ _ _ Hj) as Hb.
        rewrite length_app in Hb. simpl in Hb.
        assert (j = length acc) by lia. subst j.
        rewrite lookup_app_l in Hi by lia.
        rewrite list_lookup_middle in Hj by reflexivity. inversion Hj; subst y.
        assert (Hxp : x ∈ pre) by (apply Hel; eapply list_elem_of_lookup_2; eauto).
        apply list_elem_of_lookup in Hxp as [i' Hi'].
        exists i'. split; [apply lookup_app_l_Some; exact Hi'|].
        intros j' Hj'. pose proof (lookup_lt_Some _ _ _ Hi') as Hbi.
        destruct (Nat.lt_ge_cases j' (length pre)) as [Hlj|Hlj]; [|lia].
        rewrite lookup_app_l in Hj' by exact Hlj.
        exfalso. apply Hnin, Hel. eapply list_elem_of_lookup_2; eauto.
Qed.

Lemma first_seen_inv_fold l : forall pre acc,
  first_seen_inv pre acc ->
  first_seen_inv (pre ++ l)
    (foldl (fun acc k => if decide (k ∈ acc) then acc else acc ++ [k]) acc l).
Proof.
  induction l as [|k l IH]; intros pre acc H; simpl.
  - rewrite app_nil_r. exact H.
  - replace (pre ++ k :: l) with ((pre ++ [k]) ++ l) by (rewrite <- app_assoc; reflexivity).
    apply IH, first_seen_inv_step, H.
Qed.

Lemma keep_first_seen_fold_nodup (l : list str) : forall acc : list str,
  NoDup (acc ++ l) ->
  foldl (fun acc k => if decide (k ∈ acc) then acc else acc ++ [k]) acc l = acc ++ l.
Proof.
  induction l as [|k l IH]; intros acc Hnd; simpl; [rewrite app_nil_r; reflexivity|].
  destruct (decide (k ∈ acc)) as [Hin|_].
  - apply NoDup_app in Hnd as (_ & Hdis & _). destruct (Hdis k Hin). left.
  - rewrite IH; rewrite <- app_assoc; [reflexivity | exact Hnd].
Qed.

(** A list without duplicates is left as it is. *)
Lemma keep_first_seen_nodup l : NoDup l -> keep_first_seen l = l.
Proof. intros H. apply (keep_first_seen_fold_nodup l []). exact H. Qed.

Lemma keep_first_seen_spec l :
  NoDup (keep_first_seen l)
  /\ (forall x, x ∈ keep_first_seen l <-> x ∈ l)
  /\ first_seen_order l (keep_first_seen l).
Proof.
  apply (first_seen_inv_fold l [] []).
  split; [apply NoDup_nil_2|]. split; [reflexivity|].
  intros i j x y Hi. rewrite lookup_nil in Hi. discriminate.
Qed.

(** *** One harvest *)

Lemma harvest_spec hrefs : forall seen u,
  u ∈ harvest seen hrefs <->
  u ∈ seen \/ exists h, h ∈ hrefs /\ contains rooms_marker h = true /\ u = normalize h.
Proof.
  unfold harvest. induction hrefs as [|h hrefs IH]; intros seen u; simpl.
  - split; [auto | intros [?|(h & Hh & _)]; [auto | inversion Hh]].
  - rewrite IH. split.
    + intros [Hu|(h' & Hh' & Hc & ->)].
      * destruct (contains rooms_marker h) eqn:Hc; [|auto].
        apply elem_of_union in Hu as [Hu|Hu]; [auto|].
        apply elem_of_singleton in Hu as ->. right. exists h.
        split; [left|]; auto.
      * right. exists h'. split; [right|]; auto.
    + intros [Hu|(h' & Hh' & Hc & ->)].
      * left. destruct (contains rooms_marker h); [apply elem_of_union; auto | auto].
      * apply elem_of_cons in Hh' as [->|Hh'].
        -- left. rewrite Hc. apply elem_of_union. right. apply elem_of_singleton. reflexivity.
        -- right. exists h'. auto.
Qed.

Lemma harvest_again seen hrefs :
  harvest (harvest seen hrefs) hrefs = harvest seen hrefs.
Proof.
  apply set_eq. intros u. rewrite !harvest_spec. tauto.
Qed.

(** Anchors that all lead to one listing add one URL. *)
Lemma harvest_one_listing base seen hrefs :
  hrefs <> [] ->
  (forall h, h ∈ hrefs -> contains rooms_marker h = true /\ normalize h = base) ->
  harvest seen hrefs = seen ∪ {[ base ]}.
Proof.
  intros Hne Hall. apply set_eq. intros u.
  rewrite harvest_spec, elem_of_union, elem_of_singleton. split.
  - intros [Hu|(h & Hh & _ & ->)]; [auto|]. right. apply Hall, Hh.
  - intros [Hu| ->]; [auto|]. right.
    destruct hrefs as [|h hrefs]; [congruence|].
    exists h. destruct (Hall h ltac:(left)) as [Hc Hn]. split; [left | auto].
Qed.

(** A page that always shows the same anchors yields nothing new after the
    first harvest. *)
Lemma seen_after_const (a : list str) k :
  seen_after (fun _ => a) k = harvest ∅ (js_array_from_set a).
Proof.
  induction k as [|k IH]; [reflexivity|].
  change (seen_after (fun _ => a) (S k))
    with (harvest (seen_after (fun _ => a) k) (js_array_from_set a)).
  rewrite IH. apply harvest_again.
Qed.

Lemma py_slice_until_spec n (l : list str) :
  (0 <= n)%Z ->
  (Z.of_nat (length (py_slice_until n l)) <= n)%Z
  /\ (NoDup l -> NoDup (py_slice_until n l))
  /\ (forall x, x ∈ py_slice_until n l -> x ∈ l)
  /\ ((n <= Z.of_nat (length l))%Z -> Z.of_nat (length (py_slice_until n l)) = n).
Proof.
  intros Hn. unfold py_slice_until.
  destruct (Z.leb_spec 0 n) as [_|]; [|lia].
  rewrite length_take. repeat split.
  - lia.
  - intros Hnd. eapply sublist_NoDup; [exact Hnd | apply sublist_take].
  - intros x Hx. apply elem_of_take in Hx as (i & Hi & _).
    eapply list_elem_of_lookup_2; eauto.
  - intros Hle. lia.
Qed.

(** *** One turn of the loop *)

Variable cap : Z.

Lemma scroll_pass_inv sp k seen last w ctl w' :
  scroll_pass cap sp k seen last w = (Ret ctl, w') ->
  exists anchors,
    sp_anchor_hrefs sp k = Ret anchors
    /\ (ctl = Break (harvest seen (js_array_from_set anchors))
        \/ exists h, sp_scroll_height sp k = Ret h
             /\ ctl = Continue (harvest seen (js_array_from_set anchors)) (Z.of_N h)).
Proof.
  unfold scroll_pass, mbind_M, call, mret. simpl.
  destruct (sp_anchor_hrefs sp k) as [anchors|e]; [|discriminate].
  intros H. exists anchors. split; [reflexivity|].
  destruct (cap <=? _)%Z; [inversion H; auto|]. simpl in H.
  destruct (sp_wheel sp k); [|discriminate]. simpl in H.
  destruct (sp_wait_for_timeout sp k); [|discriminate]. simpl in H.
  destruct (sp_scroll_height sp k) as [h|]; [|discriminate]. simpl in H.
  destruct (Z.of_N h =? last)%Z; inversion H; eauto.
Qed.

Lemma scroll_pass_answers sp k seen last w anchors h :
  sp_anchor_hrefs sp k = Ret anchors ->
  sp_wheel sp k = Ret tt ->
  sp_wait_for_timeout sp k = Ret tt ->
  sp_scroll_height sp k = Ret h ->
  let seen' := harvest seen (js_array_from_set anchors) in
  scroll_pass cap sp k seen last w =
  if (cap <=? Z.of_nat (size seen'))%Z
  then (Ret (Break seen'), after w [ev_harvest])
  else (Ret (if (Z.of_N h =? last)%Z then Break seen'
             else Continue seen' (Z.of_N h)),
        after w [ev_harvest; EvWheel 0 1500; EvWaitForTimeout 1000; EvScrollHeight]).
Proof.
  intros Ha Hw Ht Hh. unfold scroll_pass, mbind_M, call, mret, after. simpl.
  rewrite Ha. destruct (cap <=? _)%Z; [reflexivity|].
  simpl. rewrite Hw. simpl. rewrite Ht. simpl. rewrite Hh. simpl.
  rewrite <- !app_assoc. simpl.
  destruct (Z.of_N h =? last)%Z; reflexivity.
Qed.

Lemma scroll_loop_unfold fuel sp k seen last w :
  scroll_loop cap (S fuel) sp k seen last w =
  match scroll_pass cap sp k seen last w with
  | (Ret (Break seen'), w') => (Ret (Some seen'), w')
  | (Ret (Continue seen' last'), w') => scroll_loop cap fuel sp (S k) seen' last' w'
  | (Raise e, w') => (Raise e, w')
  end.
Proof.
  simpl. unfold mbind_M. destruct (scroll_pass cap sp k seen last w) as [[[s|s h]|e] w'];
    reflexivity.
Qed.

(** Whatever the loop returns was discovered on the page. *)
Lemma scroll_loop_discovered sp fuel : forall k seen last w s w',
  (forall u, u ∈ seen -> discovered sp u) ->
  scroll_loop cap fuel sp k seen last w = (Ret (Some s), w') ->
  forall u, u ∈ s -> discovered sp u.
Proof.
  induction fuel as [|fuel IH]; intros k seen last w s w' Hseen H; [discriminate|].
  rewrite scroll_loop_unfold in H.
  destruct (scroll_pass cap sp k seen last w) as [[ctl|e] w1] eqn:E; [|discriminate].
  apply scroll_pass_inv in E as (anchors & Ha & Hctl).
  assert (Hseen' : forall u, u ∈ harvest seen (js_array_from_set anchors) ->
                             discovered sp u).
  { intros u Hu. apply harvest_spec in Hu as [Hu|(h & Hh & Hc & ->)]; [auto|].
    exists k, anchors, h. repeat split; auto.
    apply (keep_first_seen_spec anchors). exact Hh. }
  destruct Hctl as [->|(h & _ & ->)].
  - inversion H; subst. exact Hseen'.
  - eapply IH; eauto.
Qed.

(** Equal heights at two successive reads stop the loop, if nothing did
    before. *)
Lemma scroll_loop_stops_at sp K seen last w a :
  sp_scroll_height sp K = Ret a -> last = Z.of_N a ->
  (forall b, sp_scroll_height sp (S K) = Ret b -> b = a) ->
  fst (scroll_loop cap 1 sp (S K) seen last w) <> Ret None.
Proof.
  intros Ha -> Hsame. rewrite scroll_loop_unfold.
  destruct (scroll_pass cap sp (S K) seen (Z.of_N a) w) as [[ctl|e] w1] eqn:E;
    [|simpl; discriminate].
  pose proof E as E'. apply scroll_pass_inv in E' as (anchors & Hanch & Hctl).
  destruct Hctl as [->|(b & Hb & ->)]; [simpl; discriminate|].
  exfalso. revert E. unfold scroll_pass, mbind_M, call, mret. simpl.
  rewrite Hanch. destruct (cap <=? _)%Z; [discriminate|]. simpl.
  destruct (sp_wheel sp (S K)); [|discriminate]. simpl.
  destruct (sp_wait_for_timeout sp (S K)); [|discriminate]. simpl.
  rewrite Hb. simpl. rewrite (Hsame b Hb), Z.eqb_refl. discriminate.
Qed.

Lemma scroll_loop_terminates sp K :
  (forall a b, sp_scroll_height sp K = Ret a -> sp_scroll_height sp (S K) = Ret b ->
               b = a) ->
  forall d k, k + d = K ->
  forall seen last w, fst (scroll_loop cap (d + 2) sp k seen last w) <> Ret None.
Proof.
  intros Hsame. induction d as [|d IH]; intros k Hk seen last w.
  - rewrite Nat.add_0_r in Hk. subst k. simpl Nat.add. rewrite scroll_loop_unfold.
    destruct (scroll_pass cap sp K seen last w) as [[ctl|e] w1] eqn:E;
      [|simpl; discriminate].
    apply scroll_pass_inv in E as (anchors & _ & Hctl).
    destruct Hctl as [->|(a & Ha & ->)]; [simpl; discriminate|].
    eapply scroll_loop_stops_at; eauto.
  - change (S d + 2) with (S (d + 2)). rewrite scroll_loop_unfold.
    destruct (scroll_pass cap sp k seen last w) as [[[s|s h]|e] w1];
      try (simpl; discriminate).
    apply IH. lia.
Qed.

Lemma height_checks_after w evs :
  height_checks (w_events (after w evs))
  = height_checks (w_events w) + height_checks evs.
Proof. unfold height_checks, after. simpl. rewrite List.filter_app, length_app. reflexivity. Qed.

Lemma scrolls_after w evs :
  scrolls (w_events (after w evs)) = scrolls (w_events w) + scrolls evs.
Proof. unfold scrolls, after. simpl. rewrite List.filter_app, length_app. reflexivity. Qed.

(** The run of the loop on a page that answers, stays below the cap and
    whose height read after scroll [n + 1] is the first to repeat the one
    before it. *)
Lemma scroll_loop_run sp url anchors height n :
  page_answers sp url anchors height ->
  1 <= n ->
  (forall k, 1 <= k < n -> height (S k) <> height k) ->
  height (S n) = height n ->
  (forall k, k <= n -> (Z.of_nat (size (seen_after anchors k)) < cap)%Z) ->
  forall d k, k + d = n ->
  forall fuel w, d + 1 <= fuel ->
  exists w',
    scroll_loop cap fuel sp k
      (match k with 0 => ∅ | S k' => seen_after anchors k' end)
      (match k with 0 => (-1)%Z | S _ => Z.of_N (height k) end) w
    = (Ret (Some (seen_after anchors n)), w')
    /\ w_results w' = w_results w
    /\ height_checks (w_events w') = height_checks (w_events w) + (d + 1)
    /\ scrolls (w_events w') = scrolls (w_events w) + (d + 1).
Proof.
  intros [_ Hans] Hn Hchg Hstop Hcap.
  induction d as [|d IH]; intros k Hk fuel w Hfuel;
    (destruct fuel as [|fuel]; [lia|]);
    destruct (Hans k) as (Ha & Hw & Ht & Hh);
    rewrite scroll_loop_unfold, (scroll_pass_answers sp k _ _ w _ _ Ha Hw Ht Hh);
    assert (Hseen : harvest (match k with 0 => ∅ | S k' => seen_after anchors k' end)
                      (js_array_from_set (anchors k)) = seen_after anchors k)
      by (destruct k; reflexivity);
    rewrite Hseen;
    (destruct (Z.leb_spec cap (Z.of_nat (size (seen_after anchors k))))
       as [Hge|_]; [specialize (Hcap k ltac:(lia)); lia|]).
  - assert (k = n) by lia. subst k. destruct n as [|n]; [lia|].
    rewrite Hstop, Z.eqb_refl.
    eexists. split; [reflexivity|]. split; [reflexivity|].
    rewrite height_checks_after, scrolls_after. split; reflexivity.
  - assert (Hne : (Z.of_N (height (S k)) =?
                   match k with O => (-1)%Z | S _ => Z.of_N (height k) end)%Z = false).
    { apply Z.eqb_neq. destruct k as [|k]; [lia|].
      intros Heq. apply N2Z.inj in Heq. apply (Hchg (S k)); [lia | exact Heq]. }
    rewrite Hne.
    destruct (IH (S k) ltac:(lia) fuel
                (after w [ev_harvest; EvWheel 0 1500; EvWaitForTimeout 1000;
                          EvScrollHeight]) ltac:(lia))
      as (w' & E & Hr & Hc & Hs).
    exists w'. split; [exact E|]. split; [exact Hr|].
    rewrite height_checks_after in Hc. rewrite scrolls_after in Hs.
    cbv [height_checks scrolls List.filter is_height_check is_scroll ev_harvest length]
      in Hc, Hs |- *.
    split; lia.
Qed.

Lemma collect_unfold fuel sp url w :
  sp_goto sp url = Ret tt ->
  collect_listing_urls cap fuel sp url w =
  match scroll_loop cap fuel sp 0 ∅ (-1)%Z (after w [EvGoto url]) with
  | (Ret found, w') =>
      (Ret (option_map (fun seen => py_slice_until cap (elements seen)) found), w')
  | (Raise e, w') => (Raise e, w')
  end.
Proof.
  intros Hgo. unfold collect_listing_urls, mbind_M at 1, call. rewrite Hgo.
  unfold mbind_M, mret, after.
  destruct (scroll_loop cap fuel sp 0 ∅ (-1)%Z _) as [[found|e] w']; reflexivity.
Qed.

Lemma collect_inv fuel sp url w l w' :
  collect_listing_urls cap fuel sp url w = (Ret (Some l), w') ->
  exists seen w1,
    scroll_loop cap fuel sp 0 ∅ (-1)%Z w1 = (Ret (Some seen), w')
    /\ l = py_slice_until cap (elements seen).
Proof.
  unfold collect_listing_urls, mbind_M at 1, call.
  destruct (sp_goto sp url); [|discriminate].
  unfold mbind_M, mret.
  match goal with |- context [scroll_loop cap fuel sp 0 ∅ (-1)%Z ?w0] =>
    destruct (scroll_loop cap fuel sp 0 ∅ (-1)%Z w0) as [[[seen|]|e] w1] eqn:E
  end; simpl; intros H; inversion H; subst. eauto.
Qed.

End CrawlFacts.

(** ** Discovery and deduplication: the claims *)

Section CrawlClaims.

(** C4, as amended.  With a cap that is not negative, whatever
    [collect_listing_urls] returns is a list of at most MAX_LISTINGS_PER_SEARCH
    distinct normalized URLs of listing anchors of the page; and when the
    first harvest alone yields at least the cap of distinct normalized URLs
    (distinct anchors need not be that many URLs), it returns exactly the cap
    of distinct URLs after the navigation and that one harvest, without any
    scroll. *)
Theorem discovery_cap (cap : Z) (sp : SearchPage) (url : str) :
  (0 <= cap)%Z ->
  (forall fuel w l w',
     collect_listing_urls cap fuel sp url w = (Ret (Some l), w') ->
     (Z.of_nat (length l) <= cap)%Z /\ NoDup l
     /\ forall u, u ∈ l -> discovered sp u /\ (63%N ∉ u))
  /\ (forall anchors,
        sp_goto sp url = Ret tt ->
        sp_anchor_hrefs sp 0 = Ret anchors ->
        (cap <= Z.of_nat (size (harvest ∅ (js_array_from_set anchors))))%Z ->
        forall fuel w, exists l,
          collect_listing_urls cap (S fuel) sp url w
          = (Ret (Some l), after w [EvGoto url; ev_harvest])
          /\ Z.of_nat (length l) = cap /\ NoDup l
          /\ scrolls (w_events (after w [EvGoto url; ev_harvest]))
             = scrolls (w_events w)).
Proof.
  intros Hcap. split.
  - intros fuel w l w' H. apply collect_inv in H as (seen & w1 & Hloop & ->).
    destruct (py_slice_until_spec cap (elements seen) Hcap) as (Hlen & Hnd & Hin & _).
    split; [exact Hlen|]. split; [apply Hnd, NoDup_elements|].
    intros u Hu. apply Hin, elem_of_elements in Hu.
    assert (Hd : discovered sp u).
    { eapply scroll_loop_discovered; [|exact Hloop|exact Hu].
      intros u0 Hu0. apply not_elem_of_empty in Hu0. destruct Hu0. }
    split; [exact Hd|]. destruct Hd as (k & anchors & h & _ & _ & _ & ->).
    apply split_head_free.
  - intros anchors Hgo Ha Hsize fuel w.
    rewrite (collect_unfold cap (S fuel) sp url w Hgo), scroll_loop_unfold.
    unfold scroll_pass, mbind_M at 1, call. simpl. rewrite Ha. simpl.
    destruct (Z.leb_spec cap (Z.of_nat (size (harvest ∅ (js_array_from_set anchors)))))
      as [_|Hlt]; [|lia].
    unfold mret, after. simpl. rewrite <- app_assoc. simpl.
    eexists. split; [reflexivity|].
    destruct (py_slice_until_spec cap
                (elements (harvest ∅ (js_array_from_set anchors))) Hcap)
      as (_ & Hnd & _ & Heq).
    split; [apply Heq; exact Hsize|]. split; [apply Hnd, NoDup_elements|].
    unfold scrolls. rewrite List.filter_app, length_app. simpl. lia.
Qed.

(** C5, as amended.  On a page that answers and whose height stops changing
    after N scrolls while fewer than the cap have been found, the loop is
    left at height check number max(N, 1) + 1: the (N+1)-th for N at least 1,
    the second for a page whose height never changes, since the first reading
    is compared with the initial -1.  And on any page, two equal successive
    readings of the height bound the number of turns of the loop. *)
Theorem convergence_stop (cap : Z) (sp : SearchPage) (url : str)
    (anchors : nat -> list str) (height : nat -> N) (n : nat) :
  page_answers sp url anchors height ->
  stops_changing_after height n ->
  (forall k, k <= Nat.max n 1 ->
     (Z.of_nat (size (seen_after anchors k)) < cap)%Z) ->
  (forall fuel w, Nat.max n 1 + 1 <= fuel ->
     exists l w',
       collect_listing_urls cap fuel sp url w = (Ret (Some l), w')
       /\ height_checks (w_events w')
          = height_checks (w_events w) + (Nat.max n 1 + 1))
  /\ (forall (sp' : SearchPage) K w,
        (forall a b, sp_scroll_height sp' K = Ret a ->
                     sp_scroll_height sp' (S K) = Ret b -> b = a) ->
        fst (collect_listing_urls cap (K + 2) sp' url w) <> Ret None).
Proof.
  intros Hans [Hchg Hstop] Hbelow. split.
  - intros fuel w Hfuel.
    destruct (scroll_loop_run cap sp url anchors height (Nat.max n 1) Hans)
      with (d := Nat.max n 1) (k := 0) (fuel := fuel) (w := after w [EvGoto url])
      as (w' & E & _ & Hc & _); try lia.
    { intros k Hk. apply Hchg. lia. }
    { apply Hstop. lia. }
    { exact Hbelow. }
    rewrite (collect_unfold cap fuel sp url w (proj1 Hans)), E.
    eexists _, w'. split; [reflexivity|].
    rewrite Hc, height_checks_after. cbv [height_checks List.filter is_height_check length].
    lia.
  - intros sp' K w Hsame.
    unfold collect_listing_urls, mbind_M at 1, call.
    destruct (sp_goto sp' url); [|simpl; discriminate].
    unfold mbind_M, mret.
    match goal with |- context [scroll_loop cap (K + 2) sp' 0 ∅ (-1)%Z ?w0] =>
      pose proof (scroll_loop_terminates cap sp' K Hsame K 0 ltac:(lia) ∅ (-1)%Z w0) as Ht;
      destruct (scroll_loop cap (K + 2) sp' 0 ∅ (-1)%Z w0) as [[[seen|]|e] w1]
    end; simpl in *; congruence.
Qed.

(** C9, as amended.  Normalization keeps what stands before the first
    question mark and nothing after it: two hrefs map to the same URL
    exactly when they agree up to their first question mark.  So listing
    hrefs made of one base without question mark, alone or followed by a
    query string, are one URL: one element of the discovery set, and one
    entry of the orchestrator's list.  The orchestrator's deduplication
    keeps each URL once, at the place of its first occurrence. *)
Theorem query_stripping_and_dedup (base q1 q2 : str) (l : list str) :
  63%N ∉ base -> contains rooms_marker base = true ->
  (normalize (base ++ 63%N :: q1) = base
   /\ normalize (base ++ 63%N :: q2) = base
   /\ normalize base = base)
  /\ harvest ∅ [base ++ 63%N :: q1; base; base ++ 63%N :: q2] = {[ base ]}
  /\ dict_fromkeys_list
       [normalize (base ++ 63%N :: q1); normalize (base ++ 63%N :: q2)] = [base]
  /\ (forall h, (63%N ∉ normalize h)
                /\ (h = normalize h \/ exists q, h = normalize h ++ 63%N :: q))
  /\ (NoDup (dict_fromkeys_list l)
      /\ (forall x, x ∈ dict_fromkeys_list l <-> x ∈ l)
      /\ first_seen_order l (dict_fromkeys_list l))
  /\ (forall h1 h2,
        normalize h1 = normalize h2 <->
        exists b, (63%N ∉ b)
          /\ (h1 = b \/ exists q, h1 = b ++ 63%N :: q)
          /\ (h2 = b \/ exists q, h2 = b ++ 63%N :: q)).
Proof.
  intros Hfree Hrooms.
  assert (H1 : forall q, normalize (base ++ 63%N :: q) = base)
    by (intros q; apply split_head_app; exact Hfree).
  assert (H0 : normalize base = base) by (apply split_head_id; exact Hfree).
  split; [auto|]. split; [|split; [|split; [|split]]].
  - unfold harvest. simpl.
    rewrite !(contains_app _ base _ Hrooms), Hrooms, !H1, H0.
    apply set_eq. intros u. rewrite !elem_of_union, elem_of_empty. tauto.
  - unfold dict_fromkeys_list, keep_first_seen. simpl. rewrite !H1.
    destruct (decide (base ∈ [])) as [Hin|_]; [inversion Hin|]. simpl.
    destruct (decide (base ∈ [base])) as [_|Hn]; [reflexivity|].
    exfalso. apply Hn. left.
  - intros h. split; [apply split_head_free | apply split_head_cut].
  - apply keep_first_seen_spec.
  - intros h1 h2. unfold normalize. split.
    + intros E. exists (split_head 63 h1).
      split; [apply split_head_free|]. split; [apply split_head_cut|].
      rewrite E. apply split_head_cut.
    + intros (b & Hb & [->|[q1' ->]] & [->|[q2' ->]]);
        rewrite ?(split_head_app 63 b _ Hb), ?(split_head_id 63 b Hb);
        reflexivity.
Qed.

End CrawlClaims.

Section CrawlCounterexamples.

Lemma listing_anchor_inj n m : listing_anchor n = listing_anchor m -> n = m.
Proof.
  unfold listing_anchor. intros H. apply app_inv_head in H.
  apply (f_equal length) in H. simpl in H. rewrite !List.repeat_length in H. lia.
Qed.

Lemma listing_anchor_listing n :
  contains rooms_marker (listing_anchor n) = true
  /\ normalize (listing_anchor n) = sample_listing_base.
Proof.
  unfold listing_anchor. split.
  - apply contains_app. reflexivity.
  - apply split_head_app.
    apply (bool_decide_unpack (63%N ∉ sample_listing_base)). vm_compute. exact I.
Qed.

Lemma one_listing_anchors_nodup : NoDup one_listing_anchors.
Proof.
  unfold one_listing_anchors. apply NoDup_fmap_2_strong; [|apply NoDup_seq].
  intros n m _ _. apply listing_anchor_inj.
Qed.

Lemma one_listing_harvest seen :
  harvest seen (js_array_from_set one_listing_anchors) = seen ∪ {[ sample_listing_base ]}.
Proof.
  unfold js_array_from_set. rewrite (keep_first_seen_nodup _ one_listing_anchors_nodup).
  apply harvest_one_listing; [discriminate|].
  intros h Hh. apply list_elem_of_fmap in Hh as (n & -> & _).
  apply listing_anchor_listing.
Qed.

(** C4, the claim as stated fails: the first harvest of this page yields two
    hundred distinct listing anchors, the default cap, yet they are one
    listing; the crawler scrolls twice and returns one URL. *)
Lemma anchors_are_not_listings :
  sp_anchor_hrefs page_one_listing 0 = Ret one_listing_anchors
  /\ NoDup one_listing_anchors
  /\ length (List.filter (contains rooms_marker)
               (js_array_from_set one_listing_anchors)) = 200
  /\ exists w',
       collect_listing_urls MAX_LISTINGS_PER_SEARCH_default 3 page_one_listing
         sample_search_url fresh_world
       = (Ret (Some [sample_listing_base]), w')
       /\ scrolls (w_events w') = 2.
Proof.
  split; [reflexivity|]. split; [apply one_listing_anchors_nodup|]. split.
  - unfold js_array_from_set.
    rewrite (keep_first_seen_nodup _ one_listing_anchors_nodup).
    rewrite (List.forallb_filter_id (contains rooms_marker) one_listing_anchors).
    + unfold one_listing_anchors. rewrite length_fmap, length_seq. reflexivity.
    + apply forallb_forall. intros h Hh.
      apply list_elem_of_In, list_elem_of_fmap in Hh as (n & -> & _).
      apply listing_anchor_listing.
  - assert (Hseen : forall k, seen_after (fun _ => one_listing_anchors) k
                              = {[ sample_listing_base ]}).
    { intros k. rewrite seen_after_const, one_listing_harvest.
      apply set_eq. intros u. rewrite elem_of_union, elem_of_empty. tauto. }
    destruct (scroll_loop_run MAX_LISTINGS_PER_SEARCH_default page_one_listing
                sample_search_url (fun _ => one_listing_anchors) (fun _ => 1000%N) 1)
      with (d := 1) (k := 0) (fuel := 3)
           (w := after fresh_world [EvGoto sample_search_url])
      as (w' & E & _ & _ & Hs); try lia; try reflexivity.
    { split; [reflexivity | intros k; repeat split]. }
    { intros k _. rewrite Hseen, size_singleton. reflexivity. }
    exists w'.
    rewrite (collect_unfold _ 3 page_one_listing sample_search_url fresh_world eq_refl), E.
    rewrite Hseen. cbn [option_map]. rewrite elements_singleton.
    split; [reflexivity|]. exact Hs.
Qed.

(** C5, the claim as stated fails for N = 0: the height of this page never
    changes and fewer than the cap are found, yet the loop is left at the
    second height check, not the first. *)
Lemma static_page_second_check :
  page_answers page_static sample_search_url (fun _ => two_listing_anchors)
    (fun _ => 1000%N)
  /\ stops_changing_after (fun _ => 1000%N) 0
  /\ (forall k, (Z.of_nat (size (seen_after (fun _ => two_listing_anchors) k))
                 < MAX_LISTINGS_PER_SEARCH_default)%Z)
  /\ exists l w',
       collect_listing_urls MAX_LISTINGS_PER_SEARCH_default 5 page_static
         sample_search_url fresh_world = (Ret (Some l), w')
       /\ height_checks (w_events w') = 2
       /\ height_checks (w_events w') <> 0 + 1.
Proof.
  split; [split; [reflexivity | intros k; repeat split]|].
  split; [split; [intros k Hk; lia | reflexivity]|].
  split.
  - intros k. rewrite seen_after_const. vm_compute. reflexivity.
  - eexists _, _. split; [vm_compute; reflexivity|]. split; [reflexivity | discriminate].
Qed.

(** C9, the claim as stated fails: these two hrefs differ only in their
    query parameters, the first having none, yet the fragment of the first
    is kept while that of the second goes with its query; they are two URLs
    and two elements of the discovery set. *)
Lemma fragment_defeats_query_stripping :
  normalize (sample_listing_base ++ utf8 "#reviews")
  = sample_listing_base ++ utf8 "#reviews"
  /\ normalize (sample_listing_base ++ utf8 "?adults=2" ++ utf8 "#reviews")
     = sample_listing_base
  /\ normalize (sample_listing_base ++ utf8 "#reviews")
     <> normalize (sample_listing_base ++ utf8 "?adults=2" ++ utf8 "#reviews")
  /\ size (harvest ∅ [sample_listing_base ++ utf8 "#reviews";
                      sample_listing_base ++ utf8 "?adults=2" ++ utf8 "#reviews"])
     = 2.
Proof.
  split; [reflexivity|]. split; [reflexivity|].
  split; [vm_compute; discriminate|].
  vm_compute. reflexivity.
Qed.

End CrawlCounterexamples.

(** ** The semaphore *)

Section SchedulingFacts.

Lemma count_if_insert f (l : list task) i t t' :
  l !! i = Some t ->
  count_if f (<[i := t']> l) + (if f t then 1 else 0)
  = count_if f l + (if f t' then 1 else 0).
Proof.
  unfold count_if. revert i. induction l as [|a l IH]; intros [|i] H; simpl in *;
    try discriminate.
  - inversion H; subst. destruct (f t), (f t'); simpl; lia.
  - specialize (IH i H). destruct (f a); simpl; lia.
Qed.

Lemma count_if_le f g (l : list task) :
  (forall t, f t = true -> g t = true) -> count_if f l <= count_if g l.
Proof.
  intros Hfg. unfold count_if. induction l as [|a l IH]; simpl; [lia|].
  destruct (f a) eqn:Hf.
  - rewrite (Hfg a Hf). simpl. lia.
  - destruct (g a); simpl; lia.
Qed.

Lemma count_if_waiting f n : f Waiting = false -> count_if f (repeat Waiting n) = 0.
Proof.
  intros Hf. unfold count_if. induction n as [|n IH]; simpl; [reflexivity|].
  rewrite Hf. exact IH.
Qed.

(** Slots are conserved: those held and those free add up to the initial
    value of the semaphore. *)
Lemma step_conserves_slots st st' :
  step st st' ->
  sem_value st' + slots_held st' = sem_value st + slots_held st.
Proof.
  unfold slots_held.
  destruct 1 as [st i Hi Hfree|st i Hi|st i Hi|st i Hi|st i Hi]; simpl;
    match goal with
    | |- context [<[i := ?t']> (tasks st)] =>
        pose proof (count_if_insert holds_slot (tasks st) i _ t' Hi) as Hc
    end; simpl in Hc; lia.
Qed.

Lemma reachable_conserves_slots cap workers st :
  reachable_from (start_pool cap workers) st ->
  sem_value st + slots_held st = cap.
Proof.
  induction 1 as [|st st' _ IH Hstep].
  - unfold slots_held. simpl. rewrite count_if_waiting by reflexivity. lia.
  - rewrite (step_conserves_slots _ _ Hstep). exact IH.
Qed.

Lemma open_sessions_hold_slots st : open_sessions st <= slots_held st.
Proof. apply count_if_le. intros []; simpl; congruence. Qed.

(** What one step can do to one worker. *)
Lemma step_task st st' i t t' :
  step st st' -> tasks st !! i = Some t -> tasks st' !! i = Some t' ->
  t' = t
  \/ (t = Waiting /\ t' = Acquired /\ 0 < sem_value st)
  \/ (t = Acquired /\ (t' = Open \/ t' = Done))
  \/ (t = Open /\ t' = Closed)
  \/ (t = Closed /\ t' = Done).
Proof.
  intros Hstep Ht Ht'.
  destruct Hstep as [st j Hj Hfree|st j Hj|st j Hj|st j Hj|st j Hj]; simpl in Ht';
    (destruct (Nat.eq_dec j i) as [->|Hne];
     [rewrite list_lookup_insert_eq in Ht' by (eapply lookup_lt_Some; eauto);
      inversion Ht'; subst; rewrite Hj in Ht; inversion Ht; subst; auto 10
     |rewrite list_lookup_insert_ne in Ht' by exact Hne;
      rewrite Ht in Ht'; inversion Ht'; auto]).
Qed.

End SchedulingFacts.

Section SchedulingClaims.

(** C8. In every state the workers can reach from the start, whatever the
    interleaving: the open listing sessions are at most the initial value of
    the semaphore, each of them held by a worker that has a slot; a worker
    waiting for a slot stays suspended across any step taken while no slot is
    free; a session is open only in a worker that held a slot just before,
    and a worker with an open session gives its slot back only after the
    session is closed. *)
Theorem open_sessions_bounded (cap workers : nat) (st : pool) :
  reachable_from (start_pool cap workers) st ->
  open_sessions st <= cap
  /\ open_sessions st <= slots_held st
  /\ sem_value st + slots_held st = cap
  /\ (forall st' i, step st st' -> sem_value st = 0 ->
        tasks st !! i = Some Waiting -> tasks st' !! i = Some Waiting)
  /\ (forall st' i, step st st' -> tasks st' !! i = Some Open ->
        tasks st !! i = Some Open \/ tasks st !! i = Some Acquired)
  /\ (forall st' i, step st st' -> tasks st !! i = Some Open ->
        tasks st' !! i = Some Open \/ tasks st' !! i = Some Closed).
Proof.
  intros Hreach.
  pose proof (reachable_conserves_slots _ _ _ Hreach) as Hslots.
  pose proof (open_sessions_hold_slots st) as Hopen.
  split; [lia|]. split; [exact Hopen|]. split; [exact Hslots|].
  assert (Hlen : forall st', step st st' -> length (tasks st') = length (tasks st)).
  { destruct 1; simpl; apply length_insert. }
  split; [|split].
  - intros st' i Hstep Hzero Hi.
    destruct (tasks st' !! i) as [t'|] eqn:Ht'.
    + destruct (step_task _ _ _ _ _ Hstep Hi Ht')
        as [->|[(_ & _ & Hfree)|[(Hc & _)|[(Hc & _)|(Hc & _)]]]];
        try reflexivity; try discriminate. lia.
    + apply lookup_ge_None in Ht'. apply lookup_lt_Some in Hi.
      rewrite (Hlen _ Hstep) in Ht'. lia.
  - intros st' i Hstep Hi'.
    destruct (tasks st !! i) as [t|] eqn:Ht.
    + destruct (step_task _ _ _ _ _ Hstep Ht Hi')
        as [->|[(_ & Hc & _)|[(-> & _)|[(_ & Hc)|(_ & Hc)]]]];
        auto; discriminate.
    + apply lookup_ge_None in Ht. apply lookup_lt_Some in Hi'.
      rewrite (Hlen _ Hstep) in Hi'. lia.
  - intros st' i Hstep Hi.
    destruct (tasks st' !! i) as [t'|] eqn:Ht'.
    + destruct (step_task _ _ _ _ _ Hstep Hi Ht')
        as [->|[(Hc & _)|[(Hc & _)|[(_ & ->)|(Hc & _)]]]];
        auto; discriminate.
    + apply lookup_ge_None in Ht'. apply lookup_lt_Some in Hi.
      rewrite (Hlen _ Hstep) in Ht'. lia.
Qed.

End SchedulingClaims.
Example utf8_hote : utf8 "Hôte" = [72; 244; 116; 101]%N.
Proof. reflexivity. Qed.

Example py_str_10 : py_str 10 = utf8 "10" /\ py_str 0 = utf8 "0".
Proof. split; reflexivity. Qed.

Section Examples.
Local Existing Instance latin1_db.

Example license_bus : extract_license_from_text (utf8 "Numéro de licence BUS-MAG-42KDF, ville")
  = Ret (utf8 "BUS-MAG-42KDF").
Proof. vm_compute. reflexivity. Qed.

Example license_digits : extract_license_from_text (utf8 "permis no 1333701 valide")
  = Ret (utf8 "1333701").
Proof. vm_compute. reflexivity. Qed.

Example license_both : extract_license_from_text (utf8 "no 1333701 puis BUS-MAG-42KDF")
  = Ret (utf8 "BUS-MAG-42KDF").
Proof. vm_compute. reflexivity. Qed.

Example license_none : extract_license_from_text (utf8 "abc1234567 et 123456789")
  = Ret [].
Proof. vm_compute. reflexivity. Qed.

Example stats_all :
  parse_host_stats (utf8 "note : 4,95 sur 5 · 1 378 commentaires · HÔTE depuis 2015") 2025
  = Ret {| stats_host_rating := utf8 "4.95";
           stats_host_reviews_count := utf8 "1378";
           stats_host_years := utf8 "10" |}.
Proof. vm_compute. reflexivity. Qed.

Example stats_future :
  parse_host_stats (utf8 "Hote depuis 2031") 2025
  = Ret {| stats_host_rating := []; stats_host_reviews_count := [];
           stats_host_years := utf8 "0" |}.
Proof. vm_compute. reflexivity. Qed.

End Examples.

(** ** The theorems at work on the scripted pages *)

Section Witnesses.
Local Existing Instance latin1_db.

Lemma host_stats_text_source_witness :
  (pg_goto page_name_in_section sample_url = Ret tt
   /\ unguarded_calls_answer page_name_in_section)
  /\ exists row,
       fst (extract_listing sample_clock page_name_in_section sample_url fresh_world)
       = Ret row
       /\ stats_of row
          = {| stats_host_rating := utf8 "4.95"; stats_host_reviews_count := [];
               stats_host_years := [] |}.
Proof.
  assert (H : pg_goto page_name_in_section sample_url = Ret tt
              /\ unguarded_calls_answer page_name_in_section).
  { split; [reflexivity|]. repeat split; eexists; reflexivity. }
  split; [exact H|].
  destruct (host_stats_text_source sample_clock page_name_in_section sample_url
              fresh_world (proj1 H) (proj2 H))
    as (row & w' & today & E & Hsec & _).
  exists row. split; [rewrite E; reflexivity|].
  destruct (Hsec host_section_primary (utf8 "Hôte : Marie 4,95 sur 5")
              eq_refl eq_refl ltac:(discriminate)) as [Hp _].
  assert (Hc : parse_host_stats (utf8 "Hôte : Marie 4,95 sur 5") (dt_year today)
               = Ret {| stats_host_rating := utf8 "4.95";
                        stats_host_reviews_count := []; stats_host_years := [] |})
    by (vm_compute; reflexivity).
  congruence.
Defined.

Lemma discovery_cap_witness :
  (0 <= 2)%Z
  /\ exists l,
       collect_listing_urls 2 1 page_growing sample_search_url fresh_world
       = (Ret (Some l), after fresh_world [EvGoto sample_search_url; ev_harvest])
       /\ Z.of_nat (length l) = 2%Z /\ NoDup l.
Proof.
  assert (H : (0 <= 2)%Z) by lia.
  split; [exact H|].
  destruct (proj2 (discovery_cap 2 page_growing sample_search_url H)
              three_listing_anchors eq_refl eq_refl
              ltac:(apply Z.leb_le; vm_compute; reflexivity) 0 fresh_world)
    as (l & E & Hlen & Hnd & _).
  exists l. auto.
Defined.

Lemma convergence_stop_witness :
  (page_answers page_growing sample_search_url (fun _ => three_listing_anchors)
     growing_height
   /\ stops_changing_after growing_height 2)
  /\ exists l w',
       collect_listing_urls MAX_LISTINGS_PER_SEARCH_default 5 page_growing
         sample_search_url fresh_world = (Ret (Some l), w')
       /\ height_checks (w_events w') = 3.
Proof.
  assert (Ha : page_answers page_growing sample_search_url
                 (fun _ => three_listing_anchors) growing_height).
  { split; [reflexivity | intros k; repeat split]. }
  assert (Hs : stops_changing_after growing_height 2).
  { split; intros k Hk; destruct k as [|[|k]]; try lia;
      try reflexivity; simpl; discriminate. }
  split; [split; assumption|].
  destruct (proj1 (convergence_stop MAX_LISTINGS_PER_SEARCH_default page_growing
                     sample_search_url _ _ 2 Ha Hs
                     ltac:(intros k _; rewrite seen_after_const;
                           apply Z.ltb_lt; vm_compute; reflexivity))
              5 fresh_world ltac:(simpl; lia))
    as (l & w' & E & Hc).
  exists l, w'. split; [exact E | exact Hc].
Defined.

Lemma open_sessions_bounded_witness :
  reachable_from (start_pool default_slots 9) pool_one_open
  /\ open_sessions pool_one_open <= default_slots.
Proof.
  assert (H : reachable_from (start_pool default_slots 9) pool_one_open).
  { apply (reach_step _ pool_one_acquired).
    - apply (reach_step _ (start_pool default_slots 9)); [apply reach_start|].
      exact (step_acquire (start_pool default_slots 9) 0 eq_refl
               (proj1 (Nat.ltb_lt 0 8) eq_refl)).
    - exact (step_new_page pool_one_acquired 0 eq_refl). }
  split; [exact H|].
  exact (proj1 (open_sessions_bounded default_slots 9 pool_one_open H)).
Defined.

Lemma query_stripping_and_dedup_witness :
  ((63%N ∉ sample_listing_base) /\ contains rooms_marker sample_listing_base = true)
  /\ normalize (sample_listing_base ++ 63%N :: utf8 "foo=bar") = sample_listing_base
  /\ harvest ∅ [sample_listing_base ++ 63%N :: utf8 "foo=bar"; sample_listing_base;
                sample_listing_base ++ 63%N :: utf8 "adults=2"]
     = {[ sample_listing_base ]}.
Proof.
  assert (H1 : 63%N ∉ sample_listing_base).
  { apply (bool_decide_unpack (63%N ∉ sample_listing_base)). vm_compute. exact I. }
  assert (H2 : contains rooms_marker sample_listing_base = true) by reflexivity.
  split; [split; assumption|].
  destruct (query_stripping_and_dedup sample_listing_base (utf8 "foo=bar")
              (utf8 "adults=2") [] H1 H2) as ((Hn & _) & Hh & _).
  split; [exact Hn | exact Hh].
Defined.

End Witnesses.

(** * Further properties of the code *)

(** ** [read_search_urls] *)

Section SearchUrlFacts.

Lemma lstrip_head s c : head (lstrip s) = Some c -> is_space c = false.
Proof.
  induction s as [|a s IH]; simpl; [discriminate|].
  destruct (is_space a) eqn:Ha; [exact IH|].
  simpl. intros H. inversion H; subst. exact Ha.
Qed.

Lemma lstrip_suffix s : exists blanks, s = blanks ++ lstrip s /\ forallb is_space blanks = true.
Proof.
  induction s as [|a s (blanks & IH & Hb)]; simpl; [exists []; auto|].
  destruct (is_space a) eqn:Ha.
  - exists (a :: blanks). simpl. rewrite Ha, Hb. split; [congruence | reflexivity].
  - exists []. auto.
Qed.

Lemma last_rev (s : str) : last (rev s) = head s.
Proof. destruct s as [|a s]; [reflexivity|]. simpl. apply last_snoc. Qed.

Lemma head_rev (s : str) : head (rev s) = last s.
Proof. rewrite <- (rev_involutive s) at 2. rewrite last_rev. reflexivity. Qed.

(** [strip] leaves no white space at either end. *)
Lemma strip_trimmed s : trimmed (strip s).
Proof.
  unfold strip. split; intros c H.
  - destruct (lstrip_suffix (rev (lstrip s))) as (blanks & Heq & _).
    apply (f_equal (@rev char)) in Heq. rewrite rev_involutive, rev_app_distr in Heq.
    destruct (rev (lstrip (rev (lstrip s)))) as [|a r] eqn:E; [discriminate|].
    simpl in H. inversion H; subst a.
    apply (lstrip_head s). rewrite Heq. reflexivity.
  - rewrite last_rev in H. apply lstrip_head in H. exact H.
Qed.

Lemma elem_of_rev (s : str) x : x ∈ rev s <-> x ∈ s.
Proof. rewrite !list_elem_of_In. symmetry. apply in_rev. Qed.

Lemma lstrip_elem s x : x ∈ lstrip s -> x ∈ s.
Proof.
  destruct (lstrip_suffix s) as (blanks & Heq & _). intros H.
  rewrite Heq. apply elem_of_app. right. exact H.
Qed.

Lemma strip_elem s x : x ∈ strip s -> x ∈ s.
Proof.
  unfold strip. intros H. rewrite elem_of_rev in H. apply lstrip_elem in H.
  rewrite elem_of_rev in H. apply lstrip_elem in H. exact H.
Qed.

Lemma lstrip_blank s : forallb is_space s = true -> lstrip s = [].
Proof.
  induction s as [|a s IH]; simpl; [reflexivity|].
  intros H. apply andb_true_iff in H as [Ha Hs]. rewrite Ha. auto.
Qed.

Lemma lstrip_snoc s c :
  lstrip (s ++ [c]) = if is_empty (lstrip s) then lstrip [c] else lstrip s ++ [c].
Proof.
  induction s as [|a s IH]; simpl; [reflexivity|].
  destruct (is_space a); [exact IH | reflexivity].
Qed.

(** A white-space character at the end does not change what [strip] gives. *)
Lemma strip_snoc_space s c : is_space c = true -> strip (s ++ [c]) = strip s.
Proof.
  intros Hc. unfold strip. rewrite lstrip_snoc.
  destruct (lstrip s) as [|a r] eqn:E; simpl.
  - rewrite Hc. reflexivity.
  - rewrite rev_app_distr. simpl. rewrite Hc. reflexivity.
Qed.

Lemma universal_newlines_elem_le n : forall s x,
  length s <= n ->
  x ∈ universal_newlines s -> x <> 13%N /\ (x = 10%N \/ x ∈ s).
Proof.
  induction n as [|n IH]; intros s x Hn Hx.
  - destruct s; [inversion Hx | simpl in Hn; lia].
  - destruct s as [|c s]; simpl in Hx; [inversion Hx|]. simpl in Hn.
    unfold char_eqb in Hx. destruct (N.eqb_spec c 13) as [->|Hc].
    + apply elem_of_cons in Hx as [->|Hx]; [split; [discriminate | auto]|].
      destruct s as [|d s]; [inversion Hx|]. simpl in Hn.
      destruct (N.eqb_spec d 10) as [->|Hd].
      * destruct (IH s x ltac:(lia) Hx) as [H1 [H2|H2]]; split; auto.
        right. right. right. exact H2.
      * destruct (IH (d :: s) x ltac:(simpl; lia) Hx) as [H1 [H2|H2]]; split; auto.
        right. right. exact H2.
    + apply elem_of_cons in Hx as [->|Hx]; [split; [exact Hc | right; left]|].
      destruct (IH s x ltac:(lia) Hx) as [H1 [H2|H2]]; split; auto.
      right. right. exact H2.
Qed.

Lemma universal_newlines_elem s x :
  x ∈ universal_newlines s -> x <> 13%N /\ (x = 10%N \/ x ∈ s).
Proof. apply (universal_newlines_elem_le (length s)). lia. Qed.

(** A line holds a line feed at its end only, and only characters of the
    text. *)
Lemma file_lines_from_shape s : forall cur line,
  10%N ∉ cur -> line ∈ file_lines_from cur s ->
  exists body, (line = body ++ [10%N] \/ line = body)
               /\ (10%N ∉ body) /\ forall x, x ∈ body -> x ∈ cur \/ x ∈ s.
Proof.
  induction s as [|c s IH]; intros cur line Hcur Hin; simpl in Hin.
  - destruct cur as [|a cur]; simpl in Hin; [inversion Hin|].
    apply list_elem_of_singleton in Hin as ->.
    exists (rev (a :: cur)). split; [right; reflexivity|]. split.
    + intros H. rewrite elem_of_rev in H. exact (Hcur H).
    + intros x Hx. rewrite elem_of_rev in Hx. auto.
  - unfold char_eqb in Hin. destruct (N.eqb_spec c 10) as [->|Hc].
    + apply elem_of_cons in Hin as [->|Hin].
      * exists (rev cur). split; [left; reflexivity|]. split.
        -- intros H. rewrite elem_of_rev in H. exact (Hcur H).
        -- intros x Hx. rewrite elem_of_rev in Hx. auto.
      * destruct (IH [] line ltac:(apply not_elem_of_nil) Hin) as (body & Hl & Hb & Hsub).
        exists body. repeat split; auto. intros x Hx.
        destruct (Hsub x Hx) as [H|H]; [inversion H|]. right. right. exact H.
    + destruct (IH (c :: cur) line) as (body & Hl & Hb & Hsub); auto.
      { apply not_elem_of_cons. split; [congruence | exact Hcur]. }
      exists body. repeat split; auto. intros x Hx.
      destruct (Hsub x Hx) as [H|H].
      * apply elem_of_cons in H as [->|H]; [right; left | left; exact H].
      * right. right. exact H.
Qed.

Lemma space_10 : is_space 10 = true.
Proof. reflexivity. Qed.

Lemma stripped_line_elem text line x :
  line ∈ file_lines text -> x ∈ strip line ->
  x <> 10%N /\ x <> 13%N /\ x ∈ text.
Proof.
  unfold file_lines. intros Hl Hx.
  destruct (file_lines_from_shape _ [] line ltac:(apply not_elem_of_nil) Hl)
    as (body & Hshape & Hb & Hsub).
  assert (Hxb : x ∈ body).
  { destruct Hshape as [-> | ->].
    - rewrite (strip_snoc_space _ _ space_10) in Hx. apply strip_elem, Hx.
    - apply strip_elem, Hx. }
  destruct (Hsub x Hxb) as [H|H]; [inversion H|].
  destruct (universal_newlines_elem _ _ H) as [H13 [H10|Ht]].
  - subst x. contradiction.
  - split; [intros ->; contradiction|]. auto.
Qed.

End SearchUrlFacts.

Section SearchUrlProperties.

(** X1. [read_search_urls] gives the empty list when the file is absent and
    lets a read error through; otherwise every URL it returns is a stripped
    line of the file: not empty, without white space at either end, without
    a line break inside; and a file of white space only gives no URL. *)
Theorem read_search_urls_clean :
  read_search_urls None = Ret []
  /\ (forall e, read_search_urls (Some (Raise e)) = Raise e)
  /\ forall text, exists urls,
       read_search_urls (Some (Ret text)) = Ret urls
       /\ Forall (fun u => u <> [] /\ trimmed u /\ (10%N ∉ u) /\ (13%N ∉ u)
                           /\ exists line, line ∈ file_lines text /\ u = strip line)
                 urls
       /\ (forallb is_space text = true -> urls = []).
Proof.
  split; [reflexivity|]. split; [reflexivity|].
  intros text. eexists. split; [reflexivity|]. split.
  - apply Forall_forall. intros u Hu.
    apply list_elem_of_In, filter_In in Hu as [Hu Hne].
    apply in_map_iff in Hu as (line & <- & Hline). apply list_elem_of_In in Hline.
    split; [destruct (strip line); [discriminate | congruence]|].
    split; [apply strip_trimmed|].
    split; [|split].
    + intros H. destruct (stripped_line_elem _ _ _ Hline H) as [? _]. congruence.
    + intros H. destruct (stripped_line_elem _ _ _ Hline H) as (_ & ? & _). congruence.
    + exists line. auto.
  - intros Hblank.
    destruct (List.filter _ _) as [|u rest] eqn:E; [reflexivity|].
    assert (Hu : In u (List.filter (fun line => negb (is_empty line))
                         (map strip (file_lines text)))) by (rewrite E; left; reflexivity).
    apply filter_In in Hu as [Hu Hne].
    apply in_map_iff in Hu as (line & <- & Hline). apply list_elem_of_In in Hline.
    destruct (strip line) as [|c r] eqn:Es; [discriminate|].
    assert (Hc : c ∈ strip line) by (rewrite Es; left).
    pose proof (strip_trimmed line) as [Hhead _]. rewrite Es in Hhead.
    specialize (Hhead c eq_refl).
    destruct (stripped_line_elem _ _ _ Hline Hc) as (_ & _ & Hct).
    rewrite forallb_forall in Hblank. apply list_elem_of_In in Hct.
    rewrite (Hblank c Hct) in Hhead. discriminate.
Qed.

End SearchUrlProperties.

(** ** The pattern extraction engine, further *)

Section PureFacts.
Context {U : UnicodeDB}.

Lemma str_replace_absent a b s : a <> b -> a ∉ str_replace a b s.
Proof.
  intros Hab. unfold str_replace. induction s as [|c s IH]; simpl.
  - apply not_elem_of_nil.
  - apply not_elem_of_cons. split; [|exact IH].
    unfold char_eqb. destruct (N.eqb_spec c a); congruence.
Qed.

Lemma str_replace_nonempty a b s : s <> [] -> str_replace a b s <> [].
Proof. destruct s; [congruence | discriminate]. Qed.

Lemma py_str_nonempty z : py_str z <> [].
Proof.
  unfold py_str.
  assert (Hu : forall d, bytes_of (NilZero.string_of_uint d) <> []).
  { intros d. destruct d; simpl; discriminate. }
  destruct (Z.to_int z) as [d|d]; simpl; [apply Hu | discriminate].
Qed.

Lemma forallb_filter (p : char -> bool) s : forallb p (List.filter p s) = true.
Proof.
  apply forallb_forall. intros x Hx. apply filter_In in Hx as [_ Hx]. exact Hx.
Qed.

Lemma substr_nonempty (text : str) a b :
  a < b -> b <= length text -> substr text a b <> [].
Proof.
  intros Hab Hb H. apply (f_equal length) in H.
  rewrite (length_substr text a b Hb) in H. simpl in H. lia.
Qed.

Lemma number_nonempty text i g : number_at text i g -> substr text i g <> [].
Proof.
  intros (a & Hia & Ha & Hg).
  pose proof (all_in_bound _ _ _ _ Ha Hia) as Hb.
  destruct Hg as [->|(_ & Hj & Ha')].
  - apply substr_nonempty; assumption.
  - pose proof (all_in_bound _ _ _ _ Ha' Hj). apply substr_nonempty; lia.
Qed.

Lemma reviews_digits_nonempty text i g e :
  reviews_at text i g e -> List.filter is_decimal (substr text i g) <> [].
Proof.
  intros (Hd & Hig & _ & a & Hga & Hs & _).
  destruct (Hd i ltac:(lia)) as (ch & Hc & Hp).
  pose proof (all_in_bound _ _ _ _ Hs Hga) as Hb.
  assert (Hin : In ch (List.filter is_decimal (substr text i g))).
  { apply filter_In. split; [|exact Hp]. apply list_elem_of_In.
    apply (list_elem_of_lookup_2 _ 0).
    rewrite substr_lookup by lia. rewrite Nat.add_0_r. exact Hc. }
  intros E. rewrite E in Hin. destruct Hin.
Qed.

End PureFacts.

Section PureProperties.
Context {U : UnicodeDB}.

(** X2. In what [parse_host_stats] returns, each of the three fields is
    empty exactly when its own pattern occurs nowhere in the text; the rating
    never holds a comma and the review count holds decimal digits only. *)
Theorem parse_host_stats_shapes (text : str) (year_now : Z) :
  exists hs, parse_host_stats text year_now = Ret hs
    /\ (stats_host_rating hs = [] <-> forall i g e, ~ rating_at text i g e)
    /\ (stats_host_reviews_count hs = [] <-> forall i g e, ~ reviews_at text i g e)
    /\ (stats_host_years hs = [] <-> forall i g e, ~ tenure_at text i g e)
    /\ (44%N ∉ stats_host_rating hs)
    /\ forallb is_decimal (stats_host_reviews_count hs) = true.
Proof.
  destruct (parse_host_stats_spec text year_now) as (hs & E & Hr & Hv & Hy).
  exists hs. split; [exact E|].
  split; [|split; [|split; [|split]]].
  - destruct Hr as [(i & g & e & Hat & _ & ->)|[Habs ->]].
    + split.
      * intros H. exfalso. revert H. apply str_replace_nonempty.
        apply number_nonempty. apply Hat.
      * intros Habs. destruct (Habs _ _ _ Hat).
    + split; auto.
  - destruct Hv as [(i & g & e & Hat & _ & ->)|[Habs ->]].
    + split.
      * intros H. exfalso. revert H. eapply reviews_digits_nonempty; eauto.
      * intros Habs. destruct (Habs _ _ _ Hat).
    + split; auto.
  - destruct Hy as [(i & g & e & Hat & _ & ->)|[Habs ->]].
    + split.
      * intros H. exfalso. revert H. apply py_str_nonempty.
      * intros Habs. destruct (Habs _ _ _ Hat).
    + split; auto.
  - destruct Hr as [(i & g & e & _ & _ & ->)|[_ ->]].
    + apply str_replace_absent. discriminate.
    + apply not_elem_of_nil.
  - destruct Hv as [(i & g & e & _ & _ & ->)|[_ ->]].
    + apply forallb_filter.
    + reflexivity.
Qed.

(** X3. What [extract_license_from_text] returns is a piece of the text, and
    it is empty exactly when neither pattern occurs; otherwise it is 12 to 14
    characters long (a structured code) or 6 to 8 (a run of digits). *)
Theorem extract_license_shape (text : str) :
  exists code, extract_license_from_text text = Ret code
    /\ (exists i j, i <= j <= length text /\ code = substr text i j)
    /\ (code = [] <-> (forall i j, ~ license_code_at text i j)
                      /\ (forall i j, ~ license_digits_at text i j))
    /\ (code = [] \/ 6 <= length code <= 8 \/ 12 <= length code <= 14).
Proof.
  unfold extract_license_from_text.
  pose proof (search_license_code text) as Hc.
  destruct (re_search re_license_code text) as [m|].
  - destruct Hc as (i & j & Hat & _ & ->).
    destruct Hat as (Hb1 & Ha1 & Hh1 & Ha2 & Hh2 & Hj & Ha3 & Hb2).
    pose proof (all_in_bound _ _ _ _ Ha3 ltac:(lia)) as Hlen.
    pose proof (length_substr text i j Hlen) as Hl.
    eexists. split; [reflexivity|].
    split; [exists i, j; split; [lia | reflexivity]|]. split.
    + split.
      * intros H. rewrite H in Hl. simpl in Hl. lia.
      * intros [Hno _]. destruct (Hno i j). repeat split; auto; lia.
    + right. right. lia.
  - pose proof (search_license_digits text) as Hd.
    destruct (re_search re_license_digits text) as [m|].
    + destruct Hd as (i & j & Hat & _ & ->).
      pose proof Hat as (Hb1 & Hj & Ha & Hb2).
      pose proof (all_in_bound _ _ _ _ Ha ltac:(lia)) as Hlen.
      pose proof (length_substr text i j Hlen) as Hl.
      eexists. split; [reflexivity|].
      split; [exists i, j; split; [lia | reflexivity]|]. split.
      * split.
        -- intros H. rewrite H in Hl. simpl in Hl. lia.
        -- intros [_ Hno]. destruct (Hno i j Hat).
      * right. left. lia.
    + exists []. split; [reflexivity|].
      split; [exists 0, 0; split; [lia | reflexivity]|].
      split; [split; auto | left; reflexivity].
Qed.

End PureProperties.

(** ** The listing detail extractor, further *)

Section OutcomeFacts.

Lemma outcomes_mret {A} (a : A) (Q : A -> Prop) P : Q a -> outcomes (mret a) Q P.
Proof. intros H w. exact H. Qed.

Lemma outcomes_call {A} ev (o : outcome A) (Q : A -> Prop) (P : exn -> Prop) :
  (forall a, o = Ret a -> Q a) -> (forall e, o = Raise e -> P e) ->
  outcomes (call ev o) Q P.
Proof. intros HQ HP w. simpl. destruct o; auto. Qed.

Lemma outcomes_lift {A} (o : outcome A) (Q : A -> Prop) (P : exn -> Prop) :
  (forall a, o = Ret a -> Q a) -> (forall e, o = Raise e -> P e) ->
  outcomes (lift o) Q P.
Proof. intros HQ HP w. simpl. destruct o; auto. Qed.

Lemma outcomes_bind {A B} (m : M A) (f : A -> M B) Q R P :
  outcomes m Q P -> (forall a, Q a -> outcomes (f a) R P) ->
  outcomes (mbind_M m f) R P.
Proof.
  intros Hm Hf w. unfold mbind_M. specialize (Hm w).
  destruct (m w) as [[a|e] w']; simpl in *; [apply Hf; exact Hm | exact Hm].
Qed.

Lemma outcomes_catch_any {A} (m h : M A) Q P :
  outcomes m Q (fun _ => True) -> outcomes h Q P ->
  outcomes (catch m any_exception h) Q P.
Proof.
  intros Hm Hh w. unfold catch. specialize (Hm w).
  destruct (m w) as [[a|e] w']; simpl in *; [exact Hm | apply Hh].
Qed.

Lemma outcomes_weaken {A} (m : M A) (Q Q' : A -> Prop) (P P' : exn -> Prop) :
  outcomes m Q P -> (forall a, Q a -> Q' a) -> (forall e, P e -> P' e) ->
  outcomes m Q' P'.
Proof.
  intros Hm HQ HP w. specialize (Hm w). destruct (fst (m w)); auto.
Qed.

Lemma outcomes_for_each {A} (l : list A) (body : A -> M unit) P :
  (forall x, In x l -> outcomes (body x) (fun _ => True) P) ->
  outcomes (for_each l body) (fun _ => True) P.
Proof.
  induction l as [|x l IH]; intros Hb; simpl.
  - apply outcomes_mret. exact I.
  - eapply outcomes_bind; [apply Hb; left; reflexivity|].
    intros _ _. apply IH. intros y Hy. apply Hb. right. exact Hy.
Qed.

Lemma after_after w evs evs' : after (after w evs) evs' = after w (evs ++ evs').
Proof. unfold after. simpl. rewrite <- app_assoc. reflexivity. Qed.

Lemma after_nil w : after w [] = w.
Proof. destruct w. unfold after. simpl. rewrite app_nil_r. reflexivity. Qed.

Lemma call_run {A} ev (o : outcome A) w : call ev o w = (o, after w [ev]).
Proof. reflexivity. Qed.

End OutcomeFacts.

Section ListingMore.
Context {U : UnicodeDB}.
Variable clock : nat -> datetime.

Lemma trimmed_nil : trimmed [].
Proof. split; intros c H; discriminate. Qed.

Lemma safe_text_trimmed pg loc : trimmed (safe_text pg loc).
Proof.
  unfold safe_text. destruct (pg_count pg loc) as [[|n]|e]; try apply trimmed_nil.
  destruct (pg_inner_text pg (First loc)); [apply strip_trimmed | apply trimmed_nil].
Qed.

Lemma safe_inner_text_run pg root sel w :
  safe_inner_text pg root sel w
  = (Ret (safe_text pg (locate root sel)),
     after w (EvCount (locate root sel)
              :: match pg_count pg (locate root sel) with
                 | Ret (S _) => [EvInnerText (First (locate root sel))]
                 | _ => []
                 end)).
Proof.
  unfold safe_inner_text, safe_text, catch, mbind_M, loc_count, loc_inner_text,
    call, mret, after.
  simpl. destruct (pg_count pg (locate root sel)) as [[|n]|e]; simpl; try reflexivity.
  destruct (pg_inner_text pg (First (locate root sel))); simpl;
    rewrite <- app_assoc; reflexivity.
Qed.

(** The inner loop of [click_more_buttons]: one click attempt per index. *)
Lemma click_each_run pg buttons n : forall a w,
  for_each (seq a n)
    (fun i => catch (loc_click pg (Nth buttons i)) any_exception (mret tt)) w
  = (Ret tt, after w (map (fun i => EvClick (Nth buttons i)) (seq a n))).
Proof.
  induction n as [|n IH]; intros a w; simpl.
  - rewrite after_nil. reflexivity.
  - unfold mbind_M, catch, loc_click. rewrite call_run.
    destruct (pg_click pg (Nth buttons a)) as [[]|e]; simpl;
      rewrite IH, after_after; reflexivity.
Qed.

Lemma click_labels_run pg counts labels : forall w,
  (forall label, In label labels ->
     pg_count pg (Css (ButtonHasText label)) = Ret (counts label)) ->
  for_each labels (fun label =>
     let buttons := Css (ButtonHasText label) in
     (count <- loc_count pg buttons ;;
      for_each (seq 0 count) (fun i =>
        catch (loc_click pg (Nth buttons i)) any_exception (mret tt)))%prog) w
  = (Ret tt, after w (click_attempts counts labels)).
Proof.
  induction labels as [|label labels IH]; intros w Hc; simpl.
  - rewrite after_nil. reflexivity.
  - unfold mbind_M at 1. unfold mbind_M at 1. unfold loc_count. rewrite call_run.
    rewrite (Hc label (or_introl eq_refl)). rewrite click_each_run.
    rewrite IH by (intros l Hl; apply Hc; right; exact Hl).
    rewrite !after_after. reflexivity.
Qed.


Lemma same_rest_refl d : same_rest d d.
Proof. repeat split. Qed.

Lemma same_rest_trans d0 d1 d2 : same_rest d0 d1 -> same_rest d1 d2 -> same_rest d0 d2.
Proof.
  unfold same_rest. intros (?&?&?&?&?&?&?) (?&?&?&?&?&?&?).
  repeat split; congruence.
Qed.

Lemma set_host_name_rest v d : same_rest d (set_host_name v d).
Proof. repeat split. Qed.

Lemma set_host_url_rest v d : same_rest d (set_host_url v d).
Proof. repeat split. Qed.

Lemma set_host_name_clean v d :
  trimmed v -> host_fields_clean d -> host_fields_clean (set_host_name v d).
Proof. intros Hv [Hu _]. split; [exact Hu | exact Hv]. Qed.

Lemma set_host_url_clean h d :
  host_fields_clean d -> host_fields_clean (set_host_url (split_head 63 h) d).
Proof. intros [_ Hn]. split; [apply split_head_free | exact Hn]. Qed.

Lemma merge_stats_keeps stats d :
  listing_url (merge_stats stats d) = listing_url d
  /\ listing_title (merge_stats stats d) = listing_title d
  /\ license_code (merge_stats stats d) = license_code d
  /\ host_url (merge_stats stats d) = host_url d
  /\ host_name (merge_stats stats d) = host_name d
  /\ scraped_at (merge_stats stats d) = scraped_at d.
Proof.
  destruct d as [u t lc hu hn [|r0 r] [|y0 y] [|v0 v] sa];
    destruct stats as [[|a ra] [|b rv] [|c ry]]; repeat split.
Qed.

(** The host steps keep every field but the two they write, and leave
    those two clean. *)
Definition host_step_ok (d0 d : ListingRecord) : Prop :=
  same_rest d0 d /\ host_fields_clean d.

Lemma safe_inner_text_outcomes pg root sel P :
  outcomes (safe_inner_text pg root sel)
           (fun t => t = safe_text pg (locate root sel)) P.
Proof. intros w. rewrite safe_inner_text_run. reflexivity. Qed.

Lemma catch_call_outcomes {A} ev (o : outcome A) (d : A) P :
  outcomes (catch (call ev o) any_exception (mret d))
           (fun a => a = match o with Ret x => x | Raise _ => d end) P.
Proof. intros w. unfold catch. rewrite call_run. destruct o; reflexivity. Qed.

Lemma read_host_section_outcomes pg sec data P :
  host_fields_clean data ->
  outcomes (read_host_section pg sec data)
           (fun r => host_step_ok data (snd r)) P.
Proof.
  intros Hclean. unfold read_host_section.
  eapply outcomes_bind; [apply catch_call_outcomes|]. intros host_text _.
  eapply outcomes_bind; [apply safe_inner_text_outcomes|]. intros name ->.
  set (name := safe_text pg _).
  set (data1 := if negb (is_empty name) then set_host_name name data else data).
  assert (H1 : host_step_ok data data1).
  { unfold data1. destruct (negb (is_empty name)).
    - split; [apply set_host_name_rest|].
      apply set_host_name_clean; [apply safe_text_trimmed | exact Hclean].
    - split; [apply same_rest_refl | exact Hclean]. }
  apply (outcomes_bind _ _ (host_step_ok data)).
  - apply outcomes_catch_any; [|apply outcomes_mret; exact H1].
    apply (outcomes_bind _ _ (fun _ => True)); [apply outcomes_call; auto|].
    intros n _. destruct (0 <? n); [|apply outcomes_mret; exact H1].
    apply (outcomes_bind _ _ (fun _ => True)); [apply outcomes_call; auto|].
    intros [h|] _; [|apply outcomes_mret; exact H1].
    destruct (negb (is_empty h)); apply outcomes_mret; [|exact H1].
    destruct H1 as [Hr Hc]. split.
    + eapply same_rest_trans; [exact Hr | apply set_host_url_rest].
    + apply set_host_url_clean. exact Hc.
  - intros d Hd. apply outcomes_mret. exact Hd.
Qed.

Lemma find_host_section_outcomes pg url data :
  host_fields_clean data ->
  outcomes (find_host_section pg data)
           (fun r => host_step_ok data (snd r)) (unguarded_raise pg url).
Proof.
  intros Hclean. unfold find_host_section.
  apply (outcomes_bind _ _ (fun _ => True)).
  { apply outcomes_call; [auto|]. intros e He. do 4 right. left. exact He. }
  intros n _.
  apply (outcomes_bind _ _ (fun _ => True)).
  { apply outcomes_call; [auto|]. intros e He.
    destruct (n =? 0); do 4 right; [right | left]; exact He. }
  intros m _. destruct (0 <? m).
  - apply read_host_section_outcomes. exact Hclean.
  - apply outcomes_mret. split; [apply same_rest_refl | exact Hclean].
Qed.

Lemma host_fallback_outcomes pg data P :
  host_fields_clean data ->
  outcomes (host_fallback pg data) (host_step_ok data) P.
Proof.
  intros Hclean. unfold host_fallback.
  assert (H0 : host_step_ok data data) by (split; [apply same_rest_refl | exact Hclean]).
  destruct (is_empty (host_name data) || is_empty (host_url data));
    [|apply outcomes_mret; exact H0].
  apply outcomes_catch_any; [|apply outcomes_mret; exact H0].
  apply (outcomes_bind _ _ (fun _ => True)); [apply outcomes_call; auto|].
  intros href _.
  apply (outcomes_bind _ _ (fun _ => True)); [apply outcomes_call; auto|].
  intros text _. apply outcomes_mret.
  set (data1 := match href with
                | Some h => if negb (is_empty h)
                            then set_host_url (split_head 63 h) data else data
                | None => data
                end).
  assert (H1 : host_step_ok data data1).
  { unfold data1. destruct href as [h|]; [|exact H0].
    destruct (negb (is_empty h)); [|exact H0].
    split; [apply set_host_url_rest | apply set_host_url_clean; exact Hclean]. }
  destruct (negb (is_empty text)); [|exact H1].
  destruct H1 as [Hr Hc]. split.
  - eapply same_rest_trans; [exact Hr | apply set_host_name_rest].
  - apply set_host_name_clean; [apply strip_trimmed | exact Hc].
Qed.

Lemma click_more_buttons_outcomes pg url :
  outcomes (click_more_buttons pg) (fun _ => True) (unguarded_raise pg url).
Proof.
  unfold click_more_buttons.
  apply (outcomes_bind _ _ (fun _ => True)).
  - apply outcomes_for_each. intros label Hl.
    apply (outcomes_bind _ _ (fun _ => True)).
    + apply outcomes_call; [auto|]. intros e He. right. left. exists label. auto.
    + intros c _. apply outcomes_for_each. intros i _.
      apply outcomes_catch_any; [apply outcomes_call; auto | apply outcomes_mret; exact I].
  - intros _ _. apply outcomes_call; [auto|]. intros e He. do 2 right. left. exact He.
Qed.

Lemma extract_loaded_outcomes pg url data :
  host_fields_clean data ->
  outcomes (extract_loaded clock pg data)
    (fun row =>
       listing_url row = listing_url data
       /\ scraped_at row = scraped_at data
       /\ host_fields_clean row
       /\ title_source pg (listing_title row)
       /\ extract_license_from_text (captured_body_text pg)
          = Ret (license_code row))
    (unguarded_raise pg url).
Proof.
  intros Hclean. unfold extract_loaded.
  eapply outcomes_bind; [apply click_more_buttons_outcomes|]. intros _ _.
  eapply outcomes_bind; [apply safe_inner_text_outcomes|]. intros h1 Hh1.
  simpl in Hh1.
  apply (outcomes_bind _ _ (title_source pg)).
  { unfold title_source. rewrite <- Hh1. destruct (is_empty h1).
    - apply outcomes_call; [auto|]. intros e He. do 3 right. left. exact He.
    - apply outcomes_mret. reflexivity. }
  intros title Htitle.
  eapply outcomes_bind; [apply catch_call_outcomes|]. intros body Hbody.
  change (body = captured_body_text pg) in Hbody. subst body.
  destruct (extract_license_returns (captured_body_text pg)) as [code Hcode].
  apply (outcomes_bind _ _ (fun c => c = code)).
  { apply outcomes_lift; intros x Hx; congruence. }
  intros c ->.
  set (data2 := set_license_code code (set_listing_title title data)).
  assert (Hclean2 : host_fields_clean data2) by exact Hclean.
  eapply outcomes_bind; [apply find_host_section_outcomes; exact Hclean2|].
  intros found [Hr3 Hc3].
  eapply outcomes_bind; [apply host_fallback_outcomes; exact Hc3|].
  intros data4 [Hr4 Hc4].
  apply (outcomes_bind _ _ (fun _ => True)).
  { intros w. exact I. }
  intros today _.
  match goal with |- context [parse_host_stats ?t ?y] =>
    destruct (parse_host_stats_spec t y) as (hs & Hhs & _)
  end.
  apply (outcomes_bind _ _ (fun _ => True)).
  { apply outcomes_lift; [auto|]. intros e He. congruence. }
  intros stats _. apply outcomes_mret.
  destruct (merge_stats_keeps stats data4) as (Mu & Mt & Ml & Mhu & Mhn & Ms).
  pose proof (same_rest_trans _ _ _ Hr3 Hr4) as (Ru & Rt & Rl & _ & _ & _ & Rs).
  destruct Hc4 as [Hu4 Hn4].
  split; [rewrite Mu, Ru; reflexivity|].
  split; [rewrite Ms, Rs; reflexivity|].
  split; [split; [rewrite Mhu; exact Hu4 | rewrite Mhn; exact Hn4]|].
  split; [rewrite Mt, Rt; exact Htitle|].
  rewrite Ml, Rl. exact Hcode.
Qed.

Lemma extract_listing_unfold pg url w :
  extract_listing clock pg url w
  = let data := initial_data url (clock (length (w_events w))) in
    match pg_goto pg url with
    | Ret _ => extract_loaded clock pg data (after w [EvGoto url])
    | Raise e => if is_timeout e then (Ret data, after w [EvGoto url])
                 else (Raise e, after w [EvGoto url])
    end.
Proof.
  unfold extract_listing, mbind_M at 1, utcnow. unfold mbind_M at 1.
  unfold catch, mbind_M at 1, page_goto. rewrite call_run.
  destruct (pg_goto pg url) as [[]|e]; simpl; [reflexivity|].
  destruct (is_timeout e); reflexivity.
Qed.

Lemma initial_data_clean url now : host_fields_clean (initial_data url now).
Proof. split; [apply not_elem_of_nil | apply trimmed_nil]. Qed.

End ListingMore.

Section ListingProperties.
Context {U : UnicodeDB}.
Variable clock : nat -> datetime.

(** X4. [safe_inner_text] never raises.  It counts the elements, reads the
    text of the first one only when there is one, and returns that text
    stripped, or the empty string when there is no element or when either
    call raises; so what it returns has no white space at either end. *)
Theorem safe_inner_text_total (pg : Page) (root : option locator)
    (sel : selector) (w : world) :
  let loc := locate root sel in
  exists t evs,
    safe_inner_text pg root sel w = (Ret t, after w (EvCount loc :: evs))
    /\ trimmed t
    /\ (evs = [] \/ evs = [EvInnerText (First loc)])
    /\ (pg_count pg loc = Ret 0 -> t = [] /\ evs = [])
    /\ (forall e, pg_count pg loc = Raise e -> t = [] /\ evs = [])
    /\ (forall e, pg_inner_text pg (First loc) = Raise e -> t = [])
    /\ (forall n raw, pg_count pg loc = Ret (S n) ->
          pg_inner_text pg (First loc) = Ret raw ->
          t = strip raw /\ evs = [EvInnerText (First loc)]).
Proof.
  intros loc. rewrite safe_inner_text_run. fold loc.
  eexists _, _. split; [reflexivity|].
  split; [apply safe_text_trimmed|]. unfold safe_text. fold loc.
  destruct (pg_count pg loc) as [[|n]|e].
  - repeat split; auto; intros; discriminate.
  - split; [auto|]. split; [discriminate|]. split; [discriminate|].
    split.
    + intros e He. rewrite He. reflexivity.
    + intros n' raw _ ->. auto.
  - repeat split; auto; intros; discriminate.
Qed.

(** X5. When the three button counts answer, [click_more_buttons] makes
    exactly one click attempt on every button, label after label and in
    index order, whatever the clicks do, then waits; and it answers what
    the wait answers. *)
Theorem click_more_buttons_trace (pg : Page) (counts : string -> nat) (w : world) :
  (forall label, In label more_labels ->
     pg_count pg (Css (ButtonHasText label)) = Ret (counts label)) ->
  click_more_buttons pg w
  = (pg_wait_for_timeout pg 500,
     after w (click_attempts counts more_labels ++ [EvWaitForTimeout 500])).
Proof.
  intros Hc. pose proof (click_labels_run pg counts more_labels w Hc) as E.
  unfold click_more_buttons. unfold mbind_M at 1. cbv zeta in E |- *. rewrite E.
  unfold page_wait_for_timeout. rewrite call_run, after_after. reflexivity.
Qed.


(** X6. The whole-page fallback of [extract_listing] never raises and
    writes no field but the host's name and profile URL.  It makes no call
    when both are already set.  It is all or nothing: when either of its two
    reads raises, the record is left as it was, even if the other read
    answered. *)
Theorem host_fallback_all_or_nothing (pg : Page) (data : ListingRecord) (w : world) :
  let link := First (Css users_link) in
  exists d' w',
    host_fallback pg data w = (Ret d', w')
    /\ w_results w' = w_results w
    /\ same_rest data d'
    /\ (is_empty (host_name data) || is_empty (host_url data) = false ->
        d' = data /\ w' = w)
    /\ (forall e, pg_get_attribute pg link "href" = Raise e -> d' = data)
    /\ (forall e, pg_inner_text pg link = Raise e -> d' = data).
Proof.
  intros link. unfold host_fallback.
  destruct (is_empty (host_name data) || is_empty (host_url data)).
  - unfold catch, mbind_M, loc_get_attribute, loc_inner_text. rewrite call_run.
    fold link.
    destruct (pg_get_attribute pg link "href") as [href|e1]; simpl.
    + destruct (pg_inner_text pg link) as [text|e2]; simpl.
      * eexists _, _. split; [reflexivity|]. split; [reflexivity|].
        split; [|split; [discriminate | split; intros; discriminate]].
        destruct href as [h|]; [destruct (negb (is_empty h))|];
          destruct (negb (is_empty text)); repeat split.
      * eexists _, _. split; [reflexivity|]. split; [reflexivity|].
        split; [apply same_rest_refl|]. split; [discriminate|]. split; auto.
    + eexists _, _. split; [reflexivity|]. split; [reflexivity|].
      split; [apply same_rest_refl|]. split; [discriminate|]. split; auto.
  - exists data, w. split; [reflexivity|]. split; [reflexivity|].
    split; [apply same_rest_refl|]. auto.
Qed.

(** X7. What a run of [extract_listing] can end in.  If it returns a row,
    the row carries the URL it was given and the time read at the start,
    its host URL holds no question mark and its host name no white space at
    either end.  If it raises, the exception is one raised by a call no
    [try] protects: the navigation (other than a timeout), a button count,
    the settle wait, [page.title()], or a host-section count. *)
Theorem extract_listing_outcomes (pg : Page) (url : str) (w : world) :
  match fst (extract_listing clock pg url w) with
  | Ret row =>
      listing_url row = url
      /\ scraped_at row = isoformat (clock (length (w_events w)))
      /\ (63%N ∉ host_url row)
      /\ trimmed (host_name row)
  | Raise e => unguarded_raise pg url e
  end.
Proof.
  rewrite extract_listing_unfold. cbv zeta.
  set (data := initial_data url (clock (length (w_events w)))).
  destruct (pg_goto pg url) as [[]|e] eqn:Hgo.
  - pose proof (extract_loaded_outcomes clock pg url data (initial_data_clean _ _)
                  (after w [EvGoto url])) as H.
    destruct (fst (extract_loaded clock pg data (after w [EvGoto url])))
      as [row|e]; [|exact H].
    destruct H as (Hu & Hs & [Hc1 Hc2] & _). auto.
  - destruct (is_timeout e) eqn:Ht; simpl.
    + repeat split; try discriminate. apply not_elem_of_nil.
    + left. auto.
Qed.

(** X8. On a page that loads, the title of the returned row is the
    stripped text of the first h1 when that is not empty and the page title
    otherwise, and its licence code is what [extract_license_from_text]
    finds in the text of the body, the empty text standing for a body that
    cannot be read. *)
Theorem extract_listing_title_licence (pg : Page) (url : str) (w : world)
    (row : ListingRecord) :
  pg_goto pg url = Ret tt ->
  fst (extract_listing clock pg url w) = Ret row ->
  title_source pg (listing_title row)
  /\ extract_license_from_text (captured_body_text pg) = Ret (license_code row).
Proof.
  intros Hgo. rewrite extract_listing_unfold, Hgo. cbv zeta.
  set (data := initial_data url (clock (length (w_events w)))).
  pose proof (extract_loaded_outcomes clock pg url data (initial_data_clean _ _)
                (after w [EvGoto url])) as H.
  intros E. rewrite E in H. destruct H as (_ & _ & _ & Ht & Hl). auto.
Qed.

End ListingProperties.

(** ** Pages opened and closed *)

Section CallFacts.

Lemma quiet_nil : Forall quiet_event [].
Proof. constructor. Qed.

Lemma pco_mret {A} (a : A) : page_calls_only (mret a).
Proof. intros w. exists []. rewrite after_nil. split; [reflexivity | apply quiet_nil]. Qed.

Lemma pco_lift {A} (o : outcome A) : page_calls_only (lift o).
Proof. intros w. exists []. rewrite after_nil. split; [reflexivity | apply quiet_nil]. Qed.

Lemma pco_utcnow clock : page_calls_only (utcnow clock).
Proof. intros w. exists []. rewrite after_nil. split; [reflexivity | apply quiet_nil]. Qed.

Lemma pco_call {A} ev (o : outcome A) : quiet_event ev -> page_calls_only (call ev o).
Proof. intros H w. exists [ev]. split; [reflexivity | repeat constructor; apply H]. Qed.

Lemma pco_bind {A B} (m : M A) (f : A -> M B) :
  page_calls_only m -> (forall a, page_calls_only (f a)) ->
  page_calls_only (mbind_M m f).
Proof.
  intros Hm Hf w. unfold mbind_M. destruct (Hm w) as (evs & E & Hq).
  destruct (m w) as [[a|e] w']; simpl in E; subst w'.
  - destruct (Hf a (after w evs)) as (evs' & E' & Hq').
    exists (evs ++ evs'). rewrite E', after_after.
    split; [reflexivity | apply Forall_app; auto].
  - exists evs. auto.
Qed.

Lemma pco_catch {A} (m h : M A) handles :
  page_calls_only m -> page_calls_only h -> page_calls_only (catch m handles h).
Proof.
  intros Hm Hh w. unfold catch. destruct (Hm w) as (evs & E & Hq).
  destruct (m w) as [[a|e] w']; simpl in E; subst w'.
  - exists evs. auto.
  - destruct (handles e); [|exists evs; auto].
    destruct (Hh (after w evs)) as (evs' & E' & Hq').
    exists (evs ++ evs'). rewrite E', after_after.
    split; [reflexivity | apply Forall_app; auto].
Qed.

Lemma pco_for_each {A} (l : list A) (body : A -> M unit) :
  (forall x, page_calls_only (body x)) -> page_calls_only (for_each l body).
Proof.
  intros Hb. induction l as [|x l IH]; simpl.
  - apply pco_mret.
  - apply pco_bind; [apply Hb | intros _; exact IH].
Qed.

Lemma quiet_counts evs : Forall quiet_event evs -> closes evs = 0 /\ opens evs = 0.
Proof.
  unfold closes, opens. induction 1 as [|ev evs [Hc Hn] _ [IH1 IH2]]; [auto|].
  simpl. rewrite Hc, Hn. auto.
Qed.

Lemma closes_app a b : closes (a ++ b) = closes a + closes b.
Proof. unfold closes. rewrite List.filter_app, length_app. reflexivity. Qed.

Lemma opens_app a b : opens (a ++ b) = opens a + opens b.
Proof. unfold opens. rewrite List.filter_app, length_app. reflexivity. Qed.

End CallFacts.

Ltac page_calls :=
  repeat first
    [ apply pco_mret | apply pco_lift | apply pco_utcnow
    | apply pco_call; split; reflexivity
    | apply pco_bind | apply pco_catch | apply pco_for_each
    | match goal with
      | |- forall _, _ => intro
      | |- page_calls_only (if ?b then _ else _) => destruct b
      | |- page_calls_only (match ?x with _ => _ end) => destruct x
      end ].

Section CallsOfTheScraper.
Context {U : UnicodeDB}.
Variable clock : nat -> datetime.

Lemma safe_inner_text_calls pg root sel : page_calls_only (safe_inner_text pg root sel).
Proof. unfold safe_inner_text, loc_count, loc_inner_text. page_calls. Qed.

Lemma click_more_buttons_calls pg : page_calls_only (click_more_buttons pg).
Proof.
  unfold click_more_buttons, loc_count, loc_click, page_wait_for_timeout. page_calls.
Qed.

Lemma read_host_section_calls pg sec data :
  page_calls_only (read_host_section pg sec data).
Proof.
  unfold read_host_section.
  apply pco_bind; [unfold loc_inner_text; page_calls|]. intros host_text.
  apply pco_bind; [apply safe_inner_text_calls|]. intros name.
  unfold loc_count, loc_get_attribute. page_calls.
Qed.

Lemma find_host_section_calls pg data : page_calls_only (find_host_section pg data).
Proof.
  unfold find_host_section, loc_count.
  apply pco_bind; [page_calls|]. intros n.
  apply pco_bind; [page_calls|]. intros m.
  destruct (0 <? m); [apply read_host_section_calls | apply pco_mret].
Qed.

Lemma host_fallback_calls pg data : page_calls_only (host_fallback pg data).
Proof. unfold host_fallback, loc_get_attribute, loc_inner_text. page_calls. Qed.

Lemma extract_loaded_calls pg data : page_calls_only (extract_loaded clock pg data).
Proof.
  unfold extract_loaded.
  apply pco_bind; [apply click_more_buttons_calls|]. intros _.
  apply pco_bind; [apply safe_inner_text_calls|]. intros h1.
  apply pco_bind; [unfold page_title; page_calls|]. intros title.
  apply pco_bind; [unfold loc_inner_text; page_calls|]. intros body.
  apply pco_bind; [page_calls|]. intros code.
  apply pco_bind; [apply find_host_section_calls|]. intros found.
  apply pco_bind; [apply host_fallback_calls|]. intros data'.
  page_calls.
Qed.

Lemma extract_listing_calls pg url : page_calls_only (extract_listing clock pg url).
Proof.
  unfold extract_listing.
  apply pco_bind; [apply pco_utcnow|]. intros now.
  apply pco_bind; [unfold page_goto; page_calls|]. intros loaded.
  destruct (negb loaded); [apply pco_mret | apply extract_loaded_calls].
Qed.

Lemma scroll_pass_calls cap sp k seen last :
  page_calls_only (scroll_pass cap sp k seen last).
Proof. unfold scroll_pass. page_calls. Qed.

Lemma scroll_loop_calls cap sp fuel : forall k seen last,
  page_calls_only (scroll_loop cap fuel sp k seen last).
Proof.
  induction fuel as [|fuel IH]; intros k seen last; simpl; [apply pco_mret|].
  apply pco_bind; [apply scroll_pass_calls|].
  intros [s|s h]; [apply pco_mret | apply IH].
Qed.

Lemma collect_calls cap fuel sp url :
  page_calls_only (collect_listing_urls cap fuel sp url).
Proof.
  unfold collect_listing_urls.
  apply pco_bind; [page_calls|]. intros _.
  apply pco_bind; [apply scroll_loop_calls | intros found; apply pco_mret].
Qed.

End CallsOfTheScraper.

Section WorkerProperties.
Context {U : UnicodeDB}.
Variable clock : nat -> datetime.

(** X9. A worker that cannot open a page raises at once: no row, no
    close.  Once its page is open it closes it exactly once, as its last
    call and on every path, and opens no other.  It appends one row when
    [extract_listing] returns and none when it raises; and an exception from
    [page.close()] replaces the result, the row staying in [results]. *)
Theorem worker_closes_page (pg : Page) (url : str) (w : world) :
  (forall e, worker clock (Raise e) url w = (Raise e, after w [EvNewPage]))
  /\ exists evs,
       Forall quiet_event evs
       /\ w_events (snd (worker clock (Ret pg) url w))
          = w_events w ++ EvNewPage :: evs ++ [EvClose]
       /\ match fst (extract_listing clock pg url (after w [EvNewPage])) with
          | Ret row =>
              w_results (snd (worker clock (Ret pg) url w)) = w_results w ++ [row]
              /\ fst (worker clock (Ret pg) url w)
                 = match pg_close pg with
                   | Ret _ => Ret tt
                   | Raise e' => Raise e'
                   end
          | Raise e =>
              w_results (snd (worker clock (Ret pg) url w)) = w_results w
              /\ fst (worker clock (Ret pg) url w)
                 = Raise match pg_close pg with
                         | Ret _ => e
                         | Raise e' => e'
                         end
          end.
Proof.
  split; [reflexivity|].
  set (run := worker clock (Ret pg) url w).
  assert (Hrun : run = finally (row <- extract_listing clock pg url ;;
                                append_result row)%prog
                         (page_close pg) (after w [EvNewPage])) by reflexivity.
  clearbody run. subst run.
  destruct (extract_listing_calls clock pg url (after w [EvNewPage]))
    as (evs & E & Hq).
  exists evs. split; [exact Hq|].
  unfold finally, mbind_M.
  destruct (extract_listing clock pg url (after w [EvNewPage])) as [[row|e] w1];
    simpl in E; subst w1; unfold append_result, page_close, call; simpl;
    destruct (pg_close pg) as [[]|e']; simpl;
    rewrite <- !app_assoc; auto.
Qed.

End WorkerProperties.

(** ** Discovery, further *)

Section CrawlMore.
Variable cap : Z.

Lemma seen_after_spec (anchors : nat -> list str) k u :
  u ∈ seen_after anchors k <->
  exists j h, j <= k /\ h ∈ anchors j /\ contains rooms_marker h = true
              /\ u = normalize h.
Proof.
  induction k as [|k IH]; simpl; rewrite harvest_spec.
  - split.
    + intros [Hu|(h & Hh & Hc & ->)]; [set_solver|].
      exists 0, h. split; [lia|]. split; [|auto].
      apply (keep_first_seen_spec (anchors 0)). exact Hh.
    + intros (j & h & Hj & Hh & Hc & ->). right. exists h.
      assert (j = 0) by lia. subst j.
      split; [apply (keep_first_seen_spec (anchors 0)); exact Hh | auto].
  - rewrite IH. split.
    + intros [(j & h & Hj & Hh & Hc & ->)|(h & Hh & Hc & ->)].
      * exists j, h. split; [lia | auto].
      * exists (S k), h. split; [lia|]. split; [|auto].
        apply (keep_first_seen_spec (anchors (S k))). exact Hh.
    + intros (j & h & Hj & Hh & Hc & ->).
      destruct (decide (j = S k)) as [->|Hne].
      * right. exists h.
        split; [apply (keep_first_seen_spec (anchors (S k))); exact Hh | auto].
      * left. exists j, h. split; [lia | auto].
Qed.

Lemma py_slice_until_subset n (l : list str) x : x ∈ py_slice_until n l -> x ∈ l.
Proof.
  unfold py_slice_until. destruct (0 <=? n)%Z; intros Hx;
    apply elem_of_take in Hx as (i & Hi & _); eapply list_elem_of_lookup_2; eauto.
Qed.

Lemma py_slice_until_all n (l : list str) :
  (Z.of_nat (length l) <= n)%Z -> py_slice_until n l = l.
Proof.
  intros H. unfold py_slice_until.
  destruct (Z.leb_spec 0 n); [|lia]. apply take_ge. lia.
Qed.

Lemma scroll_pass_outcomes sp url k seen last :
  outcomes (scroll_pass cap sp k seen last) (fun _ => True)
           (search_page_raise sp url).
Proof.
  unfold scroll_pass.
  apply (outcomes_bind _ _ (fun _ => True)).
  { apply outcomes_call; [auto|]. intros e He. right. exists k. auto. }
  intros anchors _. destruct (cap <=? _)%Z; [apply outcomes_mret; exact I|].
  apply (outcomes_bind _ _ (fun _ => True)).
  { apply outcomes_call; [auto|]. intros e He. right. exists k. auto. }
  intros _ _.
  apply (outcomes_bind _ _ (fun _ => True)).
  { apply outcomes_call; [auto|]. intros e He. right. exists k. auto. }
  intros _ _.
  apply (outcomes_bind _ _ (fun _ => True)).
  { apply outcomes_call; [auto|]. intros e He. right. exists k. auto. }
  intros h _. destruct (_ =? _)%Z; apply outcomes_mret; exact I.
Qed.

Lemma scroll_loop_outcomes sp url fuel : forall k seen last,
  outcomes (scroll_loop cap fuel sp k seen last) (fun _ => True)
           (search_page_raise sp url).
Proof.
  induction fuel as [|fuel IH]; intros k seen last; simpl;
    [apply outcomes_mret; exact I|].
  eapply outcomes_bind; [apply scroll_pass_outcomes|].
  intros [s|s h] _; [apply outcomes_mret; exact I | apply IH].
Qed.

Lemma collect_outcomes fuel sp url :
  outcomes (collect_listing_urls cap fuel sp url) (fun _ => True)
           (search_page_raise sp url).
Proof.
  unfold collect_listing_urls.
  apply (outcomes_bind _ _ (fun _ => True)).
  { apply outcomes_call; [auto|]. intros e He. left. exact He. }
  intros _ _. eapply outcomes_bind; [apply scroll_loop_outcomes|].
  intros found _. apply outcomes_mret. exact I.
Qed.

Lemma collect_discovered fuel sp url w l :
  fst (collect_listing_urls cap fuel sp url w) = Ret (Some l) ->
  forall u, u ∈ l -> discovered sp u.
Proof.
  destruct (collect_listing_urls cap fuel sp url w) as [r w'] eqn:E. simpl.
  intros ->. apply collect_inv in E as (seen & w1 & Hloop & ->).
  intros u Hu. apply py_slice_until_subset in Hu. apply elem_of_elements in Hu.
  eapply (scroll_loop_discovered cap sp fuel); [|exact Hloop|exact Hu].
  intros v Hv. set_solver.
Qed.

(** The fold of [keep_first_seen], started from keys already kept. *)
Lemma keep_first_seen_from (l acc : list str) :
  foldl (fun acc k => if decide (k ∈ acc) then acc else acc ++ [k]) acc l
  = acc ++ filter (fun x => x ∉ acc) (keep_first_seen l).
Proof.
  unfold keep_first_seen. induction l as [|k l IH] using rev_ind; simpl.
  - rewrite filter_nil, app_nil_r. reflexivity.
  - rewrite !foldl_app. simpl. rewrite IH.
    set (K := foldl _ [] l).
    destruct (decide (k ∈ K)) as [HK|HK].
    + destruct (decide (k ∈ acc ++ filter (fun x => x ∉ acc) K)) as [_|Hn];
        [reflexivity|].
      exfalso. apply Hn. apply elem_of_app.
      destruct (decide (k ∈ acc)) as [Ha|Ha]; [left; exact Ha|].
      right. apply list_elem_of_filter. auto.
    + rewrite filter_app.
      destruct (decide (k ∈ acc)) as [Ha|Ha].
      * rewrite filter_cons_False by (intros Hf; apply Hf; exact Ha).
        rewrite filter_nil, app_nil_r.
        destruct (decide (k ∈ acc ++ filter (fun x => x ∉ acc) K)) as [_|Hn];
          [reflexivity|].
        exfalso. apply Hn. apply elem_of_app. left. exact Ha.
      * rewrite filter_cons_True by exact Ha. rewrite filter_nil.
        destruct (decide (k ∈ acc ++ filter (fun x => x ∉ acc) K)) as [Hin|_].
        -- exfalso. apply elem_of_app in Hin as [Hin|Hin]; [auto|].
           apply list_elem_of_filter in Hin as [_ Hin]. auto.
        -- rewrite app_assoc. reflexivity.
Qed.

End CrawlMore.

Section CrawlProperties.

(** X10. [collect_listing_urls] guards none of its calls: a failed
    navigation ends it at once, with no other call made, and whatever it
    raises is what one of its own page calls raised.  It never touches
    [results] and never opens or closes a page. *)
Theorem collect_listing_urls_propagates (cap : Z) (fuel : nat) (sp : SearchPage)
    (url : str) (w : world) :
  (forall e, sp_goto sp url = Raise e ->
     collect_listing_urls cap fuel sp url w = (Raise e, after w [EvGoto url]))
  /\ (forall e, fst (collect_listing_urls cap fuel sp url w) = Raise e ->
        search_page_raise sp url e)
  /\ exists evs,
       snd (collect_listing_urls cap fuel sp url w) = after w evs
       /\ Forall quiet_event evs.
Proof.
  split; [|split].
  - intros e He. unfold collect_listing_urls, mbind_M at 1. rewrite call_run, He.
    reflexivity.
  - intros e He. pose proof (collect_outcomes cap fuel sp url w) as H.
    rewrite He in H. exact H.
  - apply collect_calls.
Qed.

(** X11. With a cap of zero or less the loop is left at its first test:
    after the navigation and one harvest, without any scroll.  A cap of zero
    returns nothing; a negative cap -k returns the URLs of that first
    harvest but the last k of them. *)
Theorem nonpositive_cap_never_scrolls (cap : Z) (fuel : nat) (sp : SearchPage)
    (url : str) (w : world) (anchors : list str) :
  (cap <= 0)%Z ->
  sp_goto sp url = Ret tt ->
  sp_anchor_hrefs sp 0 = Ret anchors ->
  exists l,
    collect_listing_urls cap (S fuel) sp url w
    = (Ret (Some l), after w [EvGoto url; ev_harvest])
    /\ (cap = 0%Z -> l = [])
    /\ ((cap < 0)%Z ->
        l = take (size (harvest ∅ (js_array_from_set anchors)) - Z.to_nat (- cap))
                 (elements (harvest ∅ (js_array_from_set anchors)))).
Proof.
  intros Hcap Hgo Ha. rewrite (collect_unfold cap (S fuel) sp url w Hgo).
  rewrite scroll_loop_unfold.
  unfold scroll_pass, mbind_M, call. rewrite Ha. simpl.
  destruct (Z.leb_spec cap (Z.of_nat (size (harvest ∅ (js_array_from_set anchors)))))
    as [_|Hlt]; [|lia].
  simpl. eexists. split.
  - unfold after. simpl. rewrite <- app_assoc. reflexivity.
  - unfold py_slice_until. split.
    + intros ->. reflexivity.
    + intros Hneg. destruct (Z.leb_spec 0 cap); [lia|]. reflexivity.
Qed.

(** X12. On a page that answers and whose height stops changing after N
    scrolls while fewer than the cap have been found, nothing found is
    lost: the list returned holds, each once, exactly the normalized hrefs
    of the listing anchors shown at any time up to the stop. *)
Theorem convergence_returns_all (cap : Z) (sp : SearchPage) (url : str)
    (anchors : nat -> list str) (height : nat -> N) (n fuel : nat) (w : world) :
  page_answers sp url anchors height ->
  stops_changing_after height n ->
  (forall k, k <= Nat.max n 1 ->
     (Z.of_nat (size (seen_after anchors k)) < cap)%Z) ->
  Nat.max n 1 + 1 <= fuel ->
  exists l w',
    collect_listing_urls cap fuel sp url w = (Ret (Some l), w')
    /\ NoDup l
    /\ forall u, u ∈ l <->
         exists j h, j <= Nat.max n 1 /\ h ∈ anchors j
                     /\ contains rooms_marker h = true /\ u = normalize h.
Proof.
  intros Hans [Hchg Hstop] Hbelow Hfuel.
  destruct (scroll_loop_run cap sp url anchors height (Nat.max n 1) Hans)
    with (d := Nat.max n 1) (k := 0) (fuel := fuel) (w := after w [EvGoto url])
    as (w' & E & _); try lia.
  { intros k Hk. apply Hchg. lia. }
  { apply Hstop. lia. }
  { exact Hbelow. }
  rewrite (collect_unfold cap fuel sp url w (proj1 Hans)), E.
  eexists _, w'. split; [reflexivity|].
  rewrite py_slice_until_all.
  2:{ specialize (Hbelow (Nat.max n 1) ltac:(lia)).
      change (length (elements ?s)) with (size s). lia. }
  split; [apply NoDup_elements|].
  intros u. rewrite elem_of_elements. apply seen_after_spec.
Qed.

(** X13. Removing the duplicates of the concatenated lists keeps the
    URLs of the earlier searches where they are and appends, of a later
    search, only the URLs not met before; doing it twice changes nothing
    more. *)
Theorem dict_fromkeys_extend (l1 l2 : list str) :
  dict_fromkeys_list (l1 ++ l2)
  = dict_fromkeys_list l1 ++ filter (fun u => u ∉ l1) (dict_fromkeys_list l2)
  /\ dict_fromkeys_list (dict_fromkeys_list l1) = dict_fromkeys_list l1
  /\ length (dict_fromkeys_list l1) <= length l1.
Proof.
  unfold dict_fromkeys_list.
  destruct (keep_first_seen_spec l1) as (Hnd & Hin & _).
  split; [|split].
  - unfold keep_first_seen at 1. rewrite foldl_app.
    fold (keep_first_seen l1). rewrite keep_first_seen_from. f_equal.
    apply list_filter_iff. intros x. rewrite Hin. reflexivity.
  - apply keep_first_seen_nodup. exact Hnd.
  - apply submseteq_length. apply NoDup_submseteq; [exact Hnd|].
    intros x Hx. apply Hin. exact Hx.
Qed.

End CrawlProperties.

(** ** The first stage of the orchestrator *)

Section StageOneFacts.
Variable cap : Z.
Variable fuel : nat.

Lemma discover_one_fails e url all w :
  discover_one cap fuel (Raise e) url all w = (Raise e, after w [EvNewPage]).
Proof. reflexivity. Qed.

(** One search whose page opens: the page is closed unless the loop is
    still running. *)
Lemma discover_one_run sp url all w :
  exists evs,
    Forall quiet_event evs
    /\ match fst (collect_listing_urls cap fuel sp url (after w [EvNewPage])) with
       | Ret None =>
           discover_one cap fuel (Ret sp) url all w
           = (Ret None, after w (EvNewPage :: evs))
       | Ret (Some l) =>
           discover_one cap fuel (Ret sp) url all w
           = (match sp_close sp with
              | Ret _ => Ret (Some (all ++ l))
              | Raise e' => Raise e'
              end,
              after w (EvNewPage :: evs ++ [EvClose]))
       | Raise e =>
           discover_one cap fuel (Ret sp) url all w
           = (Raise match sp_close sp with
                    | Ret _ => e
                    | Raise e' => e'
                    end,
              after w (EvNewPage :: evs ++ [EvClose]))
       end.
Proof.
  set (run := discover_one cap fuel (Ret sp) url all w).
  assert (Hrun : run = finally_ended
                   (found <- collect_listing_urls cap fuel sp url ;;
                    mret (option_map (fun listing_urls => all ++ listing_urls)
                                     found))%prog
                   (call EvClose (sp_close sp)) (after w [EvNewPage]))
    by reflexivity.
  clearbody run. subst run.
  destruct (collect_calls cap fuel sp url (after w [EvNewPage])) as (evs & E & Hq).
  exists evs. split; [exact Hq|].
  unfold finally_ended, finally, mbind_M.
  destruct (collect_listing_urls cap fuel sp url (after w [EvNewPage]))
    as [[[l|]|e] w1]; simpl in E; subst w1; unfold mret, call; simpl;
    try destruct (sp_close sp) as [[]|e']; simpl;
    unfold after; simpl; rewrite <- ?app_assoc; reflexivity.
Qed.

Lemma closes_cons_quiet evs :
  Forall quiet_event evs ->
  closes (EvNewPage :: evs ++ [EvClose]) = 1 /\ opens (EvNewPage :: evs ++ [EvClose]) = 1.
Proof.
  intros Hq. destruct (quiet_counts evs Hq) as [Hc Ho].
  change (EvNewPage :: evs ++ [EvClose]) with ([EvNewPage] ++ evs ++ [EvClose]).
  rewrite !closes_app, !opens_app, Hc, Ho. split; reflexivity.
Qed.

(** What the loop over the searches maintains. *)
Lemma discover_loop_spec searches : forall all w,
  fst (discover_loop cap fuel searches all w) <> Ret None ->
  exists evs,
    snd (discover_loop cap fuel searches all w) = after w evs
    /\ closes evs <= opens evs <= closes evs + 1
    /\ (Forall (fun s => exists sp, snd s = Ret sp) searches ->
        opens evs = closes evs)
    /\ forall l, fst (discover_loop cap fuel searches all w) = Ret (Some l) ->
         opens evs = length searches /\ closes evs = length searches
         /\ forall u, u ∈ l ->
              u ∈ all \/ exists url sp, (url, Ret sp) ∈ searches /\ discovered sp u.
Proof.
  induction searches as [|[url np] rest IH]; intros all w Hend; simpl in *.
  - exists []. rewrite after_nil. split; [reflexivity|].
    split; [unfold closes, opens; simpl; lia|]. split; [reflexivity|].
    intros l Hl. inversion Hl; subst. simpl. auto.
  - unfold mbind_M in *. destruct np as [sp|e].
    + destruct (discover_one_run sp url all w) as (evs & Hq & Hone).
      destruct (closes_cons_quiet evs Hq) as [Hc1 Ho1].
      pose proof (collect_discovered cap fuel sp url (after w [EvNewPage])) as Hdisc.
      destruct (fst (collect_listing_urls cap fuel sp url (after w [EvNewPage])))
        as [[l0|]|e].
      * rewrite Hone in *. destruct (sp_close sp) as [[]|e'].
        -- destruct (IH (all ++ l0) (after w (EvNewPage :: evs ++ [EvClose])) Hend)
             as (evs' & E' & Hbal & Hall & Hres).
           exists ((EvNewPage :: evs ++ [EvClose]) ++ evs').
           rewrite E', after_after. split; [reflexivity|].
           rewrite closes_app, opens_app, Hc1, Ho1.
           split; [lia|]. split.
           ++ intros HF. inversion HF; subst. rewrite Hall by assumption. reflexivity.
           ++ intros l Hl. destruct (Hres l Hl) as (Ho & Hc & Hin).
              split; [lia|]. split; [lia|].
              intros u Hu. destruct (Hin u Hu) as [Ha|(url' & sp' & Hs & Hd)].
              ** apply elem_of_app in Ha as [Ha|Ha]; [left; exact Ha|].
                 right. exists url, sp. split; [left | eapply Hdisc; eauto].
              ** right. exists url', sp'. split; [right; exact Hs | exact Hd].
        -- exists (EvNewPage :: evs ++ [EvClose]). split; [reflexivity|].
           rewrite Hc1, Ho1. split; [lia|]. split; [reflexivity|].
           intros l Hl. discriminate.
      * rewrite Hone in Hend. simpl in Hend. congruence.
      * rewrite Hone. exists (EvNewPage :: evs ++ [EvClose]). split; [reflexivity|].
        rewrite Hc1, Ho1. split; [lia|]. split; [reflexivity|].
        intros l Hl. discriminate.
    + rewrite discover_one_fails. exists [EvNewPage]. split; [reflexivity|].
      split; [unfold closes, opens; simpl; lia|]. split.
      * intros HF. inversion HF as [|? ? [sp Hsp] _]. discriminate.
      * intros l Hl. discriminate.
Qed.

End StageOneFacts.

Section StageOneProperties.

(** X14. The first stage of [scrape_all], when its loops end.  Every
    search page that was opened is closed, also when discovery raises:
    the calls to [context.new_page()] exceed the closes by at most one, and
    by none when each of them gave a page.  When the stage returns, one page
    was opened and closed per search URL, and the list it gives holds no
    URL twice and only URLs discovered on one of the search pages. *)
Theorem discover_closes_every_page (cap : Z) (fuel : nat)
    (searches : list (str * outcome SearchPage)) (w : world) :
  fst (discover cap fuel searches w) <> Ret None ->
  exists evs,
    snd (discover cap fuel searches w) = after w evs
    /\ closes evs <= opens evs <= closes evs + 1
    /\ (Forall (fun s => exists sp, snd s = Ret sp) searches ->
        opens evs = closes evs)
    /\ forall urls, fst (discover cap fuel searches w) = Ret (Some urls) ->
         opens evs = length searches /\ closes evs = length searches
         /\ NoDup urls
         /\ forall u, u ∈ urls ->
              exists url sp, (url, Ret sp) ∈ searches /\ discovered sp u.
Proof.
  unfold discover, mbind_M, mret. intros Hend.
  destruct (discover_loop_spec cap fuel searches [] w) as (evs & E & Hbal & Hall & Hres).
  { intros H. apply Hend.
    destruct (discover_loop cap fuel searches [] w) as [[[l|]|e] w1];
      simpl in *; congruence. }
  exists evs.
  destruct (discover_loop cap fuel searches [] w) as [[[l|]|e] w1];
    simpl in *; subst w1; (split; [reflexivity|]); (split; [exact Hbal|]);
    (split; [exact Hall|]); intros urls Hu; try discriminate.
  inversion Hu; subst urls. destruct (Hres l eq_refl) as (Ho & Hc & Hin).
  split; [exact Ho|]. split; [exact Hc|].
  destruct (keep_first_seen_spec l) as (Hnd & Hmem & _).
  split; [exact Hnd|].
  intros u Hu'. apply Hmem in Hu'. destruct (Hin u Hu') as [Hnil|H]; [|exact H].
  inversion Hnil.
Qed.

End StageOneProperties.

(** ** The semaphore, further *)

Section SchedulingMore.

Lemma count_if_pos f (l : list task) :
  0 < count_if f l -> exists i t, l !! i = Some t /\ f t = true.
Proof.
  unfold count_if. induction l as [|a l IH]; simpl; [lia|].
  destruct (f a) eqn:Hf.
  - intros _. exists 0, a. auto.
  - intros H. destruct (IH H) as (i & t & Hi & Ht). exists (S i), t. auto.
Qed.

Lemma count_if_zero f (l : list task) i t :
  count_if f l = 0 -> l !! i = Some t -> f t = false.
Proof.
  intros H Hi. destruct (f t) eqn:Hf; [|reflexivity].
  unfold count_if in H. exfalso. revert i Hi H.
  induction l as [|a l IH]; intros [|i] Hi H; simpl in *; try discriminate.
  - inversion Hi; subst. rewrite Hf in H. discriminate.
  - destruct (f a); [discriminate|]. eapply IH; eauto.
Qed.

Lemma holder_steps st i t :
  tasks st !! i = Some t -> holds_slot t = true -> exists st', step st st'.
Proof.
  intros Hi Hh. destruct t; try discriminate.
  - eexists. exact (step_new_page st i Hi).
  - eexists. exact (step_close st i Hi).
  - eexists. exact (step_release st i Hi).
Qed.

Lemma reachable_length cap workers st :
  reachable_from (start_pool cap workers) st -> length (tasks st) = workers.
Proof.
  induction 1 as [|st st' _ IH Hstep].
  - simpl. apply List.repeat_length.
  - destruct Hstep; simpl; rewrite length_insert; exact IH.
Qed.

End SchedulingMore.

Section SchedulingProperties.

(** X15. A semaphore that starts positive never deadlocks the workers: in
    every state they can reach, either some worker can take a step, or all
    of them have finished and the semaphore is back at its initial value. *)
Theorem semaphore_no_deadlock (cap workers : nat) (st : pool) :
  0 < cap ->
  reachable_from (start_pool cap workers) st ->
  (exists st', step st st')
  \/ (Forall (fun t => t = Done) (tasks st) /\ sem_value st = cap
      /\ length (tasks st) = workers).
Proof.
  intros Hcap Hreach.
  pose proof (reachable_conserves_slots _ _ _ Hreach) as Hslots.
  destruct (Nat.eq_dec (slots_held st) 0) as [Hz|Hnz].
  - assert (Hdec : forall t : task, {t = Done} + {t <> Done})
      by (intros []; (left; reflexivity) || (right; discriminate)).
    destruct (Forall_Exists_dec (fun t => t = Done) (fun t => t <> Done) Hdec
                (tasks st)) as [Hall|Hex].
    + right. split; [exact Hall|]. split; [lia|].
      eapply reachable_length; eauto.
    + left. apply Exists_exists in Hex as (t & Hin & Hnd).
      apply list_elem_of_lookup in Hin as [i Hi].
      pose proof (count_if_zero holds_slot (tasks st) i t Hz Hi) as Hh.
      destruct t; try discriminate; [|congruence].
      eexists. apply (step_acquire st i Hi). lia.
  - left. destruct (count_if_pos holds_slot (tasks st)) as (i & t & Hi & Hh).
    { unfold slots_held in Hnz. lia. }
    eapply holder_steps; eauto.
Qed.

(** X16. A semaphore of zero lets no worker through: the workers stay
    where [asyncio.gather] started them, no page is ever opened and no step
    is ever possible. *)
Theorem semaphore_zero_blocks (workers : nat) (st : pool) :
  reachable_from (start_pool 0 workers) st ->
  st = start_pool 0 workers
  /\ open_sessions st = 0
  /\ forall st', ~ step st st'.
Proof.
  intros Hreach.
  assert (Hstuck : forall st', ~ step (start_pool 0 workers) st').
  { intros st' Hstep.
    inversion Hstep as [s i Hi Hfree|s i Hi|s i Hi|s i Hi|s i Hi]; subst;
      simpl in *; try lia;
      apply list_elem_of_lookup_2, list_elem_of_In, repeat_spec in Hi; discriminate. }
  assert (Heq : st = start_pool 0 workers).
  { induction Hreach as [|st st' _ IH Hstep]; [reflexivity|].
    subst st. destruct (Hstuck _ Hstep). }
  subst st. split; [reflexivity|]. split; [|exact Hstuck].
  unfold open_sessions. simpl. apply count_if_waiting. reflexivity.
Qed.

End SchedulingProperties.

(** ** The further properties at work on the scripted pages *)

Section MoreWitnesses.
Local Existing Instance latin1_db.

Lemma click_more_buttons_trace_witness :
  (forall label, In label more_labels ->
     pg_count page_name_in_section (Css (ButtonHasText label)) = Ret 0)
  /\ click_more_buttons page_name_in_section fresh_world
     = (Ret tt,
        after fresh_world
          [EvCount (Css (ButtonHasText "Lire la suite"));
           EvCount (Css (ButtonHasText "Afficher plus"));
           EvCount (Css (ButtonHasText "En savoir plus"));
           EvWaitForTimeout 500]).
Proof.
  assert (H : forall label, In label more_labels ->
                pg_count page_name_in_section (Css (ButtonHasText label)) = Ret 0).
  { intros label [<-|[<-|[<-|[]]]]; reflexivity. }
  split; [exact H|].
  exact (click_more_buttons_trace page_name_in_section (fun _ => 0) fresh_world H).
Defined.

Lemma extract_listing_title_licence_witness :
  pg_goto page_name_in_section sample_url = Ret tt
  /\ exists row,
       fst (extract_listing sample_clock page_name_in_section sample_url fresh_world)
       = Ret row
       /\ title_source page_name_in_section (listing_title row)
       /\ extract_license_from_text (captured_body_text page_name_in_section)
          = Ret (license_code row).
Proof.
  split; [reflexivity|].
  eexists. split; [vm_compute; reflexivity|].
  apply (extract_listing_title_licence sample_clock page_name_in_section sample_url
           fresh_world); [reflexivity | vm_compute; reflexivity].
Defined.

Lemma nonpositive_cap_never_scrolls_witness :
  ((0 <= 0)%Z /\ sp_goto page_static sample_search_url = Ret tt
   /\ sp_anchor_hrefs page_static 0 = Ret two_listing_anchors)
  /\ collect_listing_urls 0 1 page_static sample_search_url fresh_world
     = (Ret (Some []), after fresh_world [EvGoto sample_search_url; ev_harvest]).
Proof.
  split; [split; [lia | split; reflexivity]|].
  destruct (nonpositive_cap_never_scrolls 0 0 page_static sample_search_url
              fresh_world two_listing_anchors ltac:(lia) eq_refl eq_refl)
    as (l & E & Hzero & _).
  rewrite E, (Hzero eq_refl). reflexivity.
Defined.

Lemma convergence_returns_all_witness :
  (page_answers page_growing sample_search_url (fun _ => three_listing_anchors)
     growing_height
   /\ stops_changing_after growing_height 2)
  /\ exists l w',
       collect_listing_urls MAX_LISTINGS_PER_SEARCH_default 5 page_growing
         sample_search_url fresh_world = (Ret (Some l), w')
       /\ NoDup l
       /\ forall h, h ∈ three_listing_anchors ->
            contains rooms_marker h = true -> normalize h ∈ l.
Proof.
  assert (Ha : page_answers page_growing sample_search_url
                 (fun _ => three_listing_anchors) growing_height).
  { split; [reflexivity | intros k; repeat split]. }
  assert (Hs : stops_changing_after growing_height 2).
  { split; intros k Hk; destruct k as [|[|k]]; try lia;
      try reflexivity; simpl; discriminate. }
  split; [split; assumption|].
  destruct (convergence_returns_all MAX_LISTINGS_PER_SEARCH_default page_growing
              sample_search_url _ _ 2 5 fresh_world Ha Hs
              ltac:(intros k _; rewrite seen_after_const;
                    apply Z.ltb_lt; vm_compute; reflexivity)
              ltac:(simpl; lia))
    as (l & w' & E & Hnd & Hin).
  exists l, w'. split; [exact E|]. split; [exact Hnd|].
  intros h Hh Hc. apply Hin. exists 0, h. split; [lia | auto].
Defined.

Lemma discover_closes_every_page_witness :
  fst (discover MAX_LISTINGS_PER_SEARCH_default 5
         [(sample_search_url, Ret page_static)] fresh_world) <> Ret None
  /\ exists evs,
       snd (discover MAX_LISTINGS_PER_SEARCH_default 5
              [(sample_search_url, Ret page_static)] fresh_world)
       = after fresh_world evs
       /\ opens evs = closes evs.
Proof.
  assert (H : fst (discover MAX_LISTINGS_PER_SEARCH_default 5
                     [(sample_search_url, Ret page_static)] fresh_world) <> Ret None).
  { vm_compute. discriminate. }
  split; [exact H|].
  destruct (discover_closes_every_page MAX_LISTINGS_PER_SEARCH_default 5
              [(sample_search_url, Ret page_static)] fresh_world H)
    as (evs & E & _ & Hall & _).
  exists evs. split; [exact E|]. apply Hall.
  repeat constructor. exists page_static. reflexivity.
Defined.

Lemma semaphore_no_deadlock_witness :
  (0 < default_slots /\ reachable_from (start_pool default_slots 9) pool_one_open)
  /\ ((exists st', step pool_one_open st')
      \/ (Forall (fun t => t = Done) (tasks pool_one_open)
          /\ sem_value pool_one_open = default_slots
          /\ length (tasks pool_one_open) = 9)).
Proof.
  assert (Hpos : 0 < default_slots) by (apply Nat.ltb_lt; reflexivity).
  assert (H : reachable_from (start_pool default_slots 9) pool_one_open).
  { apply (reach_step _ pool_one_acquired).
    - apply (reach_step _ (start_pool default_slots 9)); [apply reach_start|].
      exact (step_acquire (start_pool default_slots 9) 0 eq_refl
               (proj1 (Nat.ltb_lt 0 8) eq_refl)).
    - exact (step_new_page pool_one_acquired 0 eq_refl). }
  split; [split; assumption|].
  exact (semaphore_no_deadlock default_slots 9 pool_one_open Hpos H).
Defined.

Lemma semaphore_zero_blocks_witness :
  reachable_from (start_pool 0 9) (start_pool 0 9)
  /\ open_sessions (start_pool 0 9) = 0
  /\ forall st', ~ step (start_pool 0 9) st'.
Proof.
  split; [apply reach_start|].
  exact (proj2 (semaphore_zero_blocks 9 (start_pool 0 9) (reach_start _))).
Defined.

End MoreWitnesses.

(** ** The words of the claims and the model *)

Section NumeralFacts.

Local Open Scope Z_scope.

Lemma ascii_fold_shift (v : str) : forall acc,
  Forall ascii_digit v ->
  fold_left digit_step v acc
  = acc * 10 ^ Z.of_nat (length v) + fold_left digit_step v 0
  /\ 0 <= fold_left digit_step v 0 < 10 ^ Z.of_nat (length v).
Proof.
  induction v as [|c v IH]; intros acc Hd.
  - simpl. split; lia.
  - inversion Hd as [|? ? Hc Hv]; subst.
    assert (Hc' : 0 <= Z.of_N c - 48 <= 9) by (unfold ascii_digit in Hc; lia).
    cbn [fold_left length].
    destruct (IH (digit_step acc c) Hv) as [E1 _].
    destruct (IH (digit_step 0 c) Hv) as [E2 Hb].
    rewrite E1, E2. unfold digit_step in *.
    rewrite Nat2Z.inj_succ, Z.pow_succ_r by lia.
    split; [ring|]. nia.
Qed.

Lemma uint_chars_digits d :
  Forall ascii_digit (bytes_of (NilEmpty.string_of_uint d)).
Proof.
  induction d; simpl; constructor; try assumption; unfold ascii_digit; lia.
Qed.

Lemma uint_chars_value_acc d : forall acc : positive,
  fold_left digit_step (bytes_of (NilEmpty.string_of_uint d)) (Z.pos acc)
  = Z.pos (Pos.of_uint_acc d acc).
Proof.
  induction d; intros acc; simpl; try reflexivity;
    (etransitivity; [|apply IHd]); f_equal; unfold digit_step; lia.
Qed.

Lemma uint_chars_value d :
  fold_left digit_step (bytes_of (NilEmpty.string_of_uint d)) 0
  = Z.of_N (Pos.of_uint d).
Proof.
  induction d; simpl; try reflexivity; try exact IHd;
    (etransitivity; [|apply uint_chars_value_acc]); f_equal.
Qed.

Lemma to_uint_no_leading_zero p u : Pos.to_uint p <> Decimal.D0 u.
Proof.
  intros E.
  pose proof (DecimalPos.Unsigned.to_of (Pos.to_uint p)) as H.
  rewrite DecimalPos.Unsigned.of_to in H. simpl in H. rewrite E in H.
  unfold Decimal.unorm in H. rewrite nzhead_D0 in H.
  destruct (Decimal.nzhead u) eqn:Hn; try discriminate.
  - inversion H; subst. apply (DecimalPos.Unsigned.to_uint_nonzero p). exact E.
  - apply (nzhead_nonzero u u0). rewrite Hn. reflexivity.
Qed.

(** [str(z)] is the decimal numeral of a [z] that is not negative. *)
Lemma py_str_numeral z : 0 <= z -> numeral_of z (py_str z).
Proof.
  intros Hz. unfold py_str, numeral_of, ascii_value.
  destruct z as [|p|p]; [| |lia].
  - simpl. repeat split.
    + discriminate.
    + repeat constructor; unfold ascii_digit; lia.
    + lia.
  - simpl Z.to_int. unfold NilZero.string_of_int.
    pose proof (DecimalPos.Unsigned.to_uint_nonnil p) as Hnn.
    pose proof (to_uint_no_leading_zero p) as Hnz.
    pose proof (DecimalPos.Unsigned.of_to p) as Hv.
    assert (Hs : NilZero.string_of_uint (Pos.to_uint p)
                 = NilEmpty.string_of_uint (Pos.to_uint p))
      by (destruct (Pos.to_uint p); [congruence | reflexivity ..]).
    rewrite Hs. split; [|split; [|split]].
    + destruct (Pos.to_uint p); [congruence | discriminate ..].
    + apply uint_chars_digits.
    + intros _. destruct (Pos.to_uint p) as [|u|u|u|u|u|u|u|u|u|u];
        try discriminate. exfalso. eapply Hnz. reflexivity.
    + rewrite uint_chars_value, Hv. reflexivity.
Qed.

Lemma numeral_length z v (w : nat) :
  numeral_of z v -> 0 <= z < 10 ^ Z.of_nat w -> (1 <= w)%nat -> (length v <= w)%nat.
Proof.
  intros (Hne & Hd & Hlead & Hval) Hz Hw.
  destruct v as [|c v]; [congruence|].
  destruct v as [|c' v]; [simpl; lia|].
  assert (Hc : head (c :: c' :: v) <> Some 48%N) by (apply Hlead; simpl; lia).
  inversion Hd as [|? ? Hc1 Hv]; subst.
  unfold ascii_value in Hz.
  change (fold_left digit_step (c :: c' :: v) 0)
    with (fold_left digit_step (c' :: v) (digit_step 0 c)) in Hz.
  destruct (ascii_fold_shift (c' :: v) (digit_step 0 c) Hv) as [E Hb].
  rewrite E in Hz.
  assert (1 <= digit_step 0 c).
  { unfold digit_step. unfold ascii_digit in Hc1.
    assert (c <> 48%N) by (intros ->; apply Hc; reflexivity). lia. }
  assert (Hlt : 10 ^ Z.of_nat (length (c' :: v)) < 10 ^ Z.of_nat w) by nia.
  apply Z.pow_lt_mono_r_iff in Hlt; [|lia|lia].
  cbn [length] in *. lia.
Qed.

Lemma zeros_value (k : nat) (v : str) :
  fold_left digit_step (repeat 48%N k ++ v) 0 = fold_left digit_step v 0.
Proof.
  induction k as [|k IH]; [reflexivity|]. simpl. exact IH.
Qed.

(** Padding with zeros writes the same number in the asked width. *)
Lemma zero_pad_padded (w : nat) z :
  0 <= z < 10 ^ Z.of_nat w -> (1 <= w)%nat -> padded_numeral w z (zero_pad w z).
Proof.
  intros Hz Hw. pose proof (py_str_numeral z ltac:(lia)) as Hn.
  pose proof (numeral_length z _ w Hn Hz Hw) as Hlen.
  destruct Hn as (_ & Hd & _ & Hval).
  unfold zero_pad, padded_numeral. split; [|split].
  - rewrite length_app, List.repeat_length. apply Nat.sub_add. exact Hlen.
  - apply Forall_app. split; [|exact Hd].
    apply Forall_forall. intros x Hx. apply list_elem_of_In, repeat_spec in Hx.
    subst x. unfold ascii_digit. lia.
  - unfold ascii_value. rewrite zeros_value. exact Hval.
Qed.

Lemma isoformat_iso_8601 d : valid_datetime d -> iso_8601 d (isoformat d).
Proof.
  intros (Hy & Hmo & Hd & Hh & Hmi & Hs & Hu).
  unfold iso_8601, isoformat.
  exists (zero_pad 4 (dt_year d)), (zero_pad 2 (dt_month d)),
         (zero_pad 2 (dt_day d)), (zero_pad 2 (dt_hour d)),
         (zero_pad 2 (dt_minute d)), (zero_pad 2 (dt_second d)),
         (if (dt_microsecond d =? 0) then []
          else utf8 "." ++ zero_pad 6 (dt_microsecond d)).
  split; [reflexivity|].
  repeat (split; [apply zero_pad_padded; simpl; lia|]).
  destruct (Z.eqb_spec (dt_microsecond d) 0) as [E|E]; [left; auto | right].
  split; [exact E|]. eexists. split; [reflexivity|].
  apply zero_pad_padded; simpl; lia.
Qed.

End NumeralFacts.

(** ** The pattern extraction engine: the claims *)

Section WordFacts.
Context {U : UnicodeDB}.

Lemma substr_piece (text : str) i j :
  i <= j <= length text -> piece_of text i j (substr text i j).
Proof.
  intros Hij. split; [exact Hij|]. split.
  - apply length_substr. lia.
  - intros k Hk. apply substr_lookup. exact Hk.
Qed.

Lemma str_replace_commas s : commas_as_points s (str_replace 44 46 s).
Proof.
  unfold str_replace. split; [apply length_map|].
  induction s as [|a s IH]; intros [|k] c Hk; simpl in *; try discriminate.
  - inversion Hk; subst. reflexivity.
  - apply IH. exact Hk.
Qed.

Lemma number_span text i g : number_at text i g -> i <= g <= length text.
Proof.
  intros (a & Hia & Ha & Hg).
  pose proof (all_in_bound _ _ _ _ Ha Hia) as Hb.
  destruct Hg as [->|(_ & Hj & Ha')]; [lia|].
  pose proof (all_in_bound _ _ _ _ Ha' Hj). lia.
Qed.

Lemma reviews_span text i g e : reviews_at text i g e -> i <= g <= length text.
Proof.
  intros (_ & Hig & _ & a & Hga & Hs & _).
  pose proof (all_in_bound _ _ _ _ Hs Hga). lia.
Qed.

Lemma tenure_year text i g e :
  tenure_at text i g e -> year_at text g (digits_value (substr text g e)).
Proof.
  intros (_ & _ & _ & _ & _ & Hd & ->).
  pose proof (all_in_bound _ _ _ _ Hd ltac:(lia)) as Hb.
  destruct (Hd g ltac:(lia)) as (d3 & H3 & _).
  destruct (Hd (g + 1) ltac:(lia)) as (d2 & H2 & _).
  destruct (Hd (g + 2) ltac:(lia)) as (d1 & H1 & _).
  destruct (Hd (g + 3) ltac:(lia)) as (d0 & H0 & _).
  exists d3, d2, d1, d0. repeat (split; [assumption|]).
  assert (E : substr text g (g + 4) = [d3; d2; d1; d0]).
  { apply list_eq. intros k. destruct (Nat.lt_ge_cases k 4) as [Hk|Hk].
    - rewrite substr_lookup by lia.
      destruct k as [|[|[|[|k]]]]; try lia; simpl;
        rewrite ?Nat.add_0_r; assumption.
    - rewrite !lookup_ge_None_2; [reflexivity | simpl; lia |].
      rewrite length_substr by exact Hb. lia. }
  rewrite E. unfold digits_value. simpl. lia.
Qed.

Lemma rating_field_words text v : rating_field text v -> rating_words text v.
Proof.
  intros [(i & g & e & Hat & Hleft & ->)|H]; [left | right; exact H].
  exists i, g, e, (substr text i g). split; [exact Hat|]. split; [exact Hleft|].
  split; [apply substr_piece, number_span, Hat | apply str_replace_commas].
Qed.

Lemma reviews_field_words text v : reviews_field text v -> reviews_words text v.
Proof.
  intros [(i & g & e & Hat & Hleft & ->)|H]; [left | right; exact H].
  exists i, g, e, (substr text i g). split; [exact Hat|]. split; [exact Hleft|].
  split; [eapply substr_piece, reviews_span; exact Hat | reflexivity].
Qed.

Lemma years_field_words text year_now v :
  years_field text year_now v -> years_words text year_now v.
Proof.
  intros [(i & g & e & Hat & Hleft & ->)|H]; [left | right; exact H].
  exists i, g, e, (digits_value (substr text g e)).
  split; [exact Hat|]. split; [exact Hleft|].
  split; [eapply tenure_year; exact Hat | apply py_str_numeral; lia].
Qed.

End WordFacts.

Section PureClaims.
Context {U : UnicodeDB}.

(** C3, as amended.  For every text, [extract_license_from_text] returns
    without raising one string: the piece of the text at the leftmost
    structured code (three upper-case letters, hyphen, three upper-case
    letters, hyphen, four to six upper-case letters or digits) that stands
    between word boundaries, wherever the digit runs are; when there is no
    such code, the piece at the leftmost run of six to eight digits between
    word boundaries; otherwise the empty string. *)
Theorem extract_license_precedence (text : str) :
  exists code, extract_license_from_text text = Ret code /\ license_words text code.
Proof.
  unfold extract_license_from_text, license_words.
  pose proof (search_license_code text) as Hc.
  destruct (re_search re_license_code text) as [m|].
  - destruct Hc as (i & j & Hat & Hleft & ->).
    eexists. split; [reflexivity|]. left. exists i, j.
    split; [exact Hat|]. split; [exact Hleft|]. apply substr_piece.
    destruct Hat as (_ & _ & _ & _ & _ & Hj & Ha & _).
    pose proof (all_in_bound _ _ _ _ Ha ltac:(lia)). lia.
  - pose proof (search_license_digits text) as Hd.
    destruct (re_search re_license_digits text) as [m|].
    + destruct Hd as (i & j & Hat & Hleft & ->).
      eexists. split; [reflexivity|]. right. left. split; [exact Hc|].
      exists i, j. split; [exact Hat|]. split; [exact Hleft|]. apply substr_piece.
      destruct Hat as (_ & Hj & Ha & _).
      pose proof (all_in_bound _ _ _ _ Ha ltac:(lia)). lia.
    + exists []. split; [reflexivity|]. right. right. auto.
Qed.

(** C2, as amended.  For every text and every current year,
    [parse_host_stats] returns without raising, and each field is described
    through its own pattern alone, whatever the other two patterns do.  The
    rating is the number (digits, then possibly a point or a comma and more
    digits) of the leftmost place where such a number is followed by
    optional blanks, "sur", optional blanks and "5", each comma written as
    a point.  The review count is the decimal digits, in order, of the
    leftmost stretch that begins with a digit, goes on over digits and
    blanks, and is followed by at least one blank and "commentaire" in any
    letter case.  The tenure is the decimal numeral, hence never negative,
    of max(0, year - start year), where the start year is written by the
    four digits that follow the leftmost "Hôte depuis" or "Hote depuis", in
    any letter case, and at least one blank.  A field is empty when its
    pattern occurs nowhere. *)
Theorem parse_host_stats_fields (text : str) (year_now : Z) :
  exists hs, parse_host_stats text year_now = Ret hs
    /\ rating_words text (stats_host_rating hs)
    /\ reviews_words text (stats_host_reviews_count hs)
    /\ years_words text year_now (stats_host_years hs).
Proof.
  destruct (parse_host_stats_spec text year_now) as (hs & E & Hr & Hv & Hy).
  exists hs. split; [exact E|].
  split; [apply rating_field_words; exact Hr|].
  split; [apply reviews_field_words; exact Hv|].
  apply years_field_words. exact Hy.
Qed.

End PureClaims.

Section PureCounterexamples.
Local Existing Instance latin1_db.

(** C3, the claim as stated fails: it asks for the first substring of the
    structured shape, but the code wants word boundaries around it.  In
    "XABC-DEF-1234" the shape stands from index 1 and nothing is returned;
    in "ABC-DEF-1234567 et 7654321" it stands from index 0 and a run of
    digits is returned in its place. *)
Lemma structured_code_needs_boundaries :
  structured_shape_at (utf8 "XABC-DEF-1234") 1 13
  /\ extract_license_from_text (utf8 "XABC-DEF-1234") = Ret []
  /\ structured_shape_at (utf8 "ABC-DEF-1234567 et 7654321") 0 14
  /\ extract_license_from_text (utf8 "ABC-DEF-1234567 et 7654321")
     = Ret (utf8 "1234567").
Proof.
  assert (Hall : forall p (text : str) i j,
            forallb p (substr text i j) = true -> j <= length text ->
            all_in p text i j).
  { intros p text i j Hf Hj k Hk.
    destruct (text !! k) as [ch|] eqn:Hc.
    - exists ch. split; [reflexivity|].
      rewrite forallb_forall in Hf. apply Hf. apply list_elem_of_In.
      apply (list_elem_of_lookup_2 _ (k - i)).
      rewrite substr_lookup by lia. rewrite <- Hc. f_equal. lia.
    - apply lookup_ge_None in Hc. lia. }
  split; [|split; [vm_compute; reflexivity|split; [|vm_compute; reflexivity]]].
  - repeat split; try (apply Hall; [reflexivity | simpl; lia]); simpl; lia.
  - repeat split; try (apply Hall; [reflexivity | simpl; lia]); simpl; lia.
Qed.

(** C2, the claim as stated fails: it names the pattern "Hôte depuis", but
    the code also takes "Hote depuis", so a text without any ô gets a
    tenure; and the number before "commentaire" takes in the digits and
    blanks before it, here the 5 of the rating scale. *)
Lemma tenure_without_circumflex :
  (244%N ∉ utf8 "Hote depuis 2015") /\ (212%N ∉ utf8 "Hote depuis 2015")
  /\ parse_host_stats (utf8 "Hote depuis 2015") 2026
     = Ret {| stats_host_rating := []; stats_host_reviews_count := [];
              stats_host_years := utf8 "11" |}
  /\ parse_host_stats (utf8 "4,9 sur 5 12 commentaires") 2026
     = Ret {| stats_host_rating := utf8 "4.9";
              stats_host_reviews_count := utf8 "512";
              stats_host_years := [] |}.
Proof.
  split; [apply (bool_decide_unpack (244%N ∉ utf8 "Hote depuis 2015")); vm_compute; exact I|].
  split; [apply (bool_decide_unpack (212%N ∉ utf8 "Hote depuis 2015")); vm_compute; exact I|].
  split; vm_compute; reflexivity.
Qed.

End PureCounterexamples.

(** ** The listing detail extractor: the claims on failures and on the host *)

Section HostFieldFacts.
Context {U : UnicodeDB}.
Variable clock : nat -> datetime.

Lemma read_host_section_host pg sec data P :
  host_name data = [] -> host_url data = [] ->
  outcomes (read_host_section pg sec data)
    (fun r => host_is (section_name pg sec) (section_link pg sec) data (snd r)) P.
Proof.
  intros Hn Hu. unfold read_host_section.
  eapply outcomes_bind; [apply catch_call_outcomes|]. intros host_text _.
  eapply outcomes_bind; [apply safe_inner_text_outcomes|]. intros name ->.
  change (safe_text pg (locate (Some (First sec)) (Tag "h2, h3, span")))
    with (section_name pg sec).
  set (data1 := if negb (is_empty (section_name pg sec))
                then set_host_name (section_name pg sec) data else data).
  assert (H1 : host_is (section_name pg sec) [] data data1).
  { unfold data1, host_is. destruct (section_name pg sec) eqn:E; simpl;
      repeat split; assumption. }
  apply (outcomes_bind _ _
           (host_is (section_name pg sec) (section_link pg sec) data)).
  - intros w. unfold catch, mbind_M, loc_count, loc_get_attribute, call, mret,
      section_link.
    destruct (pg_count pg (Within (First sec) users_link)) as [[|n]|e]; simpl;
      try exact H1.
    destruct (pg_get_attribute pg (First (Within (First sec) users_link)) "href")
      as [[h|]|e]; simpl; try exact H1.
    destruct H1 as (N1 & U1 & R1).
    destruct h as [|c h]; simpl; [exact (conj N1 (conj U1 R1))|].
    split; [exact N1|]. split; [reflexivity|].
    eapply same_rest_trans; [exact R1 | apply set_host_url_rest].
  - intros d Hd. apply outcomes_mret. exact Hd.
Qed.

Lemma find_host_section_host pg url data :
  host_name data = [] -> host_url data = [] ->
  outcomes (find_host_section pg data)
    (fun r => host_is (fst (section_host pg)) (snd (section_host pg)) data (snd r))
    (unguarded_raise pg url).
Proof.
  intros Hn Hu. unfold find_host_section, section_host, located_host_section.
  intros w. unfold mbind_M at 1. unfold loc_count at 1. rewrite call_run.
  destruct (pg_count pg host_section_primary) as [[|n]|e] eqn:E1; simpl.
  - unfold mbind_M at 1. unfold loc_count at 1. rewrite call_run.
    destruct (pg_count pg host_section_secondary) as [[|m]|e] eqn:E2; simpl.
    + repeat split; assumption.
    + apply (read_host_section_host pg host_section_secondary data _ Hn Hu).
    + do 5 right. exact E2.
  - unfold mbind_M at 1. unfold loc_count at 1. rewrite call_run, E1. simpl.
    apply (read_host_section_host pg host_section_primary data _ Hn Hu).
  - do 4 right. left. exact E1.
Qed.

Lemma host_fallback_host pg data P :
  outcomes (host_fallback pg data)
    (fun d => (host_name d, host_url d)
              = host_after_fallback pg (host_name data) (host_url data)
              /\ same_rest data d) P.
Proof.
  intros w. unfold host_fallback, host_after_fallback.
  destruct (is_empty (host_name data) || is_empty (host_url data)); simpl;
    [|split; [reflexivity | apply same_rest_refl]].
  unfold catch, mbind_M, loc_get_attribute, loc_inner_text, call, mret.
  fold fallback_link.
  destruct (pg_get_attribute pg fallback_link "href") as [href|e1]; simpl;
    [|split; [reflexivity | apply same_rest_refl]].
  destruct (pg_inner_text pg fallback_link) as [text|e2]; simpl;
    [|split; [reflexivity | apply same_rest_refl]].
  destruct href as [[|c h]|]; destruct text as [|c' t]; simpl;
    (split; [reflexivity | repeat split]).
Qed.

Lemma extract_loaded_host pg url data :
  host_name data = [] -> host_url data = [] ->
  outcomes (extract_loaded clock pg data)
    (fun row => (host_name row, host_url row) = expected_host pg)
    (unguarded_raise pg url).
Proof.
  intros Hn Hu. unfold extract_loaded.
  eapply outcomes_bind; [apply click_more_buttons_outcomes|]. intros _ _.
  eapply outcomes_bind; [apply safe_inner_text_outcomes|]. intros h1 _.
  apply (outcomes_bind _ _ (fun _ => True)).
  { destruct (is_empty h1); [|apply outcomes_mret; exact I].
    apply outcomes_call; [auto|]. intros e He. do 3 right. left. exact He. }
  intros title _.
  eapply outcomes_bind; [apply catch_call_outcomes|]. intros body _.
  destruct (extract_license_returns body) as [code Hcode].
  apply (outcomes_bind _ _ (fun _ => True)).
  { apply outcomes_lift; [auto|]. intros e He. congruence. }
  intros c _.
  eapply outcomes_bind.
  { apply (find_host_section_host pg url); [exact Hn | exact Hu]. }
  intros found (N3 & U3 & _).
  eapply outcomes_bind; [apply host_fallback_host|].
  intros data4 [H4 _].
  apply (outcomes_bind _ _ (fun _ => True)).
  { intros w. exact I. }
  intros today _.
  match goal with |- context [parse_host_stats ?t ?y] =>
    destruct (parse_host_stats_spec t y) as (hs & Hhs & _)
  end.
  apply (outcomes_bind _ _ (fun _ => True)).
  { apply outcomes_lift; [auto|]. intros e He. congruence. }
  intros stats _. apply outcomes_mret.
  destruct (merge_stats_keeps stats data4) as (_ & _ & _ & Mhu & Mhn & _).
  rewrite Mhu, Mhn, H4, N3, U3. reflexivity.
Qed.

(** Failed clicks leave no mark: the run is the same whatever the clicks
    answer. *)
Lemma click_more_buttons_clicks pg click w :
  (forall label, In label more_labels ->
     exists n, pg_count pg (Css (ButtonHasText label)) = Ret n) ->
  click_more_buttons (with_clicks pg click) w = click_more_buttons pg w.
Proof.
  intros Hc.
  set (counts := fun label =>
                   match pg_count pg (Css (ButtonHasText label)) with
                   | Ret n => n
                   | Raise _ => 0
                   end).
  assert (H1 : forall label, In label more_labels ->
                 pg_count pg (Css (ButtonHasText label)) = Ret (counts label)).
  { intros label Hl. destruct (Hc label Hl) as [n Hn]. unfold counts.
    rewrite Hn. reflexivity. }
  assert (Hrun : forall p : Page,
            (forall label, In label more_labels ->
               pg_count p (Css (ButtonHasText label)) = Ret (counts label)) ->
            click_more_buttons p w
            = (pg_wait_for_timeout p 500,
               after w (click_attempts counts more_labels
                        ++ [EvWaitForTimeout 500]))).
  { intros p Hp. pose proof (click_labels_run p counts more_labels w Hp) as E.
    unfold click_more_buttons. unfold mbind_M at 1. cbv zeta in E |- *.
    rewrite E. unfold page_wait_for_timeout. rewrite call_run, after_after.
    reflexivity. }
  rewrite (Hrun pg H1), (Hrun (with_clicks pg click) H1). reflexivity.
Qed.

Lemma extract_listing_clicks pg click url w :
  (forall label, In label more_labels ->
     exists n, pg_count pg (Css (ButtonHasText label)) = Ret n) ->
  extract_listing clock (with_clicks pg click) url w = extract_listing clock pg url w.
Proof.
  intros Hc. rewrite !extract_listing_unfold. cbv zeta.
  change (pg_goto (with_clicks pg click) url) with (pg_goto pg url).
  destruct (pg_goto pg url) as [[]|e]; [|reflexivity].
  unfold extract_loaded. unfold mbind_M at 1. unfold mbind_M at 12.
  rewrite (click_more_buttons_clicks pg click _ Hc).
  reflexivity.
Qed.

Lemma extract_license_of_nothing : extract_license_from_text [] = Ret [].
Proof. reflexivity. Qed.

Lemma parse_host_stats_of_nothing y :
  parse_host_stats [] y
  = Ret {| stats_host_rating := []; stats_host_reviews_count := [];
           stats_host_years := [] |}.
Proof. reflexivity. Qed.

End HostFieldFacts.

Section ListingClaimFacts.
Context {U : UnicodeDB}.
Variable clock : nat -> datetime.

Lemma extract_listing_returns pg url :
  pg_goto pg url = Raise PlaywrightTimeoutError
  \/ (pg_goto pg url = Ret tt /\ unguarded_calls_answer pg) ->
  surely (extract_listing clock pg url)
    (fun row =>
       listing_url row = url
       /\ exists today,
            pg_goto pg url = Ret tt ->
            parse_host_stats
              (if negb (is_empty (captured_host_text pg))
               then captured_host_text pg else captured_body_text pg)
              (dt_year today) = Ret (stats_of row)).
Proof.
  intros [Ht|[Hgo Hun]].
  - intros w0. rewrite (extract_listing_timeout clock pg url w0 Ht).
    eexists _, _. split; [reflexivity|]. split; [reflexivity|].
    split; [reflexivity|]. exists (clock 0). intros Hgo. congruence.
  - eapply surely_weaken; [apply extract_listing_loaded; eauto|].
    intros row [Hu [today Hp]]. split; [exact Hu|]. exists today. auto.
Qed.

(** [worker] appends the row [extract_listing] returns on its page. *)
Lemma worker_appends_it pg url w row w1 :
  extract_listing clock pg url (after w [EvNewPage]) = (Ret row, w1) ->
  w_results w1 = w_results w ->
  w_results (snd (worker clock (Ret pg) url w)) = w_results w ++ [row]
  /\ fst (worker clock (Ret pg) url w)
     = match pg_close pg with
       | Ret _ => Ret tt
       | Raise e => Raise e
       end.
Proof.
  intros E Hr.
  set (run := worker clock (Ret pg) url w).
  assert (Hrun : run = finally (row <- extract_listing clock pg url ;;
                                append_result row)%prog
                         (page_close pg) (after w [EvNewPage])) by reflexivity.
  clearbody run. subst run.
  unfold finally, mbind_M. rewrite E. unfold append_result, page_close, call.
  simpl. destruct (pg_close pg) as [[]|e]; simpl; rewrite Hr; auto.
Qed.

End ListingClaimFacts.

Section ListingFailureClaims.
Context {U : UnicodeDB}.
Variable clock : nat -> datetime.




End ListingFailureClaims.

Section ListingFailureCounterexamples.
Local Existing Instance latin1_db.


End ListingFailureCounterexamples.

(** ** The amended claims at work on the scripted pages *)

Section ClaimWitnesses.
Local Existing Instance latin1_db.




End ClaimWitnesses.
